(** * The on-chain resolution engine of a Lightning channel (lightningd/onchain/onchain.c)

    A shallow embedding of the output tracker, the feerate inference, the
    close handlers and the depth/spend loop, followed by the properties the
    specification states about them. *)

From Stdlib Require Import ZArith List Bool Lia Permutation.
Import ListNotations.
Open Scope Z_scope.

(** ** Machine integers

    [u32] and [u64] values are integers in [0, 2^32) and [0, 2^64); the
    arithmetic of the C code wraps, which is written out at every operation
    that can leave the range. *)

Definition u32 (z : Z) : Z := z mod 2 ^ 32.
Definition u64 (z : Z) : Z := z mod 2 ^ 64.
Definition UINT64_MAX : Z := 2 ^ 64 - 1.

Definition is_u32 (z : Z) : Prop := 0 <= z < 2 ^ 32.
Definition is_u64 (z : Z) : Prop := 0 <= z < 2 ^ 64.

(** ** Outcomes

    [status_failed] ends the process with one of three error kinds.  The
    faults of C that the code does not guard (a null pointer read, an index
    past the end of an array, a division by zero) are kept apart from it. *)

Inductive failure : Type :=
| WIRE_ONCHAIN_BAD_COMMAND
| WIRE_ONCHAIN_INTERNAL_ERROR
| WIRE_ONCHAIN_CRYPTO_FAILED.

Inductive fault : Type :=
| NullDeref
| OutOfBounds
| DivByZero.

Inductive outcome (A : Type) : Type :=
| Ok (a : A)
| StatusFailed (f : failure)
| Undefined (u : fault).

Arguments Ok {A} a.
Arguments StatusFailed {A} f.
Arguments Undefined {A} u.

Definition bind {A B : Type} (m : outcome A) (k : A -> outcome B) : outcome B :=
  match m with
  | Ok a => k a
  | StatusFailed f => StatusFailed f
  | Undefined u => Undefined u
  end.

Notation "x <- m ;; k" := (bind m (fun x => k))
  (at level 61, m at next level, right associativity).
Notation "' p <- m ;; k" := (bind m (fun p => k))
  (at level 61, p pattern, m at next level, right associativity).

(** A derivation of the key library reports failure by returning false. *)
Definition crypto {A : Type} (o : option A) : outcome A :=
  match o with
  | Some a => Ok a
  | None => StatusFailed WIRE_ONCHAIN_CRYPTO_FAILED
  end.

(** An array read [a[i]]. *)
Definition at_index {A : Type} (l : list A) (i : nat) : outcome A :=
  match nth_error l i with
  | Some a => Ok a
  | None => Undefined OutOfBounds
  end.

(** ** Data model *)

(** Byte strings ([u8 *] arrays with their [tal_len]). *)
Definition bytes : Type := list Z.

(** A [struct sha256_double], read as a 256-bit number; [structeq] on two
    of them is equality of the numbers. *)
Definition sha256_double : Type := Z.
Definition structeq (a b : sha256_double) : bool := a =? b.

Inductive side : Type := LOCAL | REMOTE.

Definition side_eqb (a b : side) : bool :=
  match a, b with
  | LOCAL, LOCAL | REMOTE, REMOTE => true
  | _, _ => false
  end.

Definition other_side (s : side) : side :=
  match s with LOCAL => REMOTE | REMOTE => LOCAL end.

Inductive tx_type : Type :=
| FUNDING_TRANSACTION
| MUTUAL_CLOSE
| OUR_UNILATERAL
| THEIR_UNILATERAL
| THEIR_REVOKED_UNILATERAL
| OUR_HTLC_TIMEOUT_TO_US
| THEIR_HTLC_TIMEOUT_TO_THEM
| OUR_UNILATERAL_TO_US_RETURN_TO_WALLET
| SELF
| UNKNOWN_TXTYPE.

Inductive output_type : Type :=
| FUNDING_OUTPUT
| OUTPUT_TO_US
| OUTPUT_TO_THEM
| DELAYED_OUTPUT_TO_US
| DELAYED_OUTPUT_TO_THEM
| OUR_HTLC
| THEIR_HTLC.

Inductive peer_state : Type :=
| ONCHAIND_MUTUAL
| ONCHAIND_OUR_UNILATERAL
| ONCHAIND_THEIR_UNILATERAL.

Record bitcoin_tx_input : Type := mk_input {
  in_txid : sha256_double;
  index : Z;
  sequence_number : Z;
  in_amount : option Z;
  witness : option (list bytes)
}.

Record bitcoin_tx_output : Type := mk_output {
  amount : Z;
  script : bytes
}.

Record bitcoin_tx : Type := mk_tx {
  lock_time : Z;
  input : list bitcoin_tx_input;
  output : list bitcoin_tx_output
}.

(** If we broadcast a tx, or need a delay to resolve the output. *)
Record proposed_resolution : Type := mk_proposal {
  prop_tx : option bitcoin_tx;
  depth_required : Z;
  prop_tx_type : tx_type
}.

(** How it actually got resolved. *)
Record resolution : Type := mk_resolution {
  res_txid : sha256_double;
  depth : Z;
  res_tx_type : tx_type
}.

Record tracked_output : Type := mk_tracked {
  out_tx_type : tx_type;
  txid : sha256_double;
  tx_blockheight : Z;
  outnum : Z;
  satoshi : Z;
  out_output_type : output_type;
  proposal : option proposed_resolution;
  resolved : option resolution
}.

Record feerate_range : Type := mk_range {
  min : Z;
  max : Z
}.

Record htlc_stub : Type := mk_htlc {
  owner : side;
  cltv_expiry : Z;
  ripemd : bytes
}.

Record keyset : Type := mk_keyset {
  self_revocation_key : bytes;
  self_delayed_payment_key : bytes;
  self_payment_key : bytes;
  other_payment_key : bytes
}.

Record basepoints : Type := mk_basepoints {
  revocation : bytes;
  payment : bytes;
  delayed_payment : bytes
}.

Record secrets : Type := mk_secrets {
  payment_basepoint_secret : bytes;
  delayed_payment_basepoint_secret : bytes
}.

(** Field updates of a tracked output (the C code writes through a pointer
    into the store). *)
Definition set_proposal (out : tracked_output) (p : option proposed_resolution)
  : tracked_output :=
  mk_tracked (out_tx_type out) (txid out) (tx_blockheight out) (outnum out)
             (satoshi out) (out_output_type out) p (resolved out).

Definition set_resolved (out : tracked_output) (r : option resolution)
  : tracked_output :=
  mk_tracked (out_tx_type out) (txid out) (tx_blockheight out) (outnum out)
             (satoshi out) (out_output_type out) (proposal out) r.

(** Messages read from and written to the parent on [REQ_FD]. *)
Inductive request : Type :=
| onchain_depth (t : sha256_double) (d : Z)
| onchain_spent (tx : bitcoin_tx) (input_num : Z) (blockheight : Z)
| onchain_known_preimage (preimage : bytes)
| other_message (raw : bytes).

Inductive reply : Type :=
| onchain_init_reply (s : peer_state)
| onchain_broadcast_tx (tx : bitcoin_tx)
| onchain_unwatch_tx (t : sha256_double) (num_outputs : Z).

(** ** Byte comparison *)

Fixpoint bytes_eqb (a b : bytes) : bool :=
  match a, b with
  | [], [] => true
  | x :: a', y :: b' => (x =? y) && bytes_eqb a' b'
  | _, _ => false
  end.

(** [scripteq]: same length and same content. *)
Definition scripteq (s1 s2 : bytes) : bool := bytes_eqb s1 s2.

(** [memeq(a, alen, b, blen)]. *)
Definition memeq (a b : bytes) : bool := bytes_eqb a b.

(** ** The script, key and signing library

    The engine takes these from the rest of the daemon (bitcoin/script.h,
    lightningd/htlc_tx.h, lightningd/key_derive.h, ccan/shachain); only
    their signatures matter to it. *)

Class Primitives : Type := {
  bitcoin_txid : bitcoin_tx -> sha256_double;
  measure_tx_cost : bitcoin_tx -> Z;
  sha256 : bytes -> bytes;
  is_p2wsh : bytes -> bool;
  scriptpubkey_p2wsh : bytes -> bytes;
  scriptpubkey_p2wpkh : bytes -> bytes;
  to_self_wscript : Z -> keyset -> bytes;
  htlc_offered_wscript : bytes -> keyset -> bytes;
  htlc_received_wscript : bytes -> Z -> keyset -> bytes;
  blocks_to_abs_locktime : Z -> option Z;
  bitcoin_wscript_htlc_offer_ripemd160 : bytes -> bytes -> bytes -> bytes -> bytes;
  htlc_timeout_tx :
    sha256_double -> Z -> Z -> Z -> Z -> Z -> keyset -> bitcoin_tx;
  check_tx_sig : bitcoin_tx -> nat -> bytes -> bytes -> bytes -> bool;
  sign_tx_input : bitcoin_tx -> nat -> bytes -> bytes -> bytes -> bytes;
  bitcoin_witness_secret : bytes -> bytes -> list bytes;
  bitcoin_htlc_offer_spend_timeout : bytes -> bytes -> bytes -> list bytes;
  per_commit_point : bytes -> Z -> option bytes;
  derive_keyset : bytes -> bytes -> bytes -> bytes -> bytes -> option keyset;
  derive_simple_privkey : bytes -> bytes -> bytes -> option bytes;
  derive_basepoints : bytes -> basepoints * secrets * bytes;
  commit_number_obscurer : bytes -> bytes -> Z;
  shachain_index : Z -> Z;
  shachain_get_hash : bytes -> Z -> option bytes;
  revocations_received : bytes -> Z
}.

Section Engine.

Context {prim : Primitives}.

(** ** Feerate inference *)

Definition sum_amounts (outs : list bitcoin_tx_output) (fee : Z) : Z :=
  fold_left (fun f o => u64 (f - amount o)) outs fee.

Definition init_feerate_range (funding_satoshi : Z) (commit_tx : bitcoin_tx)
  : feerate_range :=
  let fee := sum_amounts (output commit_tx) funding_satoshi in
  let n := Z.of_nat (length (output commit_tx)) in
  let max_untrimmed_htlcs := if n <? 2 then 0 else n - 2 in
  mk_range 0
    (u32 (u64 (u64 (fee + 999) * 1000) / u64 (724 + 172 * max_untrimmed_htlcs))).

Definition narrow_feerate_range (fr : feerate_range) (fee multiplier : Z)
  : outcome feerate_range :=
  if multiplier =? 0 then Undefined DivByZero
  else
    let max_ := u32 (u64 (u64 (fee + 999) * 1000) / multiplier) in
    let min_ :=
      if fee <? 999 then 0
      else u32 (u64 (u64 (fee - 999) * 1000) / multiplier) in
    let new_max := if max_ <? max fr then max_ else max fr in
    let new_min := if min_ >? min fr then min_ else min fr in
    Ok (mk_range new_min new_max).

(** ** The tracked-output store *)

(** The new record; the caller keeps it as the last slot of the store. *)
Definition new_tracked_output (t : sha256_double) (blockheight : Z)
    (ty : tx_type) (n : Z) (sat : Z) (oty : output_type) : tracked_output :=
  mk_tracked ty t blockheight n sat oty None None.

Definition ignore_output (out : tracked_output) : tracked_output :=
  set_resolved out (Some (mk_resolution (txid out) 0 SELF)).

Definition propose_resolution (out : tracked_output) (tx : option bitcoin_tx)
    (depth_req : Z) (ty : tx_type) : tracked_output :=
  set_proposal out (Some (mk_proposal tx depth_req ty)).

Definition propose_resolution_at_block (out : tracked_output)
    (tx : option bitcoin_tx) (block_required : Z) (ty : tx_type)
  : tracked_output :=
  let d :=
    (* Expiry could be in the past! *)
    if block_required <? tx_blockheight out then 0
    else u32 (block_required - tx_blockheight out) in
  propose_resolution out tx d ty.

(** This simple case: true if this was resolved by our proposal.  The
    proposal is read without a null test. *)
Definition resolved_by_proposal (out : tracked_output) (t : sha256_double)
  : outcome (bool * tracked_output) :=
  match proposal out with
  | None => Undefined NullDeref
  | Some p =>
      match prop_tx p with
      | None => Ok (false, out)
      | Some ptx =>
          if structeq (bitcoin_txid ptx) t
          then Ok (true, set_resolved out
                           (Some (mk_resolution (bitcoin_txid ptx) 0
                                                (prop_tx_type p))))
          else Ok (false, set_resolved out None)
      end
  end.

Definition resolved_by_other (out : tracked_output) (t : sha256_double)
    (ty : tx_type) : tracked_output :=
  set_resolved out (Some (mk_resolution t 0 ty)).

Definition unknown_spend (out : tracked_output) (tx : bitcoin_tx)
  : tracked_output :=
  set_resolved out (Some (mk_resolution (bitcoin_txid tx) 0 UNKNOWN_TXTYPE)).

(** ** The close classifier *)

Definition unmask_commit_number (tx : bitcoin_tx) (funder : side)
    (local_payment_basepoint remote_payment_basepoint : bytes) : outcome Z :=
  let keys := fun s =>
    match s with
    | LOCAL => local_payment_basepoint
    | REMOTE => remote_payment_basepoint
    end in
  let obscurer := commit_number_obscurer (keys funder) (keys (other_side funder)) in
  in0 <- at_index (input tx) 0 ;;
  Ok (Z.lxor (Z.lor (Z.land (lock_time tx) 16777215)
                    (Z.shiftl (Z.land (sequence_number in0) 16777215) 24))
             obscurer).

Fixpoint is_mutual_close_from (outs : list bitcoin_tx_output)
    (local_scriptpubkey remote_scriptpubkey : bytes)
    (local_matched remote_matched : bool) : bool :=
  match outs with
  | [] => true
  | o :: rest =>
      (* To be paranoid, we only let each one match once. *)
      if scripteq (script o) local_scriptpubkey && negb local_matched
      then is_mutual_close_from rest local_scriptpubkey remote_scriptpubkey
                                true remote_matched
      else if scripteq (script o) remote_scriptpubkey && negb remote_matched
      then is_mutual_close_from rest local_scriptpubkey remote_scriptpubkey
                                local_matched true
      else false
  end.

Definition is_mutual_close (tx : bitcoin_tx)
    (local_scriptpubkey remote_scriptpubkey : bytes) : bool :=
  is_mutual_close_from (output tx) local_scriptpubkey remote_scriptpubkey
                       false false.

(** We only ever send out one, so matching it is easy. *)
Definition is_local_commitment (t our_broadcast_txid : sha256_double) : bool :=
  structeq t our_broadcast_txid.

(** ** The depth/spend loop *)

Fixpoint all_irrevocably_resolved (outs : list tracked_output) : bool :=
  match outs with
  | [] => true
  | o :: rest =>
      match resolved o with
      | Some r =>
          if depth r <? 100 then false else all_irrevocably_resolved rest
      | None => all_irrevocably_resolved rest
      end
  end.

(** The output after the call and what was written to the parent. *)
Definition proposal_meets_depth (out : tracked_output)
  : outcome (tracked_output * list reply) :=
  match proposal out with
  | None => Undefined NullDeref
  | Some p =>
      match prop_tx p with
      | None => Ok (ignore_output out, [])
      | Some ptx => Ok (out, [onchain_broadcast_tx ptx])
      end
  end.

Definition unwatch_tx (tx : bitcoin_tx) : list reply :=
  [onchain_unwatch_tx (bitcoin_txid tx) (Z.of_nat (length (output tx)))].

Definition handle_their_htlc_fulfill (out : tracked_output) (tx : bitcoin_tx)
  : outcome tracked_output :=
  StatusFailed WIRE_ONCHAIN_INTERNAL_ERROR.

(** The body of the loop of [output_spent] from slot [outs] on; [None] when
    the loop ran to its end without a match. *)
Fixpoint output_spent_from (outs : list tracked_output) (tx : bitcoin_tx)
    (spender : sha256_double) (inp : bitcoin_tx_input)
  : outcome (option (list tracked_output)) :=
  match outs with
  | [] => Ok None
  | o :: rest =>
      let skip :=
        r <- output_spent_from rest tx spender inp ;;
        Ok (option_map (cons o) r) in
      match resolved o with
      | Some _ => skip
      | None =>
          if negb (index inp =? outnum o) then skip
          else if negb (structeq (in_txid inp) (txid o)) then skip
          else
            (* Was this our resolution? *)
            '(ours, o1) <- resolved_by_proposal o spender ;;
            if (ours : bool) then Ok (Some (o1 :: rest))
            else
              match out_output_type o1 with
              | OUTPUT_TO_US | DELAYED_OUTPUT_TO_US =>
                  Ok (Some (unknown_spend o1 tx :: rest))
              | THEIR_HTLC =>
                  (* We ignore this timeout tx, since we should
                     resolve by ignoring once we reach depth. *)
                  Ok (Some (o1 :: rest))
              | OUR_HTLC =>
                  (* The only way they can spend this: fulfill *)
                  o2 <- handle_their_htlc_fulfill o1 tx ;;
                  Ok (Some (o2 :: rest))
              | FUNDING_OUTPUT => StatusFailed WIRE_ONCHAIN_INTERNAL_ERROR
              | OUTPUT_TO_THEM | DELAYED_OUTPUT_TO_THEM =>
                  StatusFailed WIRE_ONCHAIN_INTERNAL_ERROR
              end
      end
  end.

(** An output has been spent: see if it resolves something we care about. *)
Definition output_spent (outs : list tracked_output) (tx : bitcoin_tx)
    (input_num : Z) (blockheight : Z)
  : outcome (list tracked_output * list reply) :=
  inp <- at_index (input tx) (Z.to_nat input_num) ;;
  r <- output_spent_from outs tx (bitcoin_txid tx) inp ;;
  match r with
  | Some outs' => Ok (outs', [])
  | None =>
      (* Not interesting to us, so unwatch the tx and all its outputs *)
      Ok (outs, unwatch_tx tx)
  end.

Definition tx_new_depth_one (o : tracked_output) (t : sha256_double) (d : Z)
  : outcome (tracked_output * list reply) :=
  match resolved o with
  | Some r =>
      (* Is this tx resolving an output? *)
      if structeq (res_txid r) t
      then Ok (set_resolved o (Some (mk_resolution (res_txid r) d
                                                   (res_tx_type r))), [])
      else Ok (o, [])
  | None =>
      (* Otherwise, is this something we have a pending resolution for? *)
      match proposal o with
      | Some p =>
          if structeq (txid o) t && (d >=? depth_required p)
          then proposal_meets_depth o
          else Ok (o, [])
      | None => Ok (o, [])
      end
  end.

Fixpoint tx_new_depth (outs : list tracked_output) (t : sha256_double) (d : Z)
  : outcome (list tracked_output * list reply) :=
  match outs with
  | [] => Ok ([], [])
  | o :: rest =>
      '(o', w1) <- tx_new_depth_one o t d ;;
      '(rest', w2) <- tx_new_depth rest t d ;;
      Ok (o' :: rest', w1 ++ w2)
  end.

Definition handle_preimage (outs : list tracked_output) (preimage : bytes)
  : outcome (list tracked_output * list reply) :=
  StatusFailed WIRE_ONCHAIN_INTERNAL_ERROR.

(** One turn of the loop body on the message just read. *)
Definition dispatch (outs : list tracked_output) (msg : request)
  : outcome (list tracked_output * list reply) :=
  match msg with
  | onchain_depth t d => tx_new_depth outs t d
  | onchain_spent tx input_num blockheight =>
      output_spent outs tx input_num blockheight
  | onchain_known_preimage preimage => handle_preimage outs preimage
  | other_message _ => StatusFailed WIRE_ONCHAIN_BAD_COMMAND
  end.

(** How a run over a finite prefix of the parent's messages ends: the loop
    condition became false, or the process is blocked in [wire_sync_read]. *)
Inductive loop_end : Type := LoopExit | AwaitingMessage.

Record run : Type := mk_run {
  ending : loop_end;
  final_outs : list tracked_output;
  written : list reply
}.

Fixpoint wait_for_resolved (msgs : list request) (outs : list tracked_output)
    (sent : list reply) : outcome run :=
  if all_irrevocably_resolved outs then Ok (mk_run LoopExit outs sent)
  else
    match msgs with
    | [] => Ok (mk_run AwaitingMessage outs sent)
    | m :: later =>
        '(outs', w) <- dispatch outs m ;;
        wait_for_resolved later outs' (sent ++ w)
    end.

(** ** Sweeps and HTLC resolvers *)

Definition set_output0_amount (tx : bitcoin_tx) (a : Z) : outcome bitcoin_tx :=
  match output tx with
  | [] => Undefined OutOfBounds
  | o :: rest => Ok (mk_tx (lock_time tx) (input tx) (mk_output a (script o) :: rest))
  end.

Definition set_input0_witness (tx : bitcoin_tx) (w : list bytes)
  : outcome bitcoin_tx :=
  match input tx with
  | [] => Undefined OutOfBounds
  | i :: rest =>
      Ok (mk_tx (lock_time tx)
                (mk_input (in_txid i) (index i) (sequence_number i)
                          (in_amount i) (Some w) :: rest)
                (output tx))
  end.

(** The fee of [tx_to_us]: worst-case sig is 73 bytes. *)
Definition tx_to_us_fee (feerate : Z) (tx : bitcoin_tx) (wscript : bytes) : Z :=
  u64 (feerate * u64 (measure_tx_cost tx + 1 + 3 + 73 + 0
                      + Z.of_nat (length wscript))) / 1000.

(** The transaction as it stands when its cost is measured: one input, one
    P2WPKH output carrying the whole amount. *)
Definition tx_to_us_skeleton (out : tracked_output) (to_self_delay locktime : Z)
    (our_wallet_pubkey : bytes) : bitcoin_tx :=
  mk_tx locktime
        [mk_input (txid out) (outnum out) to_self_delay (Some (satoshi out)) None]
        [mk_output (satoshi out) (scriptpubkey_p2wpkh our_wallet_pubkey)].

(** This covers both the to-us output spend ([<local_delayedsig> 0]) and the
    their-commitment, our HTLC timeout case ([<remotesig> 0]). *)
Definition tx_to_us (out : tracked_output) (to_self_delay locktime : Z)
    (feerate dust_limit : Z) (wscript our_wallet_pubkey privkey pubkey : bytes)
  : bitcoin_tx :=
  let inp := mk_input (txid out) (outnum out) to_self_delay
                      (Some (satoshi out)) None in
  let tx0 := tx_to_us_skeleton out to_self_delay locktime our_wallet_pubkey in
  let fee := tx_to_us_fee feerate tx0 wscript in
  let outs :=
    (* Result is trivial?  Just eliminate output. *)
    if satoshi out <? u64 (dust_limit + fee) then []
    else [mk_output (u64 (satoshi out - fee))
                    (scriptpubkey_p2wpkh our_wallet_pubkey)] in
  let tx1 := mk_tx locktime [inp] outs in
  let sig := sign_tx_input tx1 0 wscript privkey pubkey in
  mk_tx locktime
        [mk_input (txid out) (outnum out) to_self_delay (Some (satoshi out))
                  (Some (bitcoin_witness_secret sig wscript))]
        outs.

(** Modelled from the spec: [htlc_timeout_fee] of lightningd/htlc_tx.h, which
    is not part of the sources at hand: the HTLC-timeout fee is
    [feerate_per_kw * 663 / 1000], rounding down. *)
Definition htlc_timeout_fee (feerate_per_kw : Z) : Z :=
  u64 (feerate_per_kw * 663) / 1000.

(** What the brute-force loop found: the feerate it stopped at, the fee and
    the transaction carrying that fee. *)
Record feerate_match : Type := mk_match {
  found_feerate : Z;
  found_fee : Z;
  found_tx : bitcoin_tx
}.

(** [n] turns of the loop [for (s64 i = max; i >= min; i--)], now at [i]. *)
Fixpoint find_feerate (n : nat) (i prev_fee : Z) (out : tracked_output)
    (tx : bitcoin_tx) (wscript : bytes) (remotesig : option bytes)
    (ks : keyset) : outcome (option feerate_match) :=
  match n with
  | O => Ok None
  | S n' =>
      let fee := htlc_timeout_fee i in
      if fee >? satoshi out
      then find_feerate n' (i - 1) prev_fee out tx wscript remotesig ks
      else if fee =? prev_fee
      (* Minor optimization: don't check same fee twice *)
      then find_feerate n' (i - 1) prev_fee out tx wscript remotesig ks
      else
        tx' <- set_output0_amount tx (u64 (satoshi out - fee)) ;;
        sig <- match remotesig with
               | Some s => Ok s
               | None => Undefined OutOfBounds
               end ;;
        if negb (check_tx_sig tx' 0 wscript (other_payment_key ks) sig)
        then find_feerate n' (i - 1) fee out tx' wscript remotesig ks
        else Ok (Some (mk_match i fee tx'))
  end.

(** The [wscript] argument of the C function is overwritten before it is
    read, so it is not an argument here. *)
Definition resolve_our_htlc_ourcommit (out : tracked_output)
    (htlc : htlc_stub) (to_self_delay : Z) (fr : feerate_range)
    (local_payment_privkey : bytes) (remotesig : option bytes) (ks : keyset)
  : outcome (tracked_output * feerate_range) :=
  let tx := htlc_timeout_tx (txid out) (outnum out) (u64 (satoshi out * 1000))
                            (cltv_expiry htlc) to_self_delay 0 ks in
  let wscript :=
    bitcoin_wscript_htlc_offer_ripemd160 (self_payment_key ks)
      (other_payment_key ks) (ripemd htlc) (self_revocation_key ks) in
  (* We vary feerate until signature they offered matches: we're
     more likely to be near max. *)
  r <- find_feerate (Z.to_nat (max fr - min fr + 1)) (max fr) UINT64_MAX
                    out tx wscript remotesig ks ;;
  match r with
  | Some m =>
      (* OK, we found correct fee!  Narrow range for next time. *)
      fr' <- narrow_feerate_range fr (found_fee m) 663 ;;
      sig <- match remotesig with
             | Some s => Ok s
             | None => Undefined OutOfBounds
             end ;;
      let localsig := sign_tx_input (found_tx m) 0 wscript
                                    local_payment_privkey
                                    (self_payment_key ks) in
      tx' <- set_input0_witness (found_tx m)
               (bitcoin_htlc_offer_spend_timeout localsig sig wscript) ;;
      Ok (propose_resolution_at_block out (Some tx') (cltv_expiry htlc)
                                      OUR_HTLC_TIMEOUT_TO_US, fr')
  | None => StatusFailed WIRE_ONCHAIN_INTERNAL_ERROR
  end.

Definition resolve_our_htlc_theircommit (out : tracked_output)
    (wscript : bytes) (htlc : htlc_stub)
    (our_wallet_pubkey local_payment_privkey : bytes) (ks : keyset)
    (feerate_per_kw local_dust_limit_satoshi : Z) : tracked_output :=
  let tx := tx_to_us out 0 (cltv_expiry htlc) feerate_per_kw
                     local_dust_limit_satoshi wscript our_wallet_pubkey
                     local_payment_privkey (other_payment_key ks) in
  propose_resolution_at_block out (Some tx) (cltv_expiry htlc)
                              OUR_HTLC_TIMEOUT_TO_US.

(** If we hit timeout depth, resolve by ignoring. *)
Definition resolve_their_htlc (out : tracked_output) (htlc : htlc_stub)
  : tracked_output :=
  propose_resolution_at_block out None (cltv_expiry htlc)
                              THEIR_HTLC_TIMEOUT_TO_THEM.

(** ** Matching commitment outputs *)

Fixpoint derive_htlc_scripts (htlcs : list htlc_stub) (s : side) (ks : keyset)
  : outcome (list (option bytes)) :=
  match htlcs with
  | [] => Ok []
  | h :: rest =>
      w <- (if side_eqb (owner h) s
            then Ok (htlc_offered_wscript (ripemd h) ks)
            else
              match blocks_to_abs_locktime (cltv_expiry h) with
              | None => StatusFailed WIRE_ONCHAIN_INTERNAL_ERROR
              | Some ltime => Ok (htlc_received_wscript (ripemd h) ltime ks)
              end) ;;
      ws <- derive_htlc_scripts rest s ks ;;
      Ok (Some w :: ws)
  end.

(** The loop of [match_htlc_output] from slot [i] on. *)
Fixpoint match_htlc_from (target : bytes) (htlc_scripts : list (option bytes))
    (i : nat) : option nat :=
  match htlc_scripts with
  | [] => None
  | None :: rest => match_htlc_from target rest (S i)
  | Some w :: rest =>
      if memeq (skipn 2 target) (sha256 w) then Some i
      else match_htlc_from target rest (S i)
  end.

(** [None] stands for the result -1. *)
Definition match_htlc_output (o : bitcoin_tx_output)
    (htlc_scripts : list (option bytes)) : option nat :=
  (* Must be a p2wsh output *)
  if negb (is_p2wsh (script o)) then None
  else match_htlc_from (script o) htlc_scripts 0.

(** [a[j] = NULL]. *)
Fixpoint nullify {A : Type} (l : list (option A)) (j : nat) : list (option A) :=
  match l, j with
  | [], _ => []
  | _ :: rest, O => None :: rest
  | x :: rest, S j' => x :: nullify rest j'
  end.

(** The variables the output loop of a unilateral handler carries. *)
Record matching : Type := mk_matching {
  outs : list tracked_output;
  script_local : option bytes;
  script_remote : option bytes;
  htlc_scripts : list (option bytes);
  htlc_sigs : list bytes;
  range : feerate_range
}.

Definition matches (slot : option bytes) (s : bytes) : bool :=
  match slot with
  | Some m => scripteq s m
  | None => false
  end.

Definition set_state (s : peer_state) : list reply := [onchain_init_reply s].

(** ** The mutual-close handler *)

(** The store a handler has built when it enters the loop. *)
Definition mutual_close_tracks (txid_ : sha256_double)
    (outs0 : list tracked_output) : outcome (list tracked_output) :=
  match outs0 with
  | [] => Undefined OutOfBounds
  | funding :: rest => Ok (resolved_by_other funding txid_ MUTUAL_CLOSE :: rest)
  end.

Definition handle_mutual_close (msgs : list request) (tx : bitcoin_tx)
    (txid_ : sha256_double) (outs0 : list tracked_output) : outcome run :=
  let sent := set_state ONCHAIND_MUTUAL in
  outs1 <- mutual_close_tracks txid_ outs0 ;;
  wait_for_resolved msgs outs1 sent.

(** ** The handler of our own commitment transaction *)

Section OurUnilateral.

Variables (tx_height : Z) (txid_ : sha256_double).
Variables (our_wallet_pubkey : bytes) (to_self_delay : Z).
Variables (feerate_per_kw local_dust_limit_satoshi : Z).
Variable htlcs : list htlc_stub.
Variables (ks : keyset) (local_wscript : bytes).
Variables (local_delayedprivkey local_payment_privkey : bytes).

(** The body of the output loop at output [i]. *)
Definition our_unilateral_output (m : matching) (i : nat)
    (o : bitcoin_tx_output) : outcome matching :=
  if matches (script_local m) (script o) then
    (* 1. A's main output: A node SHOULD spend this output to a
       convenient address. *)
    let out := new_tracked_output txid_ tx_height OUR_UNILATERAL
                 (u32 (Z.of_nat i)) (amount o) DELAYED_OUTPUT_TO_US in
    let to_us := tx_to_us out to_self_delay 0 feerate_per_kw
                   local_dust_limit_satoshi local_wscript our_wallet_pubkey
                   local_delayedprivkey (self_delayed_payment_key ks) in
    let out := propose_resolution out (Some to_us) to_self_delay
                 OUR_UNILATERAL_TO_US_RETURN_TO_WALLET in
    Ok (mk_matching (outs m ++ [out]) None (script_remote m)
          (htlc_scripts m) (htlc_sigs m) (range m))
  else if matches (script_remote m) (script o) then
    (* 2. B's main output: No action required. *)
    let out := new_tracked_output txid_ tx_height OUR_UNILATERAL
                 (u32 (Z.of_nat i)) (amount o) OUTPUT_TO_THEM in
    Ok (mk_matching (outs m ++ [ignore_output out]) (script_local m) None
          (htlc_scripts m) (htlc_sigs m) (range m))
  else
    match match_htlc_output o (htlc_scripts m) with
    | None => StatusFailed WIRE_ONCHAIN_INTERNAL_ERROR
    | Some j =>
        h <- at_index htlcs j ;;
        match owner h with
        | LOCAL =>
            (* 3. A's offered HTLCs *)
            let out := new_tracked_output txid_ tx_height OUR_UNILATERAL
                         (u32 (Z.of_nat i)) (amount o) OUR_HTLC in
            '(out', fr') <-
              resolve_our_htlc_ourcommit out h to_self_delay (range m)
                local_payment_privkey (hd_error (htlc_sigs m)) ks ;;
            (* Each of these consumes one HTLC signature *)
            Ok (mk_matching (outs m ++ [out']) (script_local m)
                  (script_remote m) (nullify (htlc_scripts m) j)
                  (tl (htlc_sigs m)) fr')
        | REMOTE =>
            (* 4. B's offered HTLCs *)
            let out := new_tracked_output txid_ tx_height OUR_UNILATERAL
                         (u32 (Z.of_nat i)) (amount o) THEIR_HTLC in
            Ok (mk_matching (outs m ++ [resolve_their_htlc out h])
                  (script_local m) (script_remote m)
                  (nullify (htlc_scripts m) j) (htlc_sigs m) (range m))
        end
    end.

Fixpoint our_unilateral_outputs (os : list bitcoin_tx_output) (i : nat)
    (m : matching) : outcome matching :=
  match os with
  | [] => Ok m
  | o :: rest =>
      m' <- our_unilateral_output m i o ;;
      our_unilateral_outputs rest (S i) m'
  end.

End OurUnilateral.

Definition our_unilateral_tracks (tx : bitcoin_tx)
    (tx_height : Z) (txid_ : sha256_double) (sec : secrets)
    (shaseed : bytes)
    (remote_revocation_basepoint remote_payment_basepoint : bytes)
    (local_payment_basepoint local_delayed_payment_basepoint : bytes)
    (our_wallet_pubkey : bytes) (to_self_delay commit_num : Z)
    (feerate_per_kw local_dust_limit_satoshi : Z) (htlcs : list htlc_stub)
    (sigs : list bytes) (outs0 : list tracked_output)
  : outcome (list tracked_output) :=
  match outs0 with
  | [] => Undefined OutOfBounds
  | funding :: rest =>
      let fr := init_feerate_range (satoshi funding) tx in
      let outs1 := resolved_by_other funding txid_ OUR_UNILATERAL :: rest in
      (* Figure out what delayed to-us output looks like *)
      local_per_commitment_point <- crypto (per_commit_point shaseed commit_num) ;;
      ks <- crypto (derive_keyset local_per_commitment_point
                      local_payment_basepoint remote_payment_basepoint
                      local_delayed_payment_basepoint
                      remote_revocation_basepoint) ;;
      local_delayedprivkey <-
        crypto (derive_simple_privkey (delayed_payment_basepoint_secret sec)
                  local_delayed_payment_basepoint local_per_commitment_point) ;;
      local_payment_privkey <-
        crypto (derive_simple_privkey (payment_basepoint_secret sec)
                  local_payment_basepoint local_per_commitment_point) ;;
      let local_wscript := to_self_wscript to_self_delay ks in
      (* Figure out what to-us output looks like. *)
      let sl := scriptpubkey_p2wsh local_wscript in
      (* Figure out what direct to-them output looks like. *)
      let sr := scriptpubkey_p2wpkh (other_payment_key ks) in
      (* Calculate all the HTLC scripts so we can match them *)
      hs <- derive_htlc_scripts htlcs LOCAL ks ;;
      m <- our_unilateral_outputs tx_height txid_ our_wallet_pubkey
             to_self_delay feerate_per_kw local_dust_limit_satoshi htlcs ks
             local_wscript local_delayedprivkey local_payment_privkey
             (output tx) 0
             (mk_matching outs1 (Some sl) (Some sr) hs sigs fr) ;;
      Ok (outs m)
  end.

Definition handle_our_unilateral (msgs : list request) (tx : bitcoin_tx)
    (tx_height : Z) (txid_ : sha256_double) (sec : secrets)
    (shaseed : bytes)
    (remote_revocation_basepoint remote_payment_basepoint : bytes)
    (local_payment_basepoint local_delayed_payment_basepoint : bytes)
    (our_wallet_pubkey : bytes) (to_self_delay commit_num : Z)
    (feerate_per_kw local_dust_limit_satoshi : Z) (htlcs : list htlc_stub)
    (sigs : list bytes) (outs0 : list tracked_output) : outcome run :=
  let sent := set_state ONCHAIND_OUR_UNILATERAL in
  outs1 <- our_unilateral_tracks tx tx_height txid_ sec shaseed
             remote_revocation_basepoint remote_payment_basepoint
             local_payment_basepoint local_delayed_payment_basepoint
             our_wallet_pubkey to_self_delay commit_num feerate_per_kw
             local_dust_limit_satoshi htlcs sigs outs0 ;;
  wait_for_resolved msgs outs1 sent.

Definition handle_their_cheat (tx : bitcoin_tx) (commit_index : Z)
    (revocation_preimage : bytes) (htlcs : list htlc_stub)
    (outs0 : list tracked_output) : outcome run :=
  StatusFailed WIRE_ONCHAIN_INTERNAL_ERROR.

(** ** The handler of the counterparty's commitment transaction *)

Section TheirUnilateral.

Variables (tx_height : Z) (txid_ : sha256_double).
Variables (our_wallet_pubkey : bytes).
Variables (feerate_per_kw local_dust_limit_satoshi : Z).
Variable htlcs : list htlc_stub.
Variables (ks : keyset) (local_payment_privkey : bytes).

(** The body of the output loop at output [i]. *)
Definition their_unilateral_output (m : matching) (i : nat)
    (o : bitcoin_tx_output) : outcome matching :=
  if matches (script_local m) (script o) then
    (* 1. A's main output: No action is required; this is a simple
       P2WPKH output. *)
    let out := new_tracked_output txid_ tx_height THEIR_UNILATERAL
                 (u32 (Z.of_nat i)) (amount o) OUTPUT_TO_US in
    Ok (mk_matching (outs m ++ [ignore_output out]) None (script_remote m)
          (htlc_scripts m) (htlc_sigs m) (range m))
  else if matches (script_remote m) (script o) then
    (* 2. B's main output: No action required. *)
    let out := new_tracked_output txid_ tx_height THEIR_UNILATERAL
                 (u32 (Z.of_nat i)) (amount o) DELAYED_OUTPUT_TO_THEM in
    Ok (mk_matching (outs m ++ [ignore_output out]) (script_local m)
          (script_remote m) (htlc_scripts m) (htlc_sigs m) (range m))
  else
    match match_htlc_output o (htlc_scripts m) with
    | None => StatusFailed WIRE_ONCHAIN_INTERNAL_ERROR
    | Some j =>
        h <- at_index htlcs j ;;
        match owner h with
        | LOCAL =>
            (* 3. A's offered HTLCs *)
            let out := new_tracked_output txid_ tx_height THEIR_UNILATERAL
                         (u32 (Z.of_nat i)) (amount o) OUR_HTLC in
            wscript <- match nth_error (htlc_scripts m) j with
                       | Some (Some w) => Ok w
                       | Some None => Undefined NullDeref
                       | None => Undefined OutOfBounds
                       end ;;
            (* the stub handed over is [&htlcs[i]] *)
            hi <- at_index htlcs i ;;
            Ok (mk_matching
                  (outs m ++ [resolve_our_htlc_theircommit out wscript hi
                                our_wallet_pubkey local_payment_privkey ks
                                feerate_per_kw local_dust_limit_satoshi])
                  (script_local m) (script_remote m)
                  (nullify (htlc_scripts m) j) (htlc_sigs m) (range m))
        | REMOTE =>
            (* 4. B's offered HTLCs *)
            let out := new_tracked_output txid_ tx_height THEIR_UNILATERAL
                         (u32 (Z.of_nat i)) (amount o) THEIR_HTLC in
            Ok (mk_matching (outs m ++ [resolve_their_htlc out h])
                  (script_local m) (script_remote m)
                  (nullify (htlc_scripts m) j) (htlc_sigs m) (range m))
        end
    end.

Fixpoint their_unilateral_outputs (os : list bitcoin_tx_output) (i : nat)
    (m : matching) : outcome matching :=
  match os with
  | [] => Ok m
  | o :: rest =>
      m' <- their_unilateral_output m i o ;;
      their_unilateral_outputs rest (S i) m'
  end.

End TheirUnilateral.

Definition their_unilateral_tracks (tx : bitcoin_tx)
    (tx_height : Z) (txid_ : sha256_double) (sec : secrets)
    (shaseed : bytes) (remote_per_commitment_point : bytes)
    (local_revocation_basepoint local_payment_basepoint : bytes)
    (remote_payment_basepoint remote_delayed_payment_basepoint : bytes)
    (our_wallet_pubkey : bytes) (to_self_delay commit_num : Z)
    (feerate_per_kw local_dust_limit_satoshi : Z) (htlcs : list htlc_stub)
    (outs0 : list tracked_output) : outcome (list tracked_output) :=
  match outs0 with
  | [] => Undefined OutOfBounds
  | funding :: rest =>
      let fr := init_feerate_range (satoshi funding) tx in
      let outs1 := resolved_by_other funding txid_ THEIR_UNILATERAL :: rest in
      ks <- crypto (derive_keyset remote_per_commitment_point
                      remote_payment_basepoint local_payment_basepoint
                      remote_delayed_payment_basepoint
                      local_revocation_basepoint) ;;
      local_payment_privkey <-
        crypto (derive_simple_privkey (payment_basepoint_secret sec)
                  local_payment_basepoint remote_per_commitment_point) ;;
      let remote_wscript := to_self_wscript to_self_delay ks in
      (* Figure out what to-them output looks like. *)
      let sr := scriptpubkey_p2wsh remote_wscript in
      (* Figure out what direct to-us output looks like. *)
      let sl := scriptpubkey_p2wpkh (other_payment_key ks) in
      (* Calculate all the HTLC scripts so we can match them *)
      hs <- derive_htlc_scripts htlcs REMOTE ks ;;
      m <- their_unilateral_outputs tx_height txid_ our_wallet_pubkey
             feerate_per_kw local_dust_limit_satoshi htlcs ks
             local_payment_privkey (output tx) 0
             (mk_matching outs1 (Some sl) (Some sr) hs [] fr) ;;
      Ok (outs m)
  end.

Definition handle_their_unilateral (msgs : list request) (tx : bitcoin_tx)
    (tx_height : Z) (txid_ : sha256_double) (sec : secrets)
    (shaseed : bytes) (remote_per_commitment_point : bytes)
    (local_revocation_basepoint local_payment_basepoint : bytes)
    (remote_payment_basepoint remote_delayed_payment_basepoint : bytes)
    (our_wallet_pubkey : bytes) (to_self_delay commit_num : Z)
    (feerate_per_kw local_dust_limit_satoshi : Z) (htlcs : list htlc_stub)
    (outs0 : list tracked_output) : outcome run :=
  let sent := set_state ONCHAIND_THEIR_UNILATERAL in
  outs1 <- their_unilateral_tracks tx tx_height txid_ sec shaseed
             remote_per_commitment_point local_revocation_basepoint
             local_payment_basepoint remote_payment_basepoint
             remote_delayed_payment_basepoint our_wallet_pubkey to_self_delay
             commit_num feerate_per_kw local_dust_limit_satoshi htlcs outs0 ;;
  wait_for_resolved msgs outs1 sent.

(** ** The driver *)

Record onchain_init : Type := mk_init {
  init_seed : bytes;
  init_shachain : bytes;
  init_funding_amount_satoshi : Z;
  init_old_remote_per_commit_point : bytes;
  init_remote_per_commit_point : bytes;
  init_to_self_delay : side -> Z;
  init_feerate_per_kw : Z;
  init_local_dust_limit_satoshi : Z;
  init_remote_revocation_basepoint : bytes;
  init_our_broadcast_txid : sha256_double;
  init_scriptpubkey : side -> bytes;
  init_ourwallet_pubkey : bytes;
  init_funder : side;
  init_remote_payment_basepoint : bytes;
  init_remote_delayed_payment_basepoint : bytes;
  init_tx : bitcoin_tx;
  init_tx_blockheight : Z;
  init_remote_htlc_sigs : list bytes
}.

(** [main] once the init message and the HTLC stubs have been read;
    [msgs] is what the parent sends afterwards. *)
Definition main (init : onchain_init) (htlcs : list htlc_stub)
    (msgs : list request) : outcome run :=
  let '(bp, sec, shaseed) := derive_basepoints (init_seed init) in
  let tx := init_tx init in
  let txid_ := bitcoin_txid tx in
  in0 <- at_index (input tx) 0 ;;
  let outs0 :=
    [new_tracked_output (in_txid in0)
       0 (* We don't care about funding blockheight *)
       FUNDING_TRANSACTION (index in0) (init_funding_amount_satoshi init)
       FUNDING_OUTPUT] in
  if is_mutual_close tx (init_scriptpubkey init LOCAL)
                     (init_scriptpubkey init REMOTE)
  then handle_mutual_close msgs tx txid_ outs0
  else
    commit_num <- unmask_commit_number tx (init_funder init) (payment bp)
                    (init_remote_payment_basepoint init) ;;
    if is_local_commitment txid_ (init_our_broadcast_txid init)
    then handle_our_unilateral msgs tx (init_tx_blockheight init) txid_ sec
           shaseed (init_remote_revocation_basepoint init)
           (init_remote_payment_basepoint init) (payment bp)
           (delayed_payment bp) (init_ourwallet_pubkey init)
           (init_to_self_delay init LOCAL) commit_num
           (init_feerate_per_kw init) (init_local_dust_limit_satoshi init)
           htlcs (init_remote_htlc_sigs init) outs0
    else
      match shachain_get_hash (init_shachain init) (shachain_index commit_num) with
      | Some revocation_preimage =>
          handle_their_cheat tx commit_num revocation_preimage htlcs outs0
      | None =>
          if commit_num =? revocations_received (init_shachain init)
          then handle_their_unilateral msgs tx (init_tx_blockheight init)
                 txid_ sec shaseed (init_old_remote_per_commit_point init)
                 (revocation bp) (payment bp)
                 (init_remote_payment_basepoint init)
                 (init_remote_delayed_payment_basepoint init)
                 (init_ourwallet_pubkey init) (init_to_self_delay init REMOTE)
                 commit_num (init_feerate_per_kw init)
                 (init_local_dust_limit_satoshi init) htlcs outs0
          else if commit_num =? u64 (revocations_received (init_shachain init) + 1)
          then handle_their_unilateral msgs tx (init_tx_blockheight init)
                 txid_ sec shaseed (init_remote_per_commit_point init)
                 (revocation bp) (payment bp)
                 (init_remote_payment_basepoint init)
                 (init_remote_delayed_payment_basepoint init)
                 (init_ourwallet_pubkey init) (init_to_self_delay init REMOTE)
                 commit_num (init_feerate_per_kw init)
                 (init_local_dust_limit_satoshi init) htlcs outs0
          else StatusFailed WIRE_ONCHAIN_INTERNAL_ERROR
      end.

End Engine.

(** * Notions used by the properties *)

(** The closing scriptpubkey of a side. *)
Definition closing_script (local_scriptpubkey remote_scriptpubkey : bytes)
    (s : side) : bytes :=
  match s with
  | LOCAL => local_scriptpubkey
  | REMOTE => remote_scriptpubkey
  end.

(** The specification's words: every output pays the local or the remote
    closing scriptpubkey, and each of the two is matched by at most one
    output.  [sides] says which scriptpubkey each output is matched with. *)
Definition mutual_close_spec (tx : bitcoin_tx)
    (local_scriptpubkey remote_scriptpubkey : bytes) : Prop :=
  exists sides : list side,
    NoDup sides
    /\ Forall2 (fun o s =>
                  script o
                  = closing_script local_scriptpubkey remote_scriptpubkey s)
               (output tx) sides.

(** The number of outputs that pay script [s]. *)
Definition paying (s : bytes) (os : list bitcoin_tx_output) : nat :=
  length (filter (fun o => scripteq (script o) s) os).

(** The transaction with the amount of its first output replaced. *)
Definition with_amount (tx : bitcoin_tx) (a : Z) : bitcoin_tx :=
  mk_tx (lock_time tx) (input tx)
        match output tx with
        | [] => []
        | o :: rest => mk_output a (script o) :: rest
        end.

(** The recorded depth of each output, where it is resolved. *)
Definition depths (outs : list tracked_output) : list (option Z) :=
  map (fun o => option_map depth (resolved o)) outs.

(** An output that is not resolved has a proposal. *)
Definition has_plan (o : tracked_output) : Prop :=
  resolved o = None -> proposal o <> None.

(** A store all of whose unresolved outputs have a proposal. *)
Definition planned (outs : list tracked_output) : Prop := Forall has_plan outs.

(** [wait_dispatches msgs outs store m]: the loop of [wait_for_resolved],
    entered with [outs] and reading [msgs], dispatches message [m] when
    the store is [store]. *)
Inductive wait_dispatches {prim : Primitives}
  : list request -> list tracked_output -> list tracked_output -> request
    -> Prop :=
| dispatches_now (m : request) (later : list request)
    (outs : list tracked_output) :
    all_irrevocably_resolved outs = false ->
    wait_dispatches (m :: later) outs outs m
| dispatches_later (m : request) (later : list request)
    (outs outs' store : list tracked_output) (w : list reply) (m' : request) :
    all_irrevocably_resolved outs = false ->
    dispatch outs m = Ok (outs', w) ->
    wait_dispatches later outs' store m' ->
    wait_dispatches (m :: later) outs store m'.

(** The store and the replies with which [main] enters the loop, through
    whichever handler the close is given to. *)
Definition main_tracks {prim : Primitives} (init : onchain_init)
    (htlcs : list htlc_stub) : outcome (list tracked_output * list reply) :=
  let '(bp, sec, shaseed) := derive_basepoints (init_seed init) in
  let tx := init_tx init in
  let txid_ := bitcoin_txid tx in
  in0 <- at_index (input tx) 0 ;;
  let outs0 :=
    [new_tracked_output (in_txid in0) 0 FUNDING_TRANSACTION (index in0)
       (init_funding_amount_satoshi init) FUNDING_OUTPUT] in
  if is_mutual_close tx (init_scriptpubkey init LOCAL)
                     (init_scriptpubkey init REMOTE)
  then
    outs1 <- mutual_close_tracks txid_ outs0 ;;
    Ok (outs1, set_state ONCHAIND_MUTUAL)
  else
    commit_num <- unmask_commit_number tx (init_funder init) (payment bp)
                    (init_remote_payment_basepoint init) ;;
    let theirs := fun point =>
      outs1 <- their_unilateral_tracks tx (init_tx_blockheight init) txid_
                 sec shaseed point (revocation bp) (payment bp)
                 (init_remote_payment_basepoint init)
                 (init_remote_delayed_payment_basepoint init)
                 (init_ourwallet_pubkey init) (init_to_self_delay init REMOTE)
                 commit_num (init_feerate_per_kw init)
                 (init_local_dust_limit_satoshi init) htlcs outs0 ;;
      Ok (outs1, set_state ONCHAIND_THEIR_UNILATERAL) in
    if is_local_commitment txid_ (init_our_broadcast_txid init)
    then
      outs1 <- our_unilateral_tracks tx (init_tx_blockheight init) txid_ sec
                 shaseed (init_remote_revocation_basepoint init)
                 (init_remote_payment_basepoint init) (payment bp)
                 (delayed_payment bp) (init_ourwallet_pubkey init)
                 (init_to_self_delay init LOCAL) commit_num
                 (init_feerate_per_kw init)
                 (init_local_dust_limit_satoshi init) htlcs
                 (init_remote_htlc_sigs init) outs0 ;;
      Ok (outs1, set_state ONCHAIND_OUR_UNILATERAL)
    else
      match shachain_get_hash (init_shachain init) (shachain_index commit_num) with
      | Some _ => StatusFailed WIRE_ONCHAIN_INTERNAL_ERROR
      | None =>
          if commit_num =? revocations_received (init_shachain init)
          then theirs (init_old_remote_per_commit_point init)
          else if commit_num =? u64 (revocations_received (init_shachain init) + 1)
          then theirs (init_remote_per_commit_point init)
          else StatusFailed WIRE_ONCHAIN_INTERNAL_ERROR
      end.

(** An outcome other than a read through a null pointer. *)
Definition no_null {A : Type} (r : outcome A) : Prop := r <> Undefined NullDeref.

(** Tracked output [t] records output [i] of the transaction [t_] of type
    [ty] seen at [height]. *)
Definition tracks_output (ty : tx_type) (t_ : sha256_double) (height : Z)
    (io : nat * bitcoin_tx_output) (t : tracked_output) : Prop :=
  out_tx_type t = ty
  /\ txid t = t_
  /\ tx_blockheight t = height
  /\ outnum t = u32 (Z.of_nat (fst io))
  /\ satoshi t = amount (snd io).

Definition is_our_htlc (t : tracked_output) : bool :=
  match out_output_type t with
  | OUR_HTLC => true
  | _ => false
  end.

(** The number of outputs tracked as OUR_HTLC. *)
Definition our_htlcs (outs : list tracked_output) : nat :=
  length (filter is_our_htlc outs).

(** The loop of [output_spent] passes over an output that is resolved or
    is not the one the input spends. *)
Definition passed_over (inp : bitcoin_tx_input) (o : tracked_output) : Prop :=
  resolved o <> None \/ index inp <> outnum o \/ in_txid inp <> txid o.

(** Output [o'] is output [o] with, at most, another resolution. *)
Definition only_resolution_differs (o o' : tracked_output) : Prop :=
  exists r, o' = set_resolved o r.

(** If [o] is resolved then [o'] is resolved by the same transaction and
    with the same type. *)
Definition keeps_resolution (o o' : tracked_output) : Prop :=
  forall r, resolved o = Some r ->
    exists r', resolved o' = Some r'
               /\ res_txid r' = res_txid r /\ res_tx_type r' = res_tx_type r.

(** A reply the loop writes: a broadcast request or an unwatch. *)
Definition is_loop_reply (r : reply) : Prop :=
  match r with
  | onchain_init_reply _ => False
  | onchain_broadcast_tx _ => True
  | onchain_unwatch_tx _ _ => True
  end.

(** What one message may change: resolutions only, and never the
    transaction or the type of a resolution that is there. *)
Definition evolves (o o' : tracked_output) : Prop :=
  only_resolution_differs o o' /\ keeps_resolution o o'.

(** * Test vectors *)

(** ** A small instance of the library

    Digests are fixed-width prefixes and a signature is the signer's public
    key followed by the fields of the transaction it commits to, so that
    the engine can be run on concrete transactions. *)

Module Sample.

Definition pad (n : nat) (b : bytes) : bytes := firstn n (b ++ repeat 0 n).

Definition digest (tx : bitcoin_tx) : bytes :=
  lock_time tx :: map amount (output tx).

Definition prim : Primitives := {|
  bitcoin_txid := fun tx => fold_left (fun h x => h * 31 + x) (digest tx) 7;
  measure_tx_cost := fun tx =>
    4 * (10 + 41 * Z.of_nat (length (input tx))
            + 31 * Z.of_nat (length (output tx)));
  sha256 := pad 32;
  is_p2wsh := fun s =>
    match s with
    | 0 :: 32 :: rest => (length rest =? 32)%nat
    | _ => false
    end;
  scriptpubkey_p2wsh := fun w => 0 :: 32 :: pad 32 w;
  scriptpubkey_p2wpkh := fun k => 0 :: 20 :: pad 20 k;
  to_self_wscript := fun d ks =>
    99 :: d :: self_revocation_key ks ++ self_delayed_payment_key ks;
  htlc_offered_wscript := fun r ks => 1 :: r;
  htlc_received_wscript := fun r ltime ks => 2 :: ltime :: r;
  blocks_to_abs_locktime := fun b => if b <? 500000000 then Some b else None;
  bitcoin_wscript_htlc_offer_ripemd160 := fun a b r c => 1 :: r;
  htlc_timeout_tx := fun t n msat cltv delay fee ks =>
    mk_tx cltv [mk_input t n 0 (Some msat) None]
          [mk_output (msat / 1000 - fee)
                     (0 :: 32 :: pad 32 (99 :: delay :: self_revocation_key ks
                                            ++ self_delayed_payment_key ks))];
  check_tx_sig := fun tx i w key sig => bytes_eqb sig (key ++ digest tx);
  sign_tx_input := fun tx i w priv pub => pub ++ digest tx;
  bitcoin_witness_secret := fun sig w => [sig; []; w];
  bitcoin_htlc_offer_spend_timeout := fun localsig remotesig w =>
    [[]; remotesig; localsig; []; w];
  per_commit_point := fun shaseed n => Some (n :: shaseed);
  derive_keyset := fun pcp self_pay other_pay self_delayed other_revocation =>
    Some (mk_keyset (3 :: other_revocation) (4 :: self_delayed)
                    (5 :: self_pay) (6 :: other_pay));
  derive_simple_privkey := fun secret basepoint pcp => Some (7 :: secret);
  derive_basepoints := fun seed =>
    (mk_basepoints (10 :: seed) (11 :: seed) (12 :: seed),
     mk_secrets (13 :: seed) (14 :: seed), 15 :: seed);
  commit_number_obscurer := fun a b => 0;
  shachain_index := fun n => 281474976710655 - n;
  shachain_get_hash := fun chain i => None;
  revocations_received := fun chain => Z.of_nat (length chain)
|}.

End Sample.

(** The store after our own commitment (txid 7, seen at height 500) spent
    the funding output: the funding output is resolved by it and the
    delayed to-us output waits 144 blocks for its sweep. *)
Definition pending_sweep_store : list tracked_output :=
  let funding :=
    new_tracked_output 1 0 FUNDING_TRANSACTION 0 100000 FUNDING_OUTPUT in
  let delayed :=
    new_tracked_output 7 500 OUR_UNILATERAL 0 90000 DELAYED_OUTPUT_TO_US in
  [ resolved_by_other funding 7 OUR_UNILATERAL;
    propose_resolution delayed
      (Some (tx_to_us (prim := Sample.prim) delayed 144 0 1000 546
                      [99; 144] [8] [9] [4]))
      144 OUR_UNILATERAL_TO_US_RETURN_TO_WALLET ].

(** An HTLC output of 954 satoshi on their commitment, swept at feerate
    1000 with a three-byte witness script: the fee is 408 and the dust
    limit 546. *)
Definition sweep_at_threshold : bitcoin_tx :=
  tx_to_us (prim := Sample.prim)
    (new_tracked_output 7 500 THEIR_UNILATERAL 0 954 OUR_HTLC)
    0 600 1000 546 [1; 2; 3] [8] [9] [6].

(** An offered HTLC of 100000 satoshi on our commitment, expiring at block
    600; the counterparty signed the HTLC-timeout transaction at feerate
    1004, whose fee is 665, and the current range is 0 to 5000. *)
Module OfferedHtlc.

Definition out : tracked_output :=
  new_tracked_output 7 500 OUR_UNILATERAL 2 100000 OUR_HTLC.
Definition htlc : htlc_stub := mk_htlc LOCAL 600 [1; 2].
Definition ks : keyset := mk_keyset [3] [4] [5] [6].
Definition fr : feerate_range := mk_range 0 5000.
Definition remotesig : bytes := [6; 600; 99335].

Definition resolved : outcome (tracked_output * feerate_range) :=
  resolve_our_htlc_ourcommit (prim := Sample.prim) out htlc 144 fr [9]
                             (Some remotesig) ks.

End OfferedHtlc.

(** The counterparty's commitment (txid 7, seen at height 500) of a channel
    with two HTLCs: one they offered, expiring at 700, and one we offered,
    expiring at 600. *)
Module TheirCommitment.

Definition htlcs : list htlc_stub :=
  [mk_htlc REMOTE 700 [21]; mk_htlc LOCAL 600 [22]].

Definition funding : tracked_output :=
  new_tracked_output 1 0 FUNDING_TRANSACTION 0 100000 FUNDING_OUTPUT.

Definition ks : keyset := mk_keyset [3; 10] [4; 32] [5; 31] [6; 11].

(** The scripts the handler derives. *)
Definition to_them : bytes :=
  scriptpubkey_p2wsh (Primitives := Sample.prim)
    (to_self_wscript (Primitives := Sample.prim) 144 ks).
Definition their_htlc : bytes :=
  scriptpubkey_p2wsh (Primitives := Sample.prim)
    (htlc_offered_wscript (Primitives := Sample.prim) [21] ks).
Definition our_htlc : bytes :=
  scriptpubkey_p2wsh (Primitives := Sample.prim)
    (htlc_received_wscript (Primitives := Sample.prim) [22] 600 ks).

Definition tracks (tx : bitcoin_tx) : outcome (list tracked_output) :=
  their_unilateral_tracks (prim := Sample.prim) tx 500 7
    (mk_secrets [13] [14]) [15] [30] [10] [11] [31] [32] [8] 144 42 1000 546
    htlcs [funding].

(** Our HTLC is output 0, theirs output 1. *)
Definition htlc_outputs : bitcoin_tx :=
  mk_tx 0 [mk_input 1 0 0 None None]
        [mk_output 20000 our_htlc; mk_output 30000 their_htlc].

(** Two outputs pay the to-them delayed script. *)
Definition to_them_twice : bitcoin_tx :=
  mk_tx 0 [mk_input 1 0 0 None None]
        [mk_output 40000 to_them; mk_output 50000 to_them].

End TheirCommitment.

(** Our own commitment number 5 (seen at height 500), with the delayed
    to-us output and the direct to-them output, and a transaction that
    spends the delayed output. *)
Module OurCommitment.

Definition ks : keyset := mk_keyset [3; 40] [4; 12; 1] [5; 11; 1] [6; 41].

Definition commit_tx : bitcoin_tx :=
  mk_tx 536870917 [mk_input 1 0 2147483648 None None]
        [mk_output 60000
           (scriptpubkey_p2wsh (Primitives := Sample.prim)
              (to_self_wscript (Primitives := Sample.prim) 144 ks));
         mk_output 39000
           (scriptpubkey_p2wpkh (Primitives := Sample.prim) [6; 41])].

Definition init : onchain_init :=
  mk_init [1] [] 100000 [50] [51] (fun _ => 144) 1000 546 [40]
          (bitcoin_txid (Primitives := Sample.prim) commit_tx)
          (fun _ => [1]) [8] LOCAL [41] [42] commit_tx 500 [].

Definition entry : list tracked_output :=
  match main_tracks (prim := Sample.prim) init [] with
  | Ok (outs1, _) => outs1
  | _ => []
  end.

Definition spend : bitcoin_tx :=
  mk_tx 0
        [mk_input (bitcoin_txid (Primitives := Sample.prim) commit_tx) 0 144
                  None None]
        [mk_output 59000 [0; 20; 8]].

End OurCommitment.

(** Our own commitment (txid 7, seen at height 500) with the delayed
    to-us output and one HTLC we offered, of 20000 satoshi and expiring at
    block 600; the counterparty signed its HTLC-timeout transaction at
    feerate 1004, that is with fee 665. *)
Module OurHtlcCommitment.

Definition ks : keyset := mk_keyset [3; 40] [4; 12; 1] [5; 11; 1] [6; 41].

Definition htlcs : list htlc_stub := [mk_htlc LOCAL 600 [22]].

Definition local_wscript : bytes :=
  to_self_wscript (Primitives := Sample.prim) 144 ks.

Definition outputs : list bitcoin_tx_output :=
  [mk_output 60000 (scriptpubkey_p2wsh (Primitives := Sample.prim) local_wscript);
   mk_output 20000
     (scriptpubkey_p2wsh (Primitives := Sample.prim)
        (htlc_offered_wscript (Primitives := Sample.prim) [22] ks))].

Definition funding : tracked_output :=
  new_tracked_output 1 0 FUNDING_TRANSACTION 0 100000 FUNDING_OUTPUT.

(** The variables of the output loop when it starts. *)
Definition start : matching :=
  mk_matching [resolved_by_other funding 7 OUR_UNILATERAL]
    (Some (scriptpubkey_p2wsh (Primitives := Sample.prim) local_wscript))
    (Some (scriptpubkey_p2wpkh (Primitives := Sample.prim) [6; 41]))
    [Some (htlc_offered_wscript (Primitives := Sample.prim) [22] ks)]
    [[6; 41; 600; 19335]] (mk_range 0 5000).

Definition finish : outcome matching :=
  our_unilateral_outputs (prim := Sample.prim) 500 7 [8] 144 1000 546 htlcs
    ks local_wscript [7; 14; 1] [7; 13; 1] outputs 0 start.

(** The whole handler, up to the loop, on the commitment without
    HTLCs of [OurCommitment]. *)
Definition tracks : outcome (list tracked_output) :=
  our_unilateral_tracks (prim := Sample.prim) OurCommitment.commit_tx 500 7
    (mk_secrets [13; 1] [14; 1]) [15; 1] [40] [41] [11; 1] [12; 1] [8] 144 5
    1000 546 [] [] [funding].

End OurHtlcCommitment.

(** * Properties *)

(** ** Basic facts about the embedding *)

Lemma u32_range z : 0 <= u32 z < 2 ^ 32.
Proof. unfold u32. apply Z.mod_pos_bound. lia. Qed.

Lemma u64_range z : 0 <= u64 z < 2 ^ 64.
Proof. unfold u64. apply Z.mod_pos_bound. lia. Qed.

Lemma u32_small z : 0 <= z < 2 ^ 32 -> u32 z = z.
Proof. unfold u32. intros. apply Z.mod_small. lia. Qed.

Lemma u64_small z : 0 <= z < 2 ^ 64 -> u64 z = z.
Proof. unfold u64. intros. apply Z.mod_small. lia. Qed.

Lemma bytes_eqb_eq a b : bytes_eqb a b = true <-> a = b.
Proof.
  revert b. induction a as [|x a IH]; destruct b as [|y b]; simpl;
    try (split; congruence).
  rewrite andb_true_iff, Z.eqb_eq, IH. split.
  - intros [-> ->]. reflexivity.
  - intros E. inversion E. auto.
Qed.

Lemma bytes_eqb_refl a : bytes_eqb a a = true.
Proof. apply bytes_eqb_eq. reflexivity. Qed.

(** ** Proposals made at a block height *)

(** C6: [propose_resolution_at_block] leaves a proposal whose
    [depth_required] is [max(0, block_required - tx_blockheight)]: it is 0
    when the block is below the height of the originating transaction, and
    it is never negative. *)
Theorem propose_resolution_at_block_depth
    (out : tracked_output) (tx : option bitcoin_tx) (block_required : Z)
    (ty : tx_type) :
  is_u32 block_required ->
  is_u32 (tx_blockheight out) ->
  exists p,
    proposal (propose_resolution_at_block out tx block_required ty) = Some p
    /\ prop_tx p = tx /\ prop_tx_type p = ty
    /\ depth_required p = Z.max 0 (block_required - tx_blockheight out)
    /\ (block_required < tx_blockheight out -> depth_required p = 0)
    /\ 0 <= depth_required p.
Proof.
  unfold is_u32. intros Hb Hh.
  unfold propose_resolution_at_block, propose_resolution. simpl.
  eexists. split; [reflexivity|]. simpl.
  destruct (Z.ltb_spec block_required (tx_blockheight out)).
  - repeat split; lia.
  - rewrite u32_small by lia. repeat split; lia.
Qed.

Lemma propose_resolution_at_block_depth_witness :
  exists p,
    proposal (propose_resolution_at_block
                (new_tracked_output 7 500 OUR_UNILATERAL 1 20000 THEIR_HTLC)
                None 496 THEIR_HTLC_TIMEOUT_TO_THEM) = Some p
    /\ prop_tx p = None /\ prop_tx_type p = THEIR_HTLC_TIMEOUT_TO_THEM
    /\ depth_required p = Z.max 0 (496 - 500)
    /\ (496 < 500 -> depth_required p = 0)
    /\ 0 <= depth_required p.
Proof.
  apply (propose_resolution_at_block_depth
           (new_tracked_output 7 500 OUR_UNILATERAL 1 20000 THEIR_HTLC)
           None 496 THEIR_HTLC_TIMEOUT_TO_THEM);
    unfold is_u32; simpl; lia.
Defined.

(** ** Feerate narrowing *)

(** C8: a call to [narrow_feerate_range] only shrinks the interval: the new
    min is at least the old one and the new max at most the old one.  The
    call returns for every multiplier but 0, where the division traps. *)
Theorem narrow_feerate_range_shrinks
    (fr : feerate_range) (fee multiplier : Z) :
  match narrow_feerate_range fr fee multiplier with
  | Ok fr' => min fr <= min fr' /\ max fr' <= max fr
  | StatusFailed _ => False
  | Undefined _ => multiplier = 0
  end.
Proof.
  unfold narrow_feerate_range.
  destruct (Z.eqb_spec multiplier 0) as [E|E]; [exact E|].
  simpl. split.
  - destruct (Z.gtb_spec
                (if fee <? 999 then 0
                 else u32 (u64 (u64 (fee - 999) * 1000) / multiplier))
                (min fr)); lia.
  - destruct (Z.ltb_spec (u32 (u64 (u64 (fee + 999) * 1000) / multiplier))
                         (max fr)); lia.
Qed.

(** ** The exit condition of the loop *)

(** What [all_irrevocably_resolved] computes: every output that carries a
    resolution has depth at least 100; an output without one is passed
    over. *)
Lemma all_irrevocably_resolved_iff (outs : list tracked_output) :
  all_irrevocably_resolved outs = true
  <-> Forall (fun o => forall r, resolved o = Some r -> 100 <= depth r) outs.
Proof.
  induction outs as [|o outs IH]; simpl.
  - split; auto.
  - destruct (resolved o) as [r|] eqn:E.
    + destruct (Z.ltb_spec (depth r) 100) as [L|L].
      * split; [discriminate|]. intros F. inversion F as [|? ? H _]; subst.
        specialize (H r E). lia.
      * rewrite IH. split.
        -- intros F. constructor; [|exact F]. intros r' E'.
           rewrite E in E'. inversion E'; subst. exact L.
        -- intros F. inversion F; assumption.
    + rewrite IH. split.
      * intros F. constructor; [|exact F]. intros r' E'. rewrite E in E'.
        discriminate.
      * intros F. inversion F; assumption.
Qed.

(** C1: the code at the failing input.  A store whose only output has no
    resolution passes [all_irrevocably_resolved], and once the commitment is
    100 deep [wait_for_resolved] leaves the loop although the delayed output
    is still unresolved. *)
Theorem all_irrevocably_resolved_skips_unresolved :
  all_irrevocably_resolved
    [new_tracked_output 7 500 OUR_UNILATERAL 0 90000 DELAYED_OUTPUT_TO_US]
  = true
  /\ exists r,
       wait_for_resolved (prim := Sample.prim) [onchain_depth 7 100]
                         pending_sweep_store [] = Ok r
       /\ ending r = LoopExit
       /\ map (fun o => option_map depth (resolved o)) (final_outs r)
          = [Some 100; None].
Proof.
  split; [reflexivity|].
  eexists. split; [vm_compute; reflexivity|]. split; reflexivity.
Qed.

(** ** Depth updates *)

Lemma tx_new_depth_one_resolved (o : tracked_output) (t : sha256_double)
    (d : Z) :
  exists o' w,
    tx_new_depth_one o t d = Ok (o', w)
    /\ forall r, resolved o = Some r ->
         resolved o'
         = Some (mk_resolution (res_txid r)
                   (if structeq (res_txid r) t then d else depth r)
                   (res_tx_type r)).
Proof.
  unfold tx_new_depth_one.
  destruct (resolved o) as [r|] eqn:E.
  - destruct (structeq (res_txid r) t) eqn:S.
    + do 2 eexists. split; [reflexivity|]. intros r' E'. inversion E'; subst.
      simpl. rewrite S. reflexivity.
    + do 2 eexists. split; [reflexivity|]. intros r' E'. inversion E'; subst.
      rewrite E, S. destruct r'; reflexivity.
  - destruct (proposal o) as [p|] eqn:P.
    + destruct (structeq (txid o) t && (d >=? depth_required p)).
      * unfold proposal_meets_depth. rewrite P.
        destruct (prop_tx p); do 2 eexists; (split; [reflexivity|]);
          intros r' E'; discriminate.
      * do 2 eexists. split; [reflexivity|]. intros r' E'. discriminate.
    + do 2 eexists. split; [reflexivity|]. intros r' E'. discriminate.
Qed.

(** C5, as the code has it: [tx_new_depth] always returns; an output that
    was resolved stays resolved by the same transaction, and its depth
    becomes the reported depth when that transaction is the reported one
    and is unchanged otherwise.  So the depth does not decrease as long as
    the reported depth is not below the recorded one. *)
Theorem tx_new_depth_keeps_resolved (outs : list tracked_output)
    (t : sha256_double) (d : Z) :
  exists outs' w,
    tx_new_depth outs t d = Ok (outs', w)
    /\ Forall2 (fun o o' => forall r, resolved o = Some r ->
                  resolved o'
                  = Some (mk_resolution (res_txid r)
                            (if structeq (res_txid r) t then d else depth r)
                            (res_tx_type r)))
               outs outs'
    /\ ((forall o r, In o outs -> resolved o = Some r ->
           res_txid r = t -> depth r <= d) ->
        Forall2 (fun o o' => forall r, resolved o = Some r ->
                   exists r', resolved o' = Some r' /\ depth r <= depth r')
                outs outs').
Proof.
  induction outs as [|o outs IH]; simpl.
  - do 2 eexists. split; [reflexivity|]. split; [constructor|].
    intros _. constructor.
  - destruct (tx_new_depth_one_resolved o t d) as (o' & w1 & E1 & R1).
    destruct IH as (outs' & w2 & E2 & R2 & M2).
    rewrite E1. simpl. rewrite E2. simpl.
    do 2 eexists. split; [reflexivity|]. split.
    + constructor; assumption.
    + intros Hd. constructor.
      * intros r Er. rewrite (R1 r Er). eexists. split; [reflexivity|].
        simpl. destruct (structeq (res_txid r) t) eqn:S; [|lia].
        apply (Hd o r); auto. apply Z.eqb_eq. exact S.
      * apply M2. intros o0 r0 Hin. apply Hd. right. exact Hin.
Qed.

(** C5, as stated, fails: the mutual close (txid 7) is reported 50 deep
    and then 10 deep, and the recorded depth of the funding output goes
    from 50 down to 10. *)
Lemma tx_new_depth_lowers_depth :
  let funding :=
    new_tracked_output 1 0 FUNDING_TRANSACTION 0 100000 FUNDING_OUTPUT in
  exists outs1 outs2,
    tx_new_depth [resolved_by_other funding 7 MUTUAL_CLOSE] 7 50
    = Ok (outs1, [])
    /\ tx_new_depth outs1 7 10 = Ok (outs2, [])
    /\ depths outs1 = [Some 50]
    /\ depths outs2 = [Some 10].
Proof.
  do 2 eexists. repeat split; reflexivity.
Qed.

(** ** The single-stage sweep *)

(** C7, as the code has it: with the fee
    [feerate * (cost + 1 + 3 + 73 + len(wscript)) / 1000] and no overflow
    of the 64-bit arithmetic, [tx_to_us] drops the output when the input
    amount is strictly below [dust_limit + fee], and otherwise pays the
    input amount minus the fee; at equality the output is kept. *)
Theorem tx_to_us_output {prim : Primitives} (out : tracked_output)
    (to_self_delay locktime feerate dust_limit : Z)
    (wscript our_wallet_pubkey privkey pubkey : bytes) :
  let cost :=
    measure_tx_cost
      (tx_to_us_skeleton out to_self_delay locktime our_wallet_pubkey)
    + 1 + 3 + 73 + Z.of_nat (length wscript) in
  let fee := feerate * cost / 1000 in
  let tx := tx_to_us out to_self_delay locktime feerate dust_limit wscript
                     our_wallet_pubkey privkey pubkey in
  is_u64 (satoshi out) ->
  0 <= cost < 2 ^ 64 ->
  0 <= feerate ->
  feerate * cost < 2 ^ 64 ->
  0 <= dust_limit ->
  dust_limit + fee < 2 ^ 64 ->
  (satoshi out < dust_limit + fee -> output tx = [])
  /\ (dust_limit + fee <= satoshi out ->
      output tx = [mk_output (satoshi out - fee)
                             (scriptpubkey_p2wpkh our_wallet_pubkey)]).
Proof.
  intros cost fee tx Hs Hc Hf Hfc Hd Hdf.
  assert (Hfee : tx_to_us_fee feerate
                   (tx_to_us_skeleton out to_self_delay locktime
                                      our_wallet_pubkey) wscript = fee).
  { unfold tx_to_us_fee, fee.
    replace (measure_tx_cost
               (tx_to_us_skeleton out to_self_delay locktime our_wallet_pubkey)
             + 1 + 3 + 73 + 0 + Z.of_nat (length wscript)) with cost
      by (unfold cost; lia).
    rewrite (u64_small cost) by lia.
    rewrite u64_small by nia. reflexivity. }
  assert (Hfee0 : 0 <= fee).
  { unfold fee. apply Z.div_pos; nia. }
  unfold is_u64 in Hs.
  subst tx. unfold tx_to_us. simpl. rewrite Hfee.
  rewrite (u64_small (dust_limit + fee)) by lia.
  split; intros H.
  - destruct (Z.ltb_spec (satoshi out) (dust_limit + fee)); [reflexivity|lia].
  - destruct (Z.ltb_spec (satoshi out) (dust_limit + fee)); [lia|].
    rewrite u64_small by lia. reflexivity.
Qed.

Lemma tx_to_us_output_witness :
  (954 < 546 + 1000 * 408 / 1000 -> output sweep_at_threshold = [])
  /\ (546 + 1000 * 408 / 1000 <= 954 ->
      output sweep_at_threshold
      = [mk_output (954 - 1000 * 408 / 1000)
                   (scriptpubkey_p2wpkh (Primitives := Sample.prim) [8])]).
Proof.
  apply (tx_to_us_output (prim := Sample.prim)
           (new_tracked_output 7 500 THEIR_UNILATERAL 0 954 OUR_HTLC)
           0 600 1000 546 [1; 2; 3] [8] [9] [6]);
    unfold is_u64; simpl; lia.
Defined.

(** C7, as stated, fails at equality: the input amount 954 is
    [dust_limit + fee] = 546 + 408, yet the output is kept, at 546. *)
Lemma tx_to_us_keeps_output_at_threshold :
  tx_to_us_fee (prim := Sample.prim) 1000
    (tx_to_us_skeleton (prim := Sample.prim)
       (new_tracked_output 7 500 THEIR_UNILATERAL 0 954 OUR_HTLC) 0 600 [8])
    [1; 2; 3] = 408
  /\ 954 <= 546 + 408
  /\ map amount (output sweep_at_threshold) = [546].
Proof.
  split; [reflexivity|]. split; [lia|reflexivity].
Qed.

(** ** Recognising a mutual close *)

Lemma other_side_involutive s : other_side (other_side s) = s.
Proof. destruct s; reflexivity. Qed.

Lemma in_map_other_side s sides :
  In s (map other_side sides) <-> In (other_side s) sides.
Proof.
  rewrite in_map_iff. split.
  - intros (x & E & Hin). subst. rewrite other_side_involutive. exact Hin.
  - intros Hin. exists (other_side s). split; [apply other_side_involutive|].
    exact Hin.
Qed.

Lemma NoDup_map_other_side sides :
  NoDup sides -> NoDup (map other_side sides).
Proof.
  induction 1 as [|s sides Hn _ IH]; simpl; constructor; [|exact IH].
  rewrite in_map_other_side, other_side_involutive. exact Hn.
Qed.

Lemma is_mutual_close_from_sound (os : list bitcoin_tx_output) (l r : bytes) :
  forall lm rm,
    is_mutual_close_from os l r lm rm = true ->
    exists sides,
      NoDup sides
      /\ (lm = true -> ~ In LOCAL sides)
      /\ (rm = true -> ~ In REMOTE sides)
      /\ Forall2 (fun o s => script o = closing_script l r s) os sides.
Proof.
  induction os as [|o os IH]; simpl; intros lm rm H.
  - exists []. repeat split; auto; constructor.
  - destruct (scripteq (script o) l && negb lm) eqn:A.
    + apply andb_true_iff in A. destruct A as [A1 A2].
      apply bytes_eqb_eq in A1. apply negb_true_iff in A2.
      destruct (IH _ _ H) as (sides & N & HL & HR & F).
      exists (LOCAL :: sides). repeat split.
      * constructor; auto.
      * congruence.
      * intros E [C|C]; [discriminate|]. exact (HR E C).
      * constructor; assumption.
    + destruct (scripteq (script o) r && negb rm) eqn:B; [|discriminate].
      apply andb_true_iff in B. destruct B as [B1 B2].
      apply bytes_eqb_eq in B1. apply negb_true_iff in B2.
      destruct (IH _ _ H) as (sides & N & HL & HR & F).
      exists (REMOTE :: sides). repeat split.
      * constructor; auto.
      * intros E [C|C]; [discriminate|]. exact (HL E C).
      * congruence.
      * constructor; assumption.
Qed.

Lemma is_mutual_close_from_complete (os : list bitcoin_tx_output)
    (l r : bytes) :
  forall sides lm rm,
    NoDup sides ->
    (lm = true -> ~ In LOCAL sides) ->
    (rm = true -> ~ In REMOTE sides) ->
    Forall2 (fun o s => script o = closing_script l r s) os sides ->
    is_mutual_close_from os l r lm rm = true.
Proof.
  induction os as [|o os IH]; simpl; intros sides lm rm N HL HR F;
    [reflexivity|].
  inversion F as [|? s ? sides' Ho F']; subst.
  inversion N as [|? ? Hnotin N']; subst.
  destruct (scripteq (script o) l && negb lm) eqn:A.
  - apply andb_true_iff in A. destruct A as [A1 A2].
    apply bytes_eqb_eq in A1. apply negb_true_iff in A2. subst lm.
    destruct s.
    + apply (IH sides'); auto.
      intros E C. apply HR; [exact E|]. right. exact C.
    + (* the output also pays the remote script: both scripts coincide and
         the roles of the two sides may be exchanged in the rest *)
      simpl in Ho. assert (E : r = l) by congruence. clear Ho. subst r.
      assert (Hrm : rm = false).
      { destruct rm; [|reflexivity]. exfalso. apply HR; [reflexivity|].
        left. reflexivity. }
      subst rm.
      apply (IH (map other_side sides')).
      * apply NoDup_map_other_side. exact N'.
      * intros _. rewrite in_map_other_side. exact Hnotin.
      * discriminate.
      * clear -F'. induction F' as [|x s xs ss Hx _ IHF]; simpl;
          constructor; [|exact IHF].
        rewrite Hx. destruct s; reflexivity.
  - destruct (scripteq (script o) r && negb rm) eqn:B.
    + apply andb_true_iff in B. destruct B as [B1 B2].
      apply bytes_eqb_eq in B1. apply negb_true_iff in B2. subst rm.
      apply andb_false_iff in A.
      destruct s.
      * exfalso. destruct A as [A|A].
        -- simpl in Ho. rewrite Ho in A. unfold scripteq in A.
           rewrite bytes_eqb_refl in A. discriminate.
        -- apply negb_false_iff in A. apply HL; [exact A|]. left. reflexivity.
      * apply (IH sides'); auto.
        intros E C. apply HL; [exact E|]. right. exact C.
    + exfalso. apply andb_false_iff in A. apply andb_false_iff in B.
      destruct s; simpl in Ho.
      * destruct A as [A|A].
        -- rewrite Ho in A. unfold scripteq in A.
           rewrite bytes_eqb_refl in A. discriminate.
        -- apply negb_false_iff in A. apply HL; [exact A|]. left. reflexivity.
      * destruct B as [B|B].
        -- rewrite Ho in B. unfold scripteq in B.
           rewrite bytes_eqb_refl in B. discriminate.
        -- apply negb_false_iff in B. apply HR; [exact B|]. left. reflexivity.
Qed.

(** C9: [is_mutual_close] returns true exactly when every output of the
    transaction pays the local or the remote closing scriptpubkey, with
    each of the two scriptpubkeys matched by at most one output. *)
Theorem is_mutual_close_correct (tx : bitcoin_tx)
    (local_scriptpubkey remote_scriptpubkey : bytes) :
  is_mutual_close tx local_scriptpubkey remote_scriptpubkey = true
  <-> mutual_close_spec tx local_scriptpubkey remote_scriptpubkey.
Proof.
  unfold is_mutual_close, mutual_close_spec. split.
  - intros H. apply is_mutual_close_from_sound in H.
    destruct H as (sides & N & _ & _ & F). exists sides. split; assumption.
  - intros (sides & N & F).
    apply (is_mutual_close_from_complete _ _ _ sides); auto; discriminate.
Qed.

Lemma paying_cons s o os :
  paying s (o :: os)
  = ((if scripteq (script o) s then 1 else 0) + paying s os)%nat.
Proof.
  unfold paying. cbn [filter]. destruct (scripteq (script o) s); reflexivity.
Qed.

Lemma is_mutual_close_from_counts (os : list bitcoin_tx_output) (l r : bytes) :
  l <> r ->
  forall lm rm,
    is_mutual_close_from os l r lm rm = true
    <-> Forall (fun o => script o = l \/ script o = r) os
        /\ (paying l os + Nat.b2n lm <= 1)%nat
        /\ (paying r os + Nat.b2n rm <= 1)%nat.
Proof.
  intros Hne. induction os as [|o os IH]; intros lm rm.
  - cbn [is_mutual_close_from]. unfold paying. simpl.
    destruct lm, rm; simpl; split; auto; intros _; repeat split;
      try constructor; lia.
  - cbn [is_mutual_close_from]. rewrite !paying_cons.
    destruct (scripteq (script o) l) eqn:A;
      destruct (scripteq (script o) r) eqn:B.
    + apply bytes_eqb_eq in A. apply bytes_eqb_eq in B. congruence.
    + apply bytes_eqb_eq in A.
      destruct lm; cbn [andb negb Nat.b2n].
      * split; [discriminate|]. intros (_ & C & _). lia.
      * rewrite IH. cbn [Nat.b2n]. split.
        -- intros (F & C1 & C2). repeat split; auto; lia.
        -- intros (F & C1 & C2). inversion F; subst. repeat split; auto; lia.
    + apply bytes_eqb_eq in B.
      destruct rm; cbn [andb negb Nat.b2n].
      * split; [discriminate|]. intros (_ & _ & C). lia.
      * rewrite IH. cbn [Nat.b2n]. split.
        -- intros (F & C1 & C2). repeat split; auto; lia.
        -- intros (F & C1 & C2). inversion F; subst. repeat split; auto; lia.
    + cbn [andb]. split; [discriminate|]. intros (F & _).
      inversion F as [|? ? Ho _]; subst. destruct Ho as [E|E].
      * rewrite E in A. unfold scripteq in A.
        rewrite bytes_eqb_refl in A. discriminate.
      * rewrite E in B. unfold scripteq in B.
        rewrite bytes_eqb_refl in B. discriminate.
Qed.

(** For two different closing scriptpubkeys the condition reads: every
    output pays one of them, and at most one output pays each. *)
Corollary is_mutual_close_distinct (tx : bitcoin_tx) (l r : bytes) :
  l <> r ->
  (is_mutual_close tx l r = true
   <-> Forall (fun o => script o = l \/ script o = r) (output tx)
       /\ (paying l (output tx) <= 1)%nat
       /\ (paying r (output tx) <= 1)%nat).
Proof.
  intros Hne. unfold is_mutual_close.
  rewrite (is_mutual_close_from_counts _ _ _ Hne). cbn [Nat.b2n].
  rewrite !Nat.add_0_r. reflexivity.
Qed.

(** ** The brute-force search for the feerate *)

Lemma set_output0_amount_with_amount tx a :
  output tx <> [] -> set_output0_amount tx a = Ok (with_amount tx a).
Proof.
  unfold set_output0_amount, with_amount. destruct (output tx); congruence.
Qed.

Lemma with_amount_twice tx a b :
  with_amount (with_amount tx a) b = with_amount tx b.
Proof. unfold with_amount. simpl. destruct (output tx); reflexivity. Qed.

Lemma with_amount_output tx a : output tx <> [] -> output (with_amount tx a) <> [].
Proof. unfold with_amount. simpl. destruct (output tx); congruence. Qed.

Lemma htlc_timeout_fee_exact i :
  0 <= i < 2 ^ 32 -> htlc_timeout_fee i = i * 663 / 1000.
Proof.
  intros H. unfold htlc_timeout_fee. rewrite u64_small; [reflexivity|].
  assert (2 ^ 32 * 663 < 2 ^ 64) by (vm_compute; reflexivity). nia.
Qed.

Lemma htlc_timeout_fee_bounds i :
  0 <= i < 2 ^ 32 ->
  0 <= htlc_timeout_fee i < 2 ^ 32
  /\ 1000 * htlc_timeout_fee i <= i * 663 < 1000 * htlc_timeout_fee i + 1000.
Proof.
  intros H. rewrite htlc_timeout_fee_exact by exact H.
  pose proof (Z.div_mod (i * 663) 1000 ltac:(lia)) as D.
  pose proof (Z.mod_pos_bound (i * 663) 1000 ltac:(lia)) as M.
  assert (2 ^ 32 = 4294967296) by reflexivity.
  lia.
Qed.

Section FeerateSearch.

Context {prim : Primitives}.
Variables (out : tracked_output) (ks : keyset).
Variables (skeleton : bitcoin_tx) (wscript sig : bytes).
Variables (lo hi F : Z).

Hypothesis skeleton_output : output skeleton <> [].
Hypothesis amount_range : is_u64 (satoshi out).
Hypothesis feerates : 0 <= lo /\ lo <= F /\ F <= hi /\ hi < 2 ^ 32.
Hypothesis fee_affordable : htlc_timeout_fee F <= satoshi out.
Hypothesis only_F_validates :
  forall i, lo <= i <= hi -> htlc_timeout_fee i <= satoshi out ->
    (check_tx_sig (with_amount skeleton (satoshi out - htlc_timeout_fee i))
                  0 wscript (other_payment_key ks) sig = true
     <-> i = F).

(** The loop, [n] turns before [lo - 1], stops at [F]. *)
Lemma find_feerate_stops_at (n : nat) :
  forall i prev_fee tx,
    Z.of_nat n = i - lo + 1 ->
    F <= i <= hi ->
    prev_fee <> htlc_timeout_fee F ->
    (forall a, set_output0_amount tx a = Ok (with_amount skeleton a)) ->
    find_feerate n i prev_fee out tx wscript (Some sig) ks
    = Ok (Some (mk_match F (htlc_timeout_fee F)
                  (with_amount skeleton (satoshi out - htlc_timeout_fee F)))).
Proof.
  unfold is_u64 in amount_range.
  induction n as [|n IH]; intros i prev_fee tx Hn Hi Hprev Htx.
  - lia.
  - assert (Hi32 : 0 <= i < 2 ^ 32) by lia.
    pose proof (htlc_timeout_fee_bounds i Hi32) as [Hfi _].
    cbn [find_feerate].
    destruct (Z.gtb_spec (htlc_timeout_fee i) (satoshi out)) as [G|G].
    { assert (i <> F) by (intros ->; lia).
      apply IH; auto; lia. }
    destruct (Z.eqb_spec (htlc_timeout_fee i) prev_fee) as [E|E].
    { assert (i <> F) by (intros ->; congruence).
      apply IH; auto; lia. }
    rewrite Htx. cbn [bind].
    rewrite (u64_small (satoshi out - htlc_timeout_fee i)) by lia.
    destruct (check_tx_sig
                (with_amount skeleton (satoshi out - htlc_timeout_fee i))
                0 wscript (other_payment_key ks) sig) eqn:C.
    + apply only_F_validates in C; [|lia|lia]. subst i. reflexivity.
    + cbn [negb].
      assert (Hne : i <> F).
      { intros ->.
        assert (T : check_tx_sig
                      (with_amount skeleton
                         (satoshi out - htlc_timeout_fee F))
                      0 wscript (other_payment_key ks) sig = true)
          by (apply only_F_validates; [lia|lia|reflexivity]).
        congruence. }
      apply IH; try lia.
      * intros Eq. rewrite Eq in C.
        assert (T : check_tx_sig
                      (with_amount skeleton
                         (satoshi out - htlc_timeout_fee F))
                      0 wscript (other_payment_key ks) sig = true)
          by (apply only_F_validates; [lia|lia|reflexivity]).
        congruence.
      * intros a. rewrite set_output0_amount_with_amount
          by (apply with_amount_output; exact skeleton_output).
        rewrite with_amount_twice. reflexivity.
Qed.

Lemma find_feerate_finds :
  find_feerate (Z.to_nat (hi - lo + 1)) hi UINT64_MAX out skeleton wscript
               (Some sig) ks
  = Ok (Some (mk_match F (htlc_timeout_fee F)
                (with_amount skeleton (satoshi out - htlc_timeout_fee F)))).
Proof.
  apply find_feerate_stops_at.
  - lia.
  - lia.
  - pose proof (htlc_timeout_fee_bounds F ltac:(lia)) as [B _].
    unfold UINT64_MAX.
    assert (2 ^ 32 < 2 ^ 64 - 1) by (vm_compute; reflexivity). lia.
  - intros a. apply set_output0_amount_with_amount. exact skeleton_output.
Qed.

End FeerateSearch.

(** The bounds [narrow_feerate_range] derives from the fee of feerate [F]
    with multiplier 663 enclose [F]. *)
Lemma narrow_bounds_enclose (F : Z) :
  0 <= F < 2 ^ 32 - 1507 ->
  let fee := htlc_timeout_fee F in
  u32 (u64 (u64 (fee + 999) * 1000) / 663) = (fee + 999) * 1000 / 663
  /\ F <= (fee + 999) * 1000 / 663
  /\ (if fee <? 999 then 0 else u32 (u64 (u64 (fee - 999) * 1000) / 663))
     = (if fee <? 999 then 0 else (fee - 999) * 1000 / 663)
  /\ 0 <= (if fee <? 999 then 0 else (fee - 999) * 1000 / 663) <= F.
Proof.
  intros HF fee.
  assert (P32 : 2 ^ 32 = 4294967296) by reflexivity.
  assert (P64 : 2 ^ 64 = 18446744073709551616) by reflexivity.
  pose proof (htlc_timeout_fee_bounds F ltac:(lia)) as [B1 B2].
  fold fee in B1, B2.
  pose proof (Z.div_mod ((fee + 999) * 1000) 663 ltac:(lia)) as D1.
  pose proof (Z.mod_pos_bound ((fee + 999) * 1000) 663 ltac:(lia)) as M1.
  rewrite (u64_small (fee + 999)) by lia.
  rewrite (u64_small ((fee + 999) * 1000)) by lia.
  rewrite (u32_small ((fee + 999) * 1000 / 663)) by lia.
  split; [reflexivity|]. split; [lia|].
  destruct (Z.ltb_spec fee 999) as [L|L].
  - split; [reflexivity|lia].
  - pose proof (Z.div_mod ((fee - 999) * 1000) 663 ltac:(lia)) as D2.
    pose proof (Z.mod_pos_bound ((fee - 999) * 1000) 663 ltac:(lia)) as M2.
    rewrite (u64_small (fee - 999)) by lia.
    rewrite (u64_small ((fee - 999) * 1000)) by lia.
    rewrite (u32_small ((fee - 999) * 1000 / 663)) by lia.
    split; [reflexivity|lia].
Qed.

(** C3, as the code has it: when the counterparty signature validates at
    the fee of exactly one feerate [F] of the current range, the loop of
    [resolve_our_htlc_ourcommit] stops at [F], the output gets a proposal
    at block [cltv_expiry] of type OUR_HTLC_TIMEOUT_TO_US, and the range is
    intersected with the bounds that [narrow_feerate_range] derives from
    the fee, [(fee - 999) * 1000 / 663] (0 below 999) and
    [(fee + 999) * 1000 / 663]: the new range still holds [F], but it is
    not narrowed to the point [F]. *)
Theorem resolve_our_htlc_ourcommit_at_feerate {prim : Primitives}
    (out : tracked_output) (htlc : htlc_stub) (to_self_delay : Z)
    (fr : feerate_range) (local_payment_privkey remotesig : bytes)
    (ks : keyset) (F : Z) :
  let skeleton :=
    htlc_timeout_tx (txid out) (outnum out) (u64 (satoshi out * 1000))
                    (cltv_expiry htlc) to_self_delay 0 ks in
  let wscript :=
    bitcoin_wscript_htlc_offer_ripemd160 (self_payment_key ks)
      (other_payment_key ks) (ripemd htlc) (self_revocation_key ks) in
  let fee := htlc_timeout_fee F in
  output skeleton <> [] ->
  input skeleton <> [] ->
  is_u64 (satoshi out) ->
  is_u32 (tx_blockheight out) ->
  is_u32 (cltv_expiry htlc) ->
  0 <= min fr /\ min fr <= F /\ F <= max fr /\ max fr < 2 ^ 32 ->
  F < 2 ^ 32 - 1507 ->
  fee <= satoshi out ->
  (forall i, min fr <= i <= max fr -> htlc_timeout_fee i <= satoshi out ->
     (check_tx_sig (with_amount skeleton (satoshi out - htlc_timeout_fee i))
                   0 wscript (other_payment_key ks) remotesig = true
      <-> i = F)) ->
  exists m out' fr' p tx',
    find_feerate (Z.to_nat (max fr - min fr + 1)) (max fr) UINT64_MAX out
                 skeleton wscript (Some remotesig) ks = Ok (Some m)
    /\ found_feerate m = F
    /\ found_fee m = fee
    /\ fee = F * 663 / 1000
    /\ resolve_our_htlc_ourcommit out htlc to_self_delay fr
         local_payment_privkey (Some remotesig) ks = Ok (out', fr')
    /\ proposal out' = Some p
    /\ prop_tx p = Some tx'
    /\ prop_tx_type p = OUR_HTLC_TIMEOUT_TO_US
    /\ depth_required p = Z.max 0 (cltv_expiry htlc - tx_blockheight out)
    /\ option_map amount (hd_error (output tx')) = Some (satoshi out - fee)
    /\ min fr'
       = Z.max (min fr) (if fee <? 999 then 0 else (fee - 999) * 1000 / 663)
    /\ max fr' = Z.min (max fr) ((fee + 999) * 1000 / 663)
    /\ min fr <= min fr' /\ min fr' <= F /\ F <= max fr' /\ max fr' <= max fr.
Proof.
  intros skeleton wscript fee Hout Hin Hsat Hbh Hcltv Hfr HF Hfee Hsig.
  pose proof (find_feerate_finds out ks skeleton wscript remotesig
                (min fr) (max fr) F Hout Hsat Hfr Hfee Hsig) as Hfind.
  destruct (narrow_bounds_enclose F ltac:(lia)) as (N1 & N2 & N3 & N4).
  fold fee in N1, N2, N3, N4, Hfind.
  destruct (input skeleton) as [|i0 irest] eqn:Ein; [congruence|].
  destruct (output skeleton) as [|o0 orest] eqn:Eout; [congruence|].
  unfold is_u32 in Hbh, Hcltv.
  do 5 eexists.
  split; [exact Hfind|]. split; [reflexivity|]. split; [reflexivity|].
  split; [apply htlc_timeout_fee_exact; lia|].
  split.
  { unfold resolve_our_htlc_ourcommit. fold skeleton. fold wscript.
    rewrite Hfind. cbn [bind found_fee found_tx].
    unfold narrow_feerate_range. cbn [Z.eqb bind].
    unfold set_input0_witness, with_amount. cbn [input].
    rewrite Ein. cbn [bind]. reflexivity. }
  split; [reflexivity|]. split; [reflexivity|]. split; [reflexivity|].
  split.
  { cbn [depth_required].
    destruct (Z.ltb_spec (cltv_expiry htlc) (tx_blockheight out)); [lia|].
    rewrite u32_small by lia. lia. }
  split.
  { cbn [output hd_error option_map amount]. rewrite Eout. reflexivity. }
  cbn [min max].
  rewrite N1, N3.
  destruct N4 as [N4a N4b].
  split.
  { destruct (Z.gtb_spec
                (if fee <? 999 then 0 else (fee - 999) * 1000 / 663)
                (min fr)); lia. }
  split.
  { destruct (Z.ltb_spec ((fee + 999) * 1000 / 663) (max fr)); lia. }
  destruct (Z.gtb_spec
              (if fee <? 999 then 0 else (fee - 999) * 1000 / 663)
              (min fr));
    destruct (Z.ltb_spec ((fee + 999) * 1000 / 663) (max fr)); lia.
Qed.

(** In that example the signature validates at feerate 1004 and at no
    other feerate of the range. *)
Lemma only_1004_validates (i : Z) :
  0 <= i <= 5000 ->
  (check_tx_sig (Primitives := Sample.prim)
     (with_amount
        (htlc_timeout_tx (Primitives := Sample.prim) 7 2 (u64 (100000 * 1000))
                         600 144 0 OfferedHtlc.ks)
        (100000 - htlc_timeout_fee i))
     0 [1; 1; 2] [6] OfferedHtlc.remotesig = true
   <-> i = 1004).
Proof.
  intros Hi.
  assert (P32 : 2 ^ 32 = 4294967296) by reflexivity.
  pose proof (htlc_timeout_fee_bounds i ltac:(lia)) as [_ B].
  cbn [check_tx_sig Sample.prim]. rewrite bytes_eqb_eq.
  change ([6; 600; 99335] = [6; 600; 100000 - htlc_timeout_fee i]
          <-> i = 1004).
  split.
  - intros E.
    assert (H : 99335 = 100000 - htlc_timeout_fee i) by congruence. lia.
  - intros ->. reflexivity.
Qed.

Lemma resolve_our_htlc_ourcommit_at_feerate_witness :
  exists out' fr',
    OfferedHtlc.resolved = Ok (out', fr')
    /\ min fr' <= 1004 <= max fr'.
Proof.
  destruct (resolve_our_htlc_ourcommit_at_feerate (prim := Sample.prim)
              OfferedHtlc.out OfferedHtlc.htlc 144 OfferedHtlc.fr [9]
              OfferedHtlc.remotesig OfferedHtlc.ks 1004)
    as (m & out' & fr' & p & tx' & _ & _ & _ & _ & R & _ & _ & _ & _ & _
        & _ & _ & _ & B1 & B2 & _).
  - simpl. discriminate.
  - simpl. discriminate.
  - unfold is_u64. simpl. lia.
  - unfold is_u32. simpl. lia.
  - unfold is_u32. simpl. lia.
  - simpl. lia.
  - simpl. lia.
  - vm_compute. discriminate.
  - intros i Hi _. apply only_1004_validates.
    simpl in Hi. exact Hi.
  - exists out', fr'. split; [exact R|]. split; assumption.
Defined.

(** C3, as stated, fails: the signature validates at feerate 1004 alone
    (fee 665), and the range after the call is 0 to 2509, not the point
    1004. *)
Lemma narrowed_range_is_not_a_point :
  (forall i, 0 <= i <= 5000 ->
     (check_tx_sig (Primitives := Sample.prim)
        (with_amount
           (htlc_timeout_tx (Primitives := Sample.prim) 7 2
                            (u64 (100000 * 1000)) 600 144 0 OfferedHtlc.ks)
           (100000 - htlc_timeout_fee i))
        0 [1; 1; 2] [6] OfferedHtlc.remotesig = true
      <-> i = 1004))
  /\ htlc_timeout_fee 1004 = 665
  /\ match OfferedHtlc.resolved with
     | Ok (_, fr') => min fr' = 0 /\ max fr' = 2509
     | _ => False
     end.
Proof.
  split; [exact only_1004_validates|].
  split; [reflexivity|].
  vm_compute. split; reflexivity.
Qed.

(** ** Matching the outputs of a commitment *)

(** What the loop body does with an output that matches neither main
    script but HTLC script [j] of an HTLC we offered: the resolver gets the
    stub at the output's index [i], not the stub [j] whose script
    matched. *)
Lemma their_unilateral_output_our_htlc {prim : Primitives}
    (tx_height : Z) (txid_ : sha256_double) (our_wallet_pubkey : bytes)
    (feerate_per_kw local_dust_limit_satoshi : Z) (htlcs : list htlc_stub)
    (ks : keyset) (local_payment_privkey : bytes) (m : matching) (i j : nat)
    (o : bitcoin_tx_output) (hj hi : htlc_stub) (w : bytes) :
  matches (script_local m) (script o) = false ->
  matches (script_remote m) (script o) = false ->
  match_htlc_output o (htlc_scripts m) = Some j ->
  nth_error (htlc_scripts m) j = Some (Some w) ->
  nth_error htlcs j = Some hj ->
  owner hj = LOCAL ->
  nth_error htlcs i = Some hi ->
  their_unilateral_output tx_height txid_ our_wallet_pubkey feerate_per_kw
    local_dust_limit_satoshi htlcs ks local_payment_privkey m i o
  = Ok (mk_matching
          (outs m
           ++ [resolve_our_htlc_theircommit
                 (new_tracked_output txid_ tx_height THEIR_UNILATERAL
                    (u32 (Z.of_nat i)) (amount o) OUR_HTLC)
                 w hi our_wallet_pubkey local_payment_privkey ks
                 feerate_per_kw local_dust_limit_satoshi])
          (script_local m) (script_remote m) (nullify (htlc_scripts m) j)
          (htlc_sigs m) (range m)).
Proof.
  intros HL HR Hm Hw Hj Ho Hi.
  unfold their_unilateral_output, at_index.
  rewrite HL, HR, Hm, Hj. cbn [bind]. rewrite Ho, Hw. cbn [bind].
  rewrite Hi. reflexivity.
Qed.

(** What the loop body does with an output that pays the to-them delayed
    script: the matcher [script_remote] is left in place. *)
Lemma their_unilateral_output_to_them {prim : Primitives}
    (tx_height : Z) (txid_ : sha256_double) (our_wallet_pubkey : bytes)
    (feerate_per_kw local_dust_limit_satoshi : Z) (htlcs : list htlc_stub)
    (ks : keyset) (local_payment_privkey : bytes) (m : matching) (i : nat)
    (o : bitcoin_tx_output) :
  matches (script_local m) (script o) = false ->
  matches (script_remote m) (script o) = true ->
  their_unilateral_output tx_height txid_ our_wallet_pubkey feerate_per_kw
    local_dust_limit_satoshi htlcs ks local_payment_privkey m i o
  = Ok (mk_matching
          (outs m
           ++ [ignore_output
                 (new_tracked_output txid_ tx_height THEIR_UNILATERAL
                    (u32 (Z.of_nat i)) (amount o) DELAYED_OUTPUT_TO_THEM)])
          (script_local m) (script_remote m) (htlc_scripts m) (htlc_sigs m)
          (range m)).
Proof.
  intros HL HR. unfold their_unilateral_output. rewrite HL, HR. reflexivity.
Qed.

(** The handler of our own commitment is single-shot in each of its
    matchers: whichever matcher takes the output is nullified. *)
Lemma our_unilateral_output_nullifies {prim : Primitives}
    tx_height txid_ wallet delay feerate dust htlcs ks wscript k1 k2 m i o m' :
  our_unilateral_output tx_height txid_ wallet delay feerate dust htlcs ks
                        wscript k1 k2 m i o = Ok m' ->
  (matches (script_local m) (script o) = true /\ script_local m' = None)
  \/ (matches (script_local m) (script o) = false
      /\ matches (script_remote m) (script o) = true
      /\ script_remote m' = None)
  \/ (matches (script_local m) (script o) = false
      /\ matches (script_remote m) (script o) = false
      /\ exists j, match_htlc_output o (htlc_scripts m) = Some j
                   /\ htlc_scripts m' = nullify (htlc_scripts m) j).
Proof.
  unfold our_unilateral_output. intros H.
  destruct (matches (script_local m) (script o)).
  { inversion H; subst. left. split; reflexivity. }
  destruct (matches (script_remote m) (script o)).
  { inversion H; subst. right. left. repeat split; reflexivity. }
  right. right. split; [reflexivity|]. split; [reflexivity|].
  destruct (match_htlc_output o (htlc_scripts m)) as [j|]; [|discriminate].
  exists j. split; [reflexivity|].
  destruct (at_index htlcs j) as [h| |]; cbn [bind] in H; try discriminate.
  destruct (owner h).
  - destruct (resolve_our_htlc_ourcommit _ _ _ _ _ _ _) as [[out' fr']| |];
      cbn [bind] in H; try discriminate.
    inversion H; subst. reflexivity.
  - inversion H; subst. reflexivity.
Qed.

Lemma nullify_at {A : Type} (l : list (option A)) (j : nat) :
  (j < length l)%nat -> nth_error (nullify l j) j = Some None.
Proof.
  revert j. induction l as [|x l IH]; intros j H; simpl in H; [lia|].
  destruct j; simpl; [reflexivity|]. apply IH. lia.
Qed.

(** C2: the code at the failing input.  Output 0 matches the script of
    HTLC 1, which we offered and which expires at block 600; the resolver
    is handed HTLC stub 0, so the proposal waits for block 700 (200 blocks
    after height 500) and the sweep carries locktime 700.  The type of the
    proposal is OUR_HTLC_TIMEOUT_TO_US, as the specification has it. *)
Theorem their_unilateral_resolves_with_stub_of_output_index :
  match_htlc_output (prim := Sample.prim)
    (mk_output 20000 TheirCommitment.our_htlc)
    [Some (htlc_offered_wscript (Primitives := Sample.prim) [21]
             TheirCommitment.ks);
     Some (htlc_received_wscript (Primitives := Sample.prim) [22] 600
             TheirCommitment.ks)]
  = Some 1%nat
  /\ option_map cltv_expiry (nth_error TheirCommitment.htlcs 1) = Some 600
  /\ match TheirCommitment.tracks TheirCommitment.htlc_outputs with
     | Ok [_; o0; _] =>
         out_output_type o0 = OUR_HTLC
         /\ outnum o0 = 0
         /\ option_map prop_tx_type (proposal o0) = Some OUR_HTLC_TIMEOUT_TO_US
         /\ option_map depth_required (proposal o0) = Some 200
         /\ match proposal o0 with
            | Some p => option_map lock_time (prop_tx p) = Some 700
            | None => False
            end
     | _ => False
     end.
Proof.
  split; [reflexivity|]. split; [reflexivity|].
  vm_compute. repeat split; reflexivity.
Qed.

(** C4: the code at the failing input.  Both outputs of the commitment pay
    the to-them delayed script, and both are tracked as
    DELAYED_OUTPUT_TO_THEM: the matcher was not nullified by the first. *)
Theorem their_unilateral_rematches_to_them_script :
  match TheirCommitment.tracks TheirCommitment.to_them_twice with
  | Ok tracked =>
      map out_output_type tracked
      = [FUNDING_OUTPUT; DELAYED_OUTPUT_TO_THEM; DELAYED_OUTPUT_TO_THEM]
      /\ map outnum tracked = [0; 0; 1]
  | _ => False
  end.
Proof.
  vm_compute. split; reflexivity.
Qed.

(** ** Unresolved outputs carry a proposal *)

Lemma main_enters_loop {prim : Primitives} (init : onchain_init)
    (htlcs : list htlc_stub) (msgs : list request) :
  main init htlcs msgs
  = '(outs1, sent) <- main_tracks init htlcs ;;
    wait_for_resolved msgs outs1 sent.
Proof.
  unfold main, main_tracks.
  destruct (derive_basepoints (init_seed init)) as [[bp sec] shaseed].
  destruct (at_index (input (init_tx init)) 0) as [in0| |]; cbn [bind];
    try reflexivity.
  destruct (is_mutual_close _ _ _).
  { unfold handle_mutual_close.
    destruct (mutual_close_tracks _ _); reflexivity. }
  destruct (unmask_commit_number _ _ _ _) as [commit_num| |]; cbn [bind];
    try reflexivity.
  destruct (is_local_commitment _ _).
  { unfold handle_our_unilateral.
    destruct (our_unilateral_tracks _ _ _ _ _ _ _ _ _ _ _ _ _ _ _ _ _);
      reflexivity. }
  destruct (shachain_get_hash _ _); [reflexivity|].
  unfold handle_their_unilateral.
  destruct (commit_num =? revocations_received (init_shachain init)).
  { destruct (their_unilateral_tracks _ _ _ _ _ _ _ _ _ _ _ _ _ _ _ _ _);
      reflexivity. }
  destruct (commit_num =? u64 (revocations_received (init_shachain init) + 1));
    [|reflexivity].
  destruct (their_unilateral_tracks _ _ _ _ _ _ _ _ _ _ _ _ _ _ _ _ _);
    reflexivity.
Qed.

Lemma has_plan_resolved o : resolved o <> None -> has_plan o.
Proof. intros H E. congruence. Qed.

Lemma has_plan_proposed o : proposal o <> None -> has_plan o.
Proof. intros H _. exact H. Qed.

Lemma planned_snoc outs o : planned outs -> has_plan o -> planned (outs ++ [o]).
Proof.
  intros P H. apply Forall_app. split; [exact P|]. constructor; [exact H|].
  constructor.
Qed.

Lemma resolve_our_htlc_ourcommit_plans {prim : Primitives}
    out htlc to_self_delay fr privkey remotesig ks out' fr' :
  resolve_our_htlc_ourcommit out htlc to_self_delay fr privkey remotesig ks
  = Ok (out', fr') ->
  has_plan out'.
Proof.
  unfold resolve_our_htlc_ourcommit. intros H.
  destruct (find_feerate _ _ _ _ _ _ _ _) as [[m|]| |]; cbn [bind] in H;
    try discriminate.
  destruct (narrow_feerate_range _ _ _); cbn [bind] in H; try discriminate.
  destruct remotesig; cbn [bind] in H; try discriminate.
  destruct (set_input0_witness _ _); cbn [bind] in H; try discriminate.
  inversion H; subst. apply has_plan_proposed. simpl. discriminate.
Qed.

Lemma our_unilateral_output_planned {prim : Primitives}
    tx_height txid_ wallet delay feerate dust htlcs ks wscript k1 k2 m i o m' :
  our_unilateral_output tx_height txid_ wallet delay feerate dust htlcs ks
                        wscript k1 k2 m i o = Ok m' ->
  planned (outs m) -> planned (outs m').
Proof.
  unfold our_unilateral_output. intros H P.
  destruct (matches (script_local m) (script o)).
  { inversion H; subst. cbn [outs]. apply planned_snoc; [exact P|].
    apply has_plan_proposed. simpl. discriminate. }
  destruct (matches (script_remote m) (script o)).
  { inversion H; subst. cbn [outs]. apply planned_snoc; [exact P|].
    apply has_plan_resolved. simpl. discriminate. }
  destruct (match_htlc_output o (htlc_scripts m)) as [j|]; [|discriminate].
  destruct (at_index htlcs j) as [h| |]; cbn [bind] in H; try discriminate.
  destruct (owner h).
  - destruct (resolve_our_htlc_ourcommit _ _ _ _ _ _ _) as [[out' fr']| |]
      eqn:R; cbn [bind] in H; try discriminate.
    inversion H; subst. cbn [outs]. apply planned_snoc; [exact P|].
    exact (resolve_our_htlc_ourcommit_plans _ _ _ _ _ _ _ _ _ R).
  - inversion H; subst. cbn [outs]. apply planned_snoc; [exact P|].
    apply has_plan_proposed. simpl. discriminate.
Qed.

Lemma our_unilateral_outputs_planned {prim : Primitives}
    tx_height txid_ wallet delay feerate dust htlcs ks wscript k1 k2 os :
  forall i m m',
    our_unilateral_outputs tx_height txid_ wallet delay feerate dust htlcs ks
                           wscript k1 k2 os i m = Ok m' ->
    planned (outs m) -> planned (outs m').
Proof.
  induction os as [|o os IH]; simpl; intros i m m' H P.
  - inversion H; subst. exact P.
  - destruct (our_unilateral_output _ _ _ _ _ _ _ _ _ _ _ m i o) as [m1| |]
      eqn:E; cbn [bind] in H; try discriminate.
    apply (IH _ _ _ H).
    exact (our_unilateral_output_planned _ _ _ _ _ _ _ _ _ _ _ _ _ _ _ E P).
Qed.

Lemma no_null_ok {A : Type} (a : A) : no_null (Ok a).
Proof. discriminate. Qed.

Lemma no_null_failed {A : Type} (f : failure) : no_null (@StatusFailed A f).
Proof. discriminate. Qed.

Lemma no_null_bind {A B : Type} (m : outcome A) (k : A -> outcome B) :
  no_null m -> (forall a, m = Ok a -> no_null (k a)) -> no_null (bind m k).
Proof.
  intros Hm Hk. destruct m as [a|f|u]; cbn [bind].
  - apply Hk. reflexivity.
  - discriminate.
  - intros E. apply Hm. inversion E. reflexivity.
Qed.

Lemma no_null_at_index {A : Type} (l : list A) (i : nat) : no_null (at_index l i).
Proof. unfold at_index. destruct (nth_error l i); discriminate. Qed.

Lemma no_null_crypto {A : Type} (o : option A) : no_null (crypto o).
Proof. destruct o; discriminate. Qed.

Create HintDb no_null.

#[local] Hint Resolve no_null_ok no_null_failed no_null_at_index
  no_null_crypto : no_null.

Lemma find_feerate_no_null {prim : Primitives} n :
  forall i prev out tx wscript remotesig ks,
    no_null (find_feerate n i prev out tx wscript remotesig ks).
Proof.
  induction n as [|n IH]; intros; cbn [find_feerate]; auto with no_null.
  destruct (_ >? _); [apply IH|].
  destruct (_ =? _); [apply IH|].
  apply no_null_bind.
  { unfold set_output0_amount. destruct (output tx); discriminate. }
  intros tx' _. apply no_null_bind.
  { destruct remotesig; discriminate. }
  intros s _. destruct (negb _); [apply IH|discriminate].
Qed.

Lemma resolve_our_htlc_ourcommit_no_null {prim : Primitives}
    out htlc to_self_delay fr privkey remotesig ks :
  no_null (resolve_our_htlc_ourcommit out htlc to_self_delay fr privkey
                                      remotesig ks).
Proof.
  unfold resolve_our_htlc_ourcommit.
  apply no_null_bind; [apply find_feerate_no_null|].
  intros [m|] _; [|discriminate].
  apply no_null_bind.
  { unfold narrow_feerate_range. cbn [Z.eqb]. discriminate. }
  intros fr' _. apply no_null_bind.
  { destruct remotesig; discriminate. }
  intros s _. apply no_null_bind.
  { unfold set_input0_witness. destruct (input (found_tx m)); discriminate. }
  intros tx' _. discriminate.
Qed.

Lemma match_htlc_from_script {prim : Primitives} target hs :
  forall i j,
    match_htlc_from target hs i = Some j ->
    (i <= j)%nat /\ exists w, nth_error hs (j - i) = Some (Some w).
Proof.
  induction hs as [|[w|] hs IH]; cbn [match_htlc_from]; intros i j H.
  - discriminate.
  - destruct (memeq (skipn 2 target) (sha256 w)).
    + inversion H; subst. split; [lia|]. rewrite Nat.sub_diag. simpl. eauto.
    + destruct (IH _ _ H) as (L & w' & E). split; [lia|]. exists w'.
      replace (j - i)%nat with (S (j - S i)) by lia. exact E.
  - destruct (IH _ _ H) as (L & w' & E). split; [lia|]. exists w'.
    replace (j - i)%nat with (S (j - S i)) by lia. exact E.
Qed.

Lemma match_htlc_output_script {prim : Primitives} o hs j :
  match_htlc_output o hs = Some j -> exists w, nth_error hs j = Some (Some w).
Proof.
  unfold match_htlc_output. destruct (negb _); [discriminate|].
  intros H. apply match_htlc_from_script in H. destruct H as (_ & w & E).
  rewrite Nat.sub_0_r in E. eauto.
Qed.

Lemma derive_htlc_scripts_no_null {prim : Primitives} htlcs s ks :
  no_null (derive_htlc_scripts htlcs s ks).
Proof.
  induction htlcs as [|h htlcs IH]; simpl; [discriminate|].
  apply no_null_bind.
  { destruct (side_eqb _ _); [discriminate|].
    destruct (blocks_to_abs_locktime _); discriminate. }
  intros w _. apply no_null_bind; [exact IH|]. intros ws _. discriminate.
Qed.

Lemma our_unilateral_outputs_no_null {prim : Primitives}
    tx_height txid_ wallet delay feerate dust htlcs ks wscript k1 k2 os :
  forall i m,
    no_null (our_unilateral_outputs tx_height txid_ wallet delay feerate dust
               htlcs ks wscript k1 k2 os i m).
Proof.
  induction os as [|o os IH]; simpl; intros i m; [discriminate|].
  apply no_null_bind; [|intros m' _; apply IH].
  unfold our_unilateral_output.
  destruct (matches _ _); [discriminate|].
  destruct (matches _ _); [discriminate|].
  destruct (match_htlc_output _ _); [|discriminate].
  apply no_null_bind; [apply no_null_at_index|]. intros h _.
  destruct (owner h); [|discriminate].
  apply no_null_bind; [apply resolve_our_htlc_ourcommit_no_null|].
  intros [out' fr'] _. discriminate.
Qed.

Lemma their_unilateral_output_planned {prim : Primitives}
    tx_height txid_ wallet feerate dust htlcs ks k m i o m' :
  their_unilateral_output tx_height txid_ wallet feerate dust htlcs ks k
                          m i o = Ok m' ->
  planned (outs m) -> planned (outs m').
Proof.
  unfold their_unilateral_output. intros H P.
  destruct (matches (script_local m) (script o)).
  { inversion H; subst. cbn [outs]. apply planned_snoc; [exact P|].
    apply has_plan_resolved. simpl. discriminate. }
  destruct (matches (script_remote m) (script o)).
  { inversion H; subst. cbn [outs]. apply planned_snoc; [exact P|].
    apply has_plan_resolved. simpl. discriminate. }
  destruct (match_htlc_output o (htlc_scripts m)) as [j|]; [|discriminate].
  destruct (at_index htlcs j) as [h| |]; cbn [bind] in H; try discriminate.
  destruct (owner h).
  - destruct (nth_error (htlc_scripts m) j) as [[w|]|]; cbn [bind] in H;
      try discriminate.
    destruct (at_index htlcs i) as [hi| |]; cbn [bind] in H; try discriminate.
    inversion H; subst. cbn [outs]. apply planned_snoc; [exact P|].
    apply has_plan_proposed. simpl. discriminate.
  - inversion H; subst. cbn [outs]. apply planned_snoc; [exact P|].
    apply has_plan_proposed. simpl. discriminate.
Qed.

Lemma their_unilateral_outputs_planned {prim : Primitives}
    tx_height txid_ wallet feerate dust htlcs ks k os :
  forall i m m',
    their_unilateral_outputs tx_height txid_ wallet feerate dust htlcs ks k
                             os i m = Ok m' ->
    planned (outs m) -> planned (outs m').
Proof.
  induction os as [|o os IH]; simpl; intros i m m' H P.
  - inversion H; subst. exact P.
  - destruct (their_unilateral_output _ _ _ _ _ _ _ _ m i o) as [m1| |]
      eqn:E; cbn [bind] in H; try discriminate.
    apply (IH _ _ _ H).
    exact (their_unilateral_output_planned _ _ _ _ _ _ _ _ _ _ _ _ E P).
Qed.

Lemma their_unilateral_outputs_no_null {prim : Primitives}
    tx_height txid_ wallet feerate dust htlcs ks k os :
  forall i m,
    no_null (their_unilateral_outputs tx_height txid_ wallet feerate dust
               htlcs ks k os i m).
Proof.
  induction os as [|o os IH]; simpl; intros i m; [discriminate|].
  apply no_null_bind; [|intros m' _; apply IH].
  unfold their_unilateral_output.
  destruct (matches _ _); [discriminate|].
  destruct (matches _ _); [discriminate|].
  destruct (match_htlc_output _ _) as [j|] eqn:M; [|discriminate].
  apply no_null_bind; [apply no_null_at_index|]. intros h _.
  destruct (owner h); [|discriminate].
  destruct (match_htlc_output_script _ _ _ M) as (w & E). rewrite E.
  cbn [bind]. apply no_null_bind; [apply no_null_at_index|].
  intros hi _. discriminate.
Qed.

(** Every handler enters the loop with a planned store. *)
Lemma mutual_close_tracks_planned t funding outs1 :
  mutual_close_tracks t [funding] = Ok outs1 -> planned outs1.
Proof.
  simpl. intros H. inversion H; subst. constructor; [|constructor].
  apply has_plan_resolved. simpl. discriminate.
Qed.

Lemma our_unilateral_tracks_planned {prim : Primitives}
    tx tx_height txid_ sec shaseed b1 b2 b3 b4 wallet delay commit_num
    feerate dust htlcs sigs funding outs1 :
  our_unilateral_tracks tx tx_height txid_ sec shaseed b1 b2 b3 b4 wallet
    delay commit_num feerate dust htlcs sigs [funding] = Ok outs1 ->
  planned outs1.
Proof.
  unfold our_unilateral_tracks. intros H.
  repeat match type of H with
         | bind ?m _ = Ok _ =>
             destruct m eqn:?; cbn [bind] in H; try discriminate
         end.
  inversion H; subst.
  eapply our_unilateral_outputs_planned; [eassumption|].
  cbn [outs]. constructor; [|constructor].
  apply has_plan_resolved. simpl. discriminate.
Qed.

Lemma their_unilateral_tracks_planned {prim : Primitives}
    tx tx_height txid_ sec shaseed point b1 b2 b3 b4 wallet delay commit_num
    feerate dust htlcs funding outs1 :
  their_unilateral_tracks tx tx_height txid_ sec shaseed point b1 b2 b3 b4
    wallet delay commit_num feerate dust htlcs [funding] = Ok outs1 ->
  planned outs1.
Proof.
  unfold their_unilateral_tracks. intros H.
  repeat match type of H with
         | bind ?m _ = Ok _ =>
             destruct m eqn:?; cbn [bind] in H; try discriminate
         end.
  inversion H; subst.
  eapply their_unilateral_outputs_planned; [eassumption|].
  cbn [outs]. constructor; [|constructor].
  apply has_plan_resolved. simpl. discriminate.
Qed.

Lemma our_unilateral_tracks_no_null {prim : Primitives}
    tx tx_height txid_ sec shaseed b1 b2 b3 b4 wallet delay commit_num
    feerate dust htlcs sigs outs0 :
  no_null (our_unilateral_tracks tx tx_height txid_ sec shaseed b1 b2 b3 b4
             wallet delay commit_num feerate dust htlcs sigs outs0).
Proof.
  unfold our_unilateral_tracks. destruct outs0; [discriminate|].
  repeat (apply no_null_bind; [solve [auto with no_null]|intros ? _]).
  apply no_null_bind; [apply derive_htlc_scripts_no_null|intros ? _].
  apply no_null_bind; [apply our_unilateral_outputs_no_null|intros ? _].
  discriminate.
Qed.

Lemma their_unilateral_tracks_no_null {prim : Primitives}
    tx tx_height txid_ sec shaseed point b1 b2 b3 b4 wallet delay commit_num
    feerate dust htlcs outs0 :
  no_null (their_unilateral_tracks tx tx_height txid_ sec shaseed point b1 b2
             b3 b4 wallet delay commit_num feerate dust htlcs outs0).
Proof.
  unfold their_unilateral_tracks. destruct outs0; [discriminate|].
  repeat (apply no_null_bind; [solve [auto with no_null]|intros ? _]).
  apply no_null_bind; [apply derive_htlc_scripts_no_null|intros ? _].
  apply no_null_bind; [apply their_unilateral_outputs_no_null|intros ? _].
  discriminate.
Qed.

Lemma main_tracks_planned {prim : Primitives} init htlcs entry sent :
  main_tracks init htlcs = Ok (entry, sent) -> planned entry.
Proof.
  unfold main_tracks.
  destruct (derive_basepoints (init_seed init)) as [[bp sec] shaseed].
  intros H.
  destruct (at_index (input (init_tx init)) 0) as [in0| |]; cbn [bind] in H;
    try discriminate.
  destruct (is_mutual_close _ _ _).
  { destruct (mutual_close_tracks _ _) eqn:E; cbn [bind] in H;
      try discriminate.
    inversion H; subst. exact (mutual_close_tracks_planned _ _ _ E). }
  destruct (unmask_commit_number _ _ _ _) as [commit_num| |];
    cbn [bind] in H; try discriminate.
  destruct (is_local_commitment _ _).
  { destruct (our_unilateral_tracks _ _ _ _ _ _ _ _ _ _ _ _ _ _ _ _ _) eqn:E;
      cbn [bind] in H; try discriminate.
    inversion H; subst.
    exact (our_unilateral_tracks_planned _ _ _ _ _ _ _ _ _ _ _ _ _ _ _ _ _ _ E). }
  destruct (shachain_get_hash _ _); [discriminate|].
  destruct (commit_num =? revocations_received (init_shachain init)).
  { destruct (their_unilateral_tracks _ _ _ _ _ _ _ _ _ _ _ _ _ _ _ _ _) eqn:E;
      cbn [bind] in H; try discriminate.
    inversion H; subst.
    exact (their_unilateral_tracks_planned _ _ _ _ _ _ _ _ _ _ _ _ _ _ _ _ _ _ E). }
  destruct (commit_num =? u64 (revocations_received (init_shachain init) + 1));
    [|discriminate].
  destruct (their_unilateral_tracks _ _ _ _ _ _ _ _ _ _ _ _ _ _ _ _ _) eqn:E;
    cbn [bind] in H; try discriminate.
  inversion H; subst.
  exact (their_unilateral_tracks_planned _ _ _ _ _ _ _ _ _ _ _ _ _ _ _ _ _ _ E).
Qed.

Lemma main_tracks_no_null {prim : Primitives} init htlcs :
  no_null (main_tracks init htlcs).
Proof.
  unfold main_tracks.
  destruct (derive_basepoints (init_seed init)) as [[bp sec] shaseed].
  apply no_null_bind; [apply no_null_at_index|intros in0 _].
  destruct (is_mutual_close _ _ _).
  { apply no_null_bind; [discriminate|intros ? _; discriminate]. }
  apply no_null_bind.
  { unfold unmask_commit_number.
    apply no_null_bind; [apply no_null_at_index|intros ? _; discriminate]. }
  intros commit_num _.
  destruct (is_local_commitment _ _).
  { apply no_null_bind; [apply our_unilateral_tracks_no_null|].
    intros ? _; discriminate. }
  destruct (shachain_get_hash _ _); [discriminate|].
  destruct (_ =? _).
  { apply no_null_bind; [apply their_unilateral_tracks_no_null|].
    intros ? _; discriminate. }
  destruct (_ =? _); [|discriminate].
  apply no_null_bind; [apply their_unilateral_tracks_no_null|].
  intros ? _; discriminate.
Qed.

(** The loop keeps the store planned. *)
Lemma tx_new_depth_one_planned o t d :
  exists o' w, tx_new_depth_one o t d = Ok (o', w) /\ (has_plan o -> has_plan o').
Proof.
  unfold tx_new_depth_one.
  destruct (resolved o) as [r|] eqn:E.
  - destruct (structeq (res_txid r) t); do 2 eexists;
      (split; [reflexivity|]); intros _.
    + apply has_plan_resolved. simpl. discriminate.
    + apply has_plan_resolved. congruence.
  - destruct (proposal o) as [p|] eqn:P.
    + destruct (structeq (txid o) t && (d >=? depth_required p)).
      * unfold proposal_meets_depth. rewrite P.
        destruct (prop_tx p); do 2 eexists; (split; [reflexivity|]).
        -- auto.
        -- intros _. apply has_plan_resolved. simpl. discriminate.
      * do 2 eexists. split; [reflexivity|]. auto.
    + do 2 eexists. split; [reflexivity|]. auto.
Qed.

Lemma tx_new_depth_planned outs t d :
  exists outs' w,
    tx_new_depth outs t d = Ok (outs', w) /\ (planned outs -> planned outs').
Proof.
  induction outs as [|o outs IH]; simpl.
  - do 2 eexists. split; [reflexivity|]. intros P. exact P.
  - destruct (tx_new_depth_one_planned o t d) as (o' & w1 & E1 & P1).
    destruct IH as (outs' & w2 & E2 & P2).
    rewrite E1. cbn [bind]. rewrite E2. cbn [bind].
    do 2 eexists. split; [reflexivity|].
    intros P. inversion P as [|? ? Ho Pouts]; subst.
    constructor; [exact (P1 Ho)|exact (P2 Pouts)].
Qed.

Lemma resolved_by_proposal_planned {prim : Primitives} o t :
  resolved o = None ->
  has_plan o ->
  exists b o1,
    resolved_by_proposal o t = Ok (b, o1)
    /\ has_plan o1
    /\ out_output_type o1 = out_output_type o
    /\ (b = true -> resolved o1 <> None).
Proof.
  intros E H. unfold resolved_by_proposal.
  destruct (proposal o) as [p|] eqn:P; [|exfalso; exact (H E P)].
  destruct (prop_tx p) as [ptx|].
  - destruct (structeq (bitcoin_txid ptx) t); do 2 eexists;
      (split; [reflexivity|]); repeat split.
    + apply has_plan_resolved. simpl. discriminate.
    + intros _. simpl. discriminate.
    + apply has_plan_proposed. simpl. congruence.
    + discriminate.
  - do 2 eexists. split; [reflexivity|]. repeat split; auto. discriminate.
Qed.

Lemma output_spent_from_planned {prim : Primitives} outs tx spender inp :
  planned outs ->
  match output_spent_from outs tx spender inp with
  | Ok (Some outs') => planned outs'
  | Ok None => True
  | StatusFailed _ => True
  | Undefined _ => False
  end.
Proof.
  induction outs as [|o outs IH]; intros P; cbn [output_spent_from];
    [exact I|].
  inversion P as [|? ? Ho Pouts]; subst. specialize (IH Pouts).
  assert (Skip :
    match (r <- output_spent_from outs tx spender inp ;;
           Ok (option_map (cons o) r)) with
    | Ok (Some outs') => planned outs'
    | Ok None => True
    | StatusFailed _ => True
    | Undefined _ => False
    end).
  { destruct (output_spent_from outs tx spender inp) as [[outs'|]| |];
      cbn [bind option_map]; auto. constructor; assumption. }
  destruct (resolved o) eqn:E; [exact Skip|].
  destruct (negb (index inp =? outnum o)); [exact Skip|].
  destruct (negb (structeq (in_txid inp) (txid o))); [exact Skip|].
  destruct (resolved_by_proposal_planned o spender E Ho)
    as (b & o1 & R & H1 & Ty & Hb).
  rewrite R. cbn [bind]. destruct b.
  - constructor; assumption.
  - destruct (out_output_type o1); cbn [handle_their_htlc_fulfill bind];
      try exact I; constructor; try assumption.
    + apply has_plan_resolved. simpl. discriminate.
    + apply has_plan_resolved. simpl. discriminate.
Qed.

Lemma output_spent_planned {prim : Primitives} outs tx input_num blockheight :
  planned outs ->
  no_null (output_spent outs tx input_num blockheight)
  /\ forall outs' w,
       output_spent outs tx input_num blockheight = Ok (outs', w) ->
       planned outs'.
Proof.
  intros P. unfold output_spent.
  destruct (at_index (input tx) (Z.to_nat input_num)) as [inp| |] eqn:A;
    cbn [bind].
  - pose proof (output_spent_from_planned outs tx (bitcoin_txid tx) inp P)
      as S.
    destruct (output_spent_from outs tx (bitcoin_txid tx) inp)
      as [[outs1|]| |]; cbn [bind].
    + split; [discriminate|]. intros outs' w H. inversion H; subst. exact S.
    + split; [discriminate|]. intros outs' w H. inversion H; subst. exact P.
    + split; [discriminate|]. discriminate.
    + contradiction.
  - split; discriminate.
  - split; [|discriminate]. intros N. inversion N; subst.
    exact (no_null_at_index _ _ A).
Qed.

Lemma dispatch_planned {prim : Primitives} outs m :
  planned outs ->
  no_null (dispatch outs m)
  /\ forall outs' w, dispatch outs m = Ok (outs', w) -> planned outs'.
Proof.
  intros P. destruct m as [t d|tx n h|p|raw]; cbn [dispatch].
  - destruct (tx_new_depth_planned outs t d) as (outs1 & w1 & E & Q).
    rewrite E. split; [discriminate|]. intros outs' w H. inversion H; subst.
    auto.
  - apply output_spent_planned. exact P.
  - split; discriminate.
  - split; discriminate.
Qed.

Lemma wait_dispatches_planned {prim : Primitives} msgs outs store m :
  wait_dispatches msgs outs store m -> planned outs -> planned store.
Proof.
  induction 1 as [|m later outs outs' store w m' _ D _ IH]; intros P.
  - exact P.
  - apply IH. exact (proj2 (dispatch_planned outs m P) _ _ D).
Qed.

Lemma wait_for_resolved_no_null {prim : Primitives} msgs :
  forall outs sent,
    planned outs -> no_null (wait_for_resolved msgs outs sent).
Proof.
  induction msgs as [|m later IH]; intros outs sent P;
    cbn [wait_for_resolved].
  - destruct (all_irrevocably_resolved outs); discriminate.
  - destruct (all_irrevocably_resolved outs); [discriminate|].
    destruct (dispatch_planned outs m P) as [N Q].
    apply no_null_bind; [exact N|]. intros [outs' w] E. apply IH.
    exact (Q _ _ E).
Qed.

(** C10: in every run of [main], whenever [wait_for_resolved] dispatches a
    spend notification every tracked output that is still unresolved
    carries a proposal, so [output_spent], and with it the whole run, never
    reads [out->proposal] through a null pointer. *)
Theorem spend_dispatch_finds_proposal {prim : Primitives}
    (init : onchain_init) (htlcs : list htlc_stub)
    (entry : list tracked_output) (sent : list reply) (msgs : list request)
    (store : list tracked_output) (tx : bitcoin_tx) (input_num height : Z) :
  main_tracks init htlcs = Ok (entry, sent) ->
  wait_dispatches msgs entry store (onchain_spent tx input_num height) ->
  Forall (fun o => resolved o = None -> proposal o <> None) store
  /\ output_spent store tx input_num height <> Undefined NullDeref
  /\ main init htlcs msgs <> Undefined NullDeref.
Proof.
  intros E W.
  assert (P : planned store).
  { apply (wait_dispatches_planned _ _ _ _ W).
    exact (main_tracks_planned _ _ _ _ E). }
  split; [exact P|]. split.
  - exact (proj1 (output_spent_planned store tx input_num height P)).
  - rewrite main_enters_loop, E. cbn [bind].
    apply wait_for_resolved_no_null. exact (main_tracks_planned _ _ _ _ E).
Qed.

(** No run of [main], whatever the close and the parent's messages, reads
    through a null pointer. *)
Lemma main_no_null {prim : Primitives} init htlcs msgs :
  main init htlcs msgs <> Undefined NullDeref.
Proof.
  rewrite main_enters_loop.
  apply no_null_bind; [apply main_tracks_no_null|].
  intros [entry sent] E. apply wait_for_resolved_no_null.
  exact (main_tracks_planned _ _ _ _ E).
Qed.

(** The store at entry: the funding output and the to-them output are
    resolved, the delayed to-us output waits for its sweep. *)
Example our_commitment_entry :
  main_tracks (prim := Sample.prim) OurCommitment.init []
  = Ok (OurCommitment.entry, [onchain_init_reply ONCHAIND_OUR_UNILATERAL])
  /\ map out_output_type OurCommitment.entry
     = [FUNDING_OUTPUT; DELAYED_OUTPUT_TO_US; OUTPUT_TO_THEM]
  /\ map (fun o => option_map res_tx_type (resolved o)) OurCommitment.entry
     = [Some OUR_UNILATERAL; None; Some SELF]
  /\ map (fun o => option_map depth_required (proposal o)) OurCommitment.entry
     = [None; Some 144; None].
Proof.
  vm_compute. repeat split; reflexivity.
Qed.

Lemma spend_dispatch_finds_proposal_witness :
  Forall (fun o => resolved o = None -> proposal o <> None) OurCommitment.entry
  /\ output_spent (prim := Sample.prim) OurCommitment.entry
       OurCommitment.spend 0 650 <> Undefined NullDeref
  /\ main (prim := Sample.prim) OurCommitment.init []
       [onchain_spent OurCommitment.spend 0 650] <> Undefined NullDeref.
Proof.
  apply (spend_dispatch_finds_proposal (prim := Sample.prim)
           OurCommitment.init [] OurCommitment.entry
           [onchain_init_reply ONCHAIND_OUR_UNILATERAL]
           [onchain_spent OurCommitment.spend 0 650] OurCommitment.entry
           OurCommitment.spend 0 650).
  - vm_compute. reflexivity.
  - apply dispatches_now. vm_compute. reflexivity.
Defined.

(** * Further properties of the engine *)

(** ** The feerate range holds the feerate *)

(** X1: the range [init_feerate_range] starts from holds every feerate [F]
    that the commitment fee can pay for: when the fee left by the outputs
    is at least [F * (724 + 172 * u) / 1000] for a number [u] of untrimmed
    HTLCs that is at least the number of outputs less the two main ones,
    then [min = 0 <= F <= max]. *)
Theorem init_feerate_range_sound (funding_satoshi : Z) (commit_tx : bitcoin_tx)
    (F u : Z) :
  let n := Z.of_nat (length (output commit_tx)) in
  let fee := sum_amounts (output commit_tx) funding_satoshi in
  let fr := init_feerate_range funding_satoshi commit_tx in
  n < 2 ^ 32 ->
  0 <= F ->
  Z.max 0 (n - 2) <= u ->
  F * (724 + 172 * u) / 1000 <= fee ->
  (fee + 999) * 1000 < 2 ^ 64 ->
  (fee + 999) * 1000 / (724 + 172 * Z.max 0 (n - 2)) < 2 ^ 32 ->
  min fr = 0 /\ min fr <= F /\ F <= max fr.
Proof.
  intros n fee fr Hn HF Hu Hfee Hov Htr.
  assert (P32 : 2 ^ 32 = 4294967296) by reflexivity.
  assert (P64 : 2 ^ 64 = 18446744073709551616) by reflexivity.
  assert (Hn0 : 0 <= n) by (unfold n; lia).
  assert (Hfee0 : 0 <= fee).
  { unfold fee.
    assert (G : forall os f, 0 <= f -> 0 <= sum_amounts os f).
    { induction os as [|o os IH]; intros f Hf; [exact Hf|].
      unfold sum_amounts in *. cbn [fold_left]. apply IH. apply u64_range. }
    destruct (output commit_tx) as [|o os]; [|].
    - apply Z.le_trans with (F * (724 + 172 * u) / 1000); [|exact Hfee].
      apply Z.div_pos; nia.
    - unfold sum_amounts. cbn [fold_left]. apply G. apply u64_range. }
  set (m := Z.max 0 (n - 2)) in *.
  assert (Em : (if n <? 2 then 0 else n - 2) = m).
  { unfold m. destruct (Z.ltb_spec n 2); lia. }
  unfold fr, init_feerate_range. fold fee. fold n. rewrite Em. cbn [min max].
  rewrite (u64_small (fee + 999)) by lia.
  rewrite (u64_small ((fee + 999) * 1000)) by lia.
  rewrite (u64_small (724 + 172 * m)) by lia.
  assert (Hq : 0 <= (fee + 999) * 1000 / (724 + 172 * m))
    by (apply Z.div_pos; lia).
  rewrite u32_small by lia.
  split; [reflexivity|]. split; [exact HF|].
  apply Z.div_le_lower_bound; [lia|].
  pose proof (Z.div_mod (F * (724 + 172 * u)) 1000 ltac:(lia)) as D.
  pose proof (Z.mod_pos_bound (F * (724 + 172 * u)) 1000 ltac:(lia)) as M.
  nia.
Qed.

(** A commitment with one HTLC output besides the two main outputs, paid
    for at feerate 1000: the fee is 896 and the range is 0 to 2114. *)
Lemma init_feerate_range_sound_witness :
  let tx := mk_tx 0 [mk_input 1 0 0 None None]
                  [mk_output 60000 [1]; mk_output 30000 [2];
                   mk_output 9104 [3]] in
  min (init_feerate_range 100000 tx) = 0
  /\ min (init_feerate_range 100000 tx) <= 1000
  /\ 1000 <= max (init_feerate_range 100000 tx).
Proof.
  apply (init_feerate_range_sound 100000
           (mk_tx 0 [mk_input 1 0 0 None None]
                  [mk_output 60000 [1]; mk_output 30000 [2];
                   mk_output 9104 [3]]) 1000 1);
    vm_compute; congruence.
Defined.

(** X2: [narrow_feerate_range] never loses the feerate: when the fee is
    [F * multiplier / 1000] for a feerate [F] of the range, and the bound
    computed from the fee fits 32 bits, [F] is in the narrowed range. *)
Theorem narrow_feerate_range_keeps_feerate (fr : feerate_range)
    (fee multiplier F : Z) :
  0 < multiplier ->
  0 <= F ->
  fee = F * multiplier / 1000 ->
  (fee + 999) * 1000 < 2 ^ 64 ->
  (fee + 999) * 1000 / multiplier < 2 ^ 32 ->
  min fr <= F <= max fr ->
  exists fr',
    narrow_feerate_range fr fee multiplier = Ok fr'
    /\ min fr' <= F <= max fr'.
Proof.
  intros Hm HF Efee Hov Htr Hin.
  assert (P32 : 2 ^ 32 = 4294967296) by reflexivity.
  assert (P64 : 2 ^ 64 = 18446744073709551616) by reflexivity.
  pose proof (Z.div_mod (F * multiplier) 1000 ltac:(lia)) as D.
  pose proof (Z.mod_pos_bound (F * multiplier) 1000 ltac:(lia)) as M.
  rewrite <- Efee in D.
  assert (Hfee0 : 0 <= fee) by (subst fee; apply Z.div_pos; nia).
  assert (Hup : F <= (fee + 999) * 1000 / multiplier)
    by (apply Z.div_le_lower_bound; nia).
  unfold narrow_feerate_range.
  destruct (Z.eqb_spec multiplier 0) as [E|_]; [lia|].
  eexists. split; [reflexivity|]. cbn [min max].
  rewrite (u64_small (fee + 999)) by lia.
  rewrite (u64_small ((fee + 999) * 1000)) by lia.
  rewrite (u32_small ((fee + 999) * 1000 / multiplier)) by lia.
  assert (Hlow : (if fee <? 999 then 0
                  else u32 (u64 (u64 (fee - 999) * 1000) / multiplier)) <= F).
  { destruct (Z.ltb_spec fee 999) as [L|L]; [exact HF|].
    rewrite (u64_small (fee - 999)) by lia.
    rewrite (u64_small ((fee - 999) * 1000)) by lia.
    assert (Q : (fee - 999) * 1000 / multiplier
                <= (fee + 999) * 1000 / multiplier)
      by (apply Z.div_le_mono; lia).
    assert (Q0 : 0 <= (fee - 999) * 1000 / multiplier)
      by (apply Z.div_pos; lia).
    rewrite u32_small by lia.
    apply Z.div_le_upper_bound; nia. }
  split.
  - destruct (Z.gtb_spec
                (if fee <? 999 then 0
                 else u32 (u64 (u64 (fee - 999) * 1000) / multiplier))
                (min fr)); lia.
  - destruct (Z.ltb_spec ((fee + 999) * 1000 / multiplier) (max fr)); lia.
Qed.

Lemma narrow_feerate_range_keeps_feerate_witness :
  exists fr',
    narrow_feerate_range (mk_range 0 5000) 663 663 = Ok fr'
    /\ min fr' <= 1001 <= max fr'.
Proof.
  apply (narrow_feerate_range_keeps_feerate (mk_range 0 5000) 663 663 1001).
  - lia.
  - lia.
  - reflexivity.
  - vm_compute. reflexivity.
  - vm_compute. reflexivity.
  - simpl. lia.
Defined.

(** X3: narrowing by two fees gives the same range in either order. *)
Theorem narrow_feerate_range_commutes (fr : feerate_range)
    (fee1 multiplier1 fee2 multiplier2 : Z) :
  (fr1 <- narrow_feerate_range fr fee1 multiplier1 ;;
   narrow_feerate_range fr1 fee2 multiplier2)
  = (fr2 <- narrow_feerate_range fr fee2 multiplier2 ;;
     narrow_feerate_range fr2 fee1 multiplier1).
Proof.
  unfold narrow_feerate_range.
  destruct (multiplier1 =? 0) eqn:E1; destruct (multiplier2 =? 0) eqn:E2;
    cbn [bind]; rewrite ?E1, ?E2; try reflexivity.
  cbn [min max].
  set (hi1 := u32 (u64 (u64 (fee1 + 999) * 1000) / multiplier1)).
  set (hi2 := u32 (u64 (u64 (fee2 + 999) * 1000) / multiplier2)).
  set (lo1 := if fee1 <? 999 then 0
              else u32 (u64 (u64 (fee1 - 999) * 1000) / multiplier1)).
  set (lo2 := if fee2 <? 999 then 0
              else u32 (u64 (u64 (fee2 - 999) * 1000) / multiplier2)).
  f_equal. f_equal.
  - destruct (Z.gtb_spec lo1 (min fr)); destruct (Z.gtb_spec lo2 (min fr));
      repeat match goal with
             | |- context [?a >? ?b] => destruct (Z.gtb_spec a b)
             end; lia.
  - destruct (Z.ltb_spec hi1 (max fr)); destruct (Z.ltb_spec hi2 (max fr));
      repeat match goal with
             | |- context [?a <? ?b] => destruct (Z.ltb_spec a b)
             end; lia.
Qed.

(** ** The commitment number *)

(** X4: [unmask_commit_number] undoes the obscuring of BOLT #3.  When the
    low 24 bits of the locktime are the low 24 bits of [n xor obscurer]
    and the low 24 bits of the sequence number of input 0 are its upper
    bits, the result is [n], whatever the upper 8 bits of the two fields. *)
Theorem unmask_commit_number_roundtrip {prim : Primitives} (tx : bitcoin_tx)
    (funder : side) (local_payment_basepoint remote_payment_basepoint : bytes)
    (in0 : bitcoin_tx_input) (n : Z) :
  let key := fun s =>
    match s with
    | LOCAL => local_payment_basepoint
    | REMOTE => remote_payment_basepoint
    end in
  let obscured :=
    Z.lxor n (commit_number_obscurer (key funder) (key (other_side funder))) in
  nth_error (input tx) 0 = Some in0 ->
  Z.land (lock_time tx) 16777215 = Z.land obscured 16777215 ->
  Z.land (sequence_number in0) 16777215 = Z.shiftr obscured 24 ->
  unmask_commit_number tx funder local_payment_basepoint
                       remote_payment_basepoint = Ok n.
Proof.
  intros key obscured Hin Hlock Hseq.
  assert (R : Z.lor (Z.land obscured 16777215)
                    (Z.shiftl (Z.shiftr obscured 24) 24) = obscured).
  { change 16777215 with (Z.ones 24). apply Z.bits_inj'. intros k Hk.
    rewrite Z.lor_spec, Z.land_spec, Z.shiftl_spec by lia.
    destruct (Z.ltb_spec k 24).
    - rewrite Z.ones_spec_low by lia.
      rewrite (Z.testbit_neg_r _ (k - 24)) by lia.
      rewrite andb_true_r, orb_false_r. reflexivity.
    - rewrite Z.ones_spec_high by lia. rewrite Z.shiftr_spec by lia.
      replace (k - 24 + 24) with k by lia.
      rewrite andb_false_r. reflexivity. }
  unfold unmask_commit_number, at_index. rewrite Hin. cbn [bind].
  rewrite Hlock, Hseq, R. unfold obscured. fold key.
  rewrite Z.lxor_assoc, Z.lxor_nilpotent, Z.lxor_0_r. reflexivity.
Qed.

Lemma unmask_commit_number_roundtrip_witness :
  unmask_commit_number (prim := Sample.prim) OurCommitment.commit_tx LOCAL
                       [11; 1] [41] = Ok 5.
Proof.
  apply (unmask_commit_number_roundtrip (prim := Sample.prim)
           OurCommitment.commit_tx LOCAL [11; 1] [41]
           (mk_input 1 0 2147483648 None None) 5);
    reflexivity.
Defined.

(** ** More on recognising a mutual close *)

Lemma NoDup_sides_length (sides : list side) :
  NoDup sides -> (length sides <= 2)%nat.
Proof.
  intros N. destruct sides as [|a [|b [|c rest]]]; simpl; try lia.
  exfalso.
  inversion N as [|? ? Na N1]; subst.
  inversion N1 as [|? ? Nb N2]; subst.
  destruct a, b, c; simpl in Na, Nb; tauto.
Qed.

Lemma mutual_close_spec_swap (os : list bitcoin_tx_output) (l r : bytes)
    (sides : list side) :
  NoDup sides ->
  Forall2 (fun o s => script o = closing_script l r s) os sides ->
  NoDup (map other_side sides)
  /\ Forall2 (fun o s => script o = closing_script r l s) os
             (map other_side sides).
Proof.
  intros N F. split; [apply NoDup_map_other_side; exact N|].
  clear N. induction F as [|o s os sides Ho _ IH]; simpl; constructor;
    [|exact IH].
  rewrite Ho. destruct s; reflexivity.
Qed.

(** X5: a transaction with more than two outputs is never taken for a
    mutual close. *)
Theorem is_mutual_close_at_most_two_outputs (tx : bitcoin_tx) (l r : bytes) :
  is_mutual_close tx l r = true -> (length (output tx) <= 2)%nat.
Proof.
  unfold is_mutual_close. intros H.
  apply is_mutual_close_from_sound in H.
  destruct H as (sides & N & _ & _ & F).
  rewrite (Forall2_length F). apply NoDup_sides_length. exact N.
Qed.

Lemma is_mutual_close_at_most_two_outputs_witness :
  Nat.le (length (output (mk_tx 0 [] [mk_output 1 [7]; mk_output 2 [8]]))) 2.
Proof.
  apply (is_mutual_close_at_most_two_outputs
           (mk_tx 0 [] [mk_output 1 [7]; mk_output 2 [8]]) [8] [7]).
  reflexivity.
Defined.

(** X6: the answer of [is_mutual_close] does not depend on which of the
    two closing scriptpubkeys is called local and which remote. *)
Theorem is_mutual_close_symmetric (tx : bitcoin_tx) (l r : bytes) :
  is_mutual_close tx l r = is_mutual_close tx r l.
Proof.
  unfold is_mutual_close.
  destruct (is_mutual_close_from (output tx) l r false false) eqn:A;
    destruct (is_mutual_close_from (output tx) r l false false) eqn:B;
    try reflexivity.
  - apply is_mutual_close_from_sound in A.
    destruct A as (sides & N & _ & _ & F).
    destruct (mutual_close_spec_swap _ _ _ _ N F) as [N' F'].
    rewrite (is_mutual_close_from_complete _ _ _ _ false false N') in B;
      [discriminate|discriminate|discriminate|exact F'].
  - apply is_mutual_close_from_sound in B.
    destruct B as (sides & N & _ & _ & F).
    destruct (mutual_close_spec_swap _ _ _ _ N F) as [N' F'].
    rewrite (is_mutual_close_from_complete _ _ _ _ false false N') in A;
      [discriminate|discriminate|discriminate|exact F'].
Qed.

(** X7: the answer of [is_mutual_close] does not depend on the order of
    the outputs. *)
Theorem is_mutual_close_permutation (tx tx' : bitcoin_tx) (l r : bytes) :
  Permutation (output tx) (output tx') ->
  is_mutual_close tx l r = is_mutual_close tx' l r.
Proof.
  intros P. unfold is_mutual_close.
  destruct (is_mutual_close_from (output tx) l r false false) eqn:A;
    destruct (is_mutual_close_from (output tx') l r false false) eqn:B;
    try reflexivity.
  - apply is_mutual_close_from_sound in A.
    destruct A as (sides & N & _ & _ & F).
    destruct (Permutation_Forall2 P F) as (sides' & Ps & F').
    rewrite (is_mutual_close_from_complete _ _ _ sides' false false) in B;
      [discriminate|exact (Permutation_NoDup Ps N)|discriminate|discriminate
      |exact F'].
  - apply is_mutual_close_from_sound in B.
    destruct B as (sides & N & _ & _ & F).
    destruct (Permutation_Forall2 (Permutation_sym P) F) as (sides' & Ps & F').
    rewrite (is_mutual_close_from_complete _ _ _ sides' false false) in A;
      [discriminate|exact (Permutation_NoDup Ps N)|discriminate|discriminate
      |exact F'].
Qed.

Lemma is_mutual_close_permutation_witness :
  is_mutual_close (mk_tx 0 [] [mk_output 1 [7]; mk_output 2 [8]]) [7] [8]
  = is_mutual_close (mk_tx 0 [] [mk_output 2 [8]; mk_output 1 [7]]) [7] [8].
Proof.
  apply (is_mutual_close_permutation
           (mk_tx 0 [] [mk_output 1 [7]; mk_output 2 [8]])
           (mk_tx 0 [] [mk_output 2 [8]; mk_output 1 [7]]) [7] [8]).
  simpl. apply perm_swap.
Defined.

(** ** More on the single-stage sweep *)

(** X8: an output that [tx_to_us] keeps is worth at least the dust limit
    and at most the amount swept, as long as [dust_limit + fee] does not
    overflow; and the sweep has at most that one output. *)
Theorem tx_to_us_output_above_dust {prim : Primitives} (out : tracked_output)
    (to_self_delay locktime feerate dust_limit : Z)
    (wscript our_wallet_pubkey privkey pubkey : bytes) :
  let fee :=
    tx_to_us_fee feerate
      (tx_to_us_skeleton out to_self_delay locktime our_wallet_pubkey)
      wscript in
  let tx := tx_to_us out to_self_delay locktime feerate dust_limit wscript
                     our_wallet_pubkey privkey pubkey in
  is_u64 (satoshi out) ->
  0 <= dust_limit ->
  dust_limit + fee < 2 ^ 64 ->
  (length (output tx) <= 1)%nat
  /\ Forall (fun o => dust_limit <= amount o <= satoshi out
                      /\ amount o = satoshi out - fee
                      /\ script o = scriptpubkey_p2wpkh our_wallet_pubkey)
            (output tx).
Proof.
  intros fee tx Hs Hd Hov. unfold is_u64 in Hs.
  assert (Hfee : 0 <= fee).
  { unfold fee, tx_to_us_fee. apply Z.div_pos; [apply u64_range|lia]. }
  subst tx. unfold tx_to_us. cbn [output]. fold fee.
  rewrite (u64_small (dust_limit + fee)) by lia.
  destruct (Z.ltb_spec (satoshi out) (dust_limit + fee)).
  - split; [simpl; lia|constructor].
  - split; [simpl; lia|]. constructor; [|constructor].
    cbn [amount script]. rewrite u64_small by lia.
    repeat split; lia.
Qed.

Lemma tx_to_us_output_above_dust_witness :
  Forall (fun o => 546 <= amount o <= 954) (output sweep_at_threshold).
Proof.
  destruct (tx_to_us_output_above_dust (prim := Sample.prim)
              (new_tracked_output 7 500 THEIR_UNILATERAL 0 954 OUR_HTLC)
              0 600 1000 546 [1; 2; 3] [8] [9] [6]) as [_ F].
  - unfold is_u64. simpl. lia.
  - lia.
  - vm_compute. reflexivity.
  - revert F. apply Forall_impl. intros o (B & _). exact B.
Defined.

(** ** What the brute-force search returns *)

Section FeerateSearchResult.

Context {prim : Primitives}.
Variables (out : tracked_output) (ks : keyset).
Variables (skeleton : bitcoin_tx) (wscript sig : bytes).

Hypothesis skeleton_output : output skeleton <> [].
Hypothesis amount_range : is_u64 (satoshi out).

(** The signature validates the HTLC-timeout transaction carrying the fee
    of feerate [j]. *)
Let validates (j : Z) : bool :=
  check_tx_sig (with_amount skeleton (satoshi out - htlc_timeout_fee j))
               0 wscript (other_payment_key ks) sig.

(** [n] turns of the loop from [i] downwards: a match is a validated
    feerate among those visited and the largest such; no match means that
    none of them validates. *)
Lemma find_feerate_visits (n : nat) :
  forall i prev_fee tx,
    Z.of_nat n <= i + 1 ->
    i < 2 ^ 32 ->
    (forall a, set_output0_amount tx a = Ok (with_amount skeleton a)) ->
    (forall j, 0 <= j < 2 ^ 32 -> htlc_timeout_fee j = prev_fee ->
               htlc_timeout_fee j <= satoshi out -> validates j = false) ->
    match find_feerate n i prev_fee out tx wscript (Some sig) ks with
    | Ok (Some m) =>
        i - Z.of_nat n < found_feerate m <= i
        /\ found_fee m = htlc_timeout_fee (found_feerate m)
        /\ found_fee m <= satoshi out
        /\ found_tx m = with_amount skeleton (satoshi out - found_fee m)
        /\ validates (found_feerate m) = true
        /\ (forall j, found_feerate m < j <= i ->
                      htlc_timeout_fee j <= satoshi out ->
                      validates j = false)
    | Ok None =>
        forall j, i - Z.of_nat n < j <= i ->
                  htlc_timeout_fee j <= satoshi out -> validates j = false
    | StatusFailed _ => False
    | Undefined _ => False
    end.
Proof.
  unfold is_u64 in amount_range.
  induction n as [|n IH]; intros i prev_fee tx Hn Hi Htx Hprev.
  - cbn [find_feerate]. intros j Hj. lia.
  - assert (Hi32 : 0 <= i < 2 ^ 32) by lia.
    pose proof (htlc_timeout_fee_bounds i Hi32) as [Hfi _].
    assert (Step :
      forall prev' tx',
        (forall a, set_output0_amount tx' a = Ok (with_amount skeleton a)) ->
        (forall j, 0 <= j < 2 ^ 32 -> htlc_timeout_fee j = prev' ->
                   htlc_timeout_fee j <= satoshi out -> validates j = false) ->
        (htlc_timeout_fee i <= satoshi out -> validates i = false) ->
        match find_feerate n (i - 1) prev' out tx' wscript (Some sig) ks with
        | Ok (Some m) =>
            i - Z.of_nat (S n) < found_feerate m <= i
            /\ found_fee m = htlc_timeout_fee (found_feerate m)
            /\ found_fee m <= satoshi out
            /\ found_tx m = with_amount skeleton (satoshi out - found_fee m)
            /\ validates (found_feerate m) = true
            /\ (forall j, found_feerate m < j <= i ->
                          htlc_timeout_fee j <= satoshi out ->
                          validates j = false)
        | Ok None =>
            forall j, i - Z.of_nat (S n) < j <= i ->
                      htlc_timeout_fee j <= satoshi out -> validates j = false
        | StatusFailed _ => False
        | Undefined _ => False
        end).
    { intros prev' tx' Htx' Hprev' Hhere.
      specialize (IH (i - 1) prev' tx' ltac:(lia) ltac:(lia) Htx' Hprev').
      destruct (find_feerate n (i - 1) prev' out tx' wscript (Some sig) ks)
        as [[m|]| |]; try exact IH.
      - destruct IH as (R & E1 & E2 & E3 & V & Mx).
        repeat split; try assumption; try lia.
        intros j Hj Hf. destruct (Z.eq_dec j i) as [->|Ne]; [auto|].
        apply Mx; [lia|exact Hf].
      - intros j Hj Hf. destruct (Z.eq_dec j i) as [->|Ne]; [auto|].
        apply IH; [lia|exact Hf]. }
    cbn [find_feerate].
    destruct (Z.gtb_spec (htlc_timeout_fee i) (satoshi out)) as [G|G].
    { apply Step; auto. intros. lia. }
    destruct (Z.eqb_spec (htlc_timeout_fee i) prev_fee) as [E|E].
    { apply Step; auto. }
    rewrite Htx. cbn [bind].
    rewrite (u64_small (satoshi out - htlc_timeout_fee i)) by lia.
    destruct (check_tx_sig
                (with_amount skeleton (satoshi out - htlc_timeout_fee i))
                0 wscript (other_payment_key ks) sig) eqn:C; cbn [negb].
    + cbn [found_feerate found_fee found_tx].
      repeat split; try lia; try reflexivity; try exact C.
    + apply Step.
      * intros a. rewrite set_output0_amount_with_amount
          by (apply with_amount_output; exact skeleton_output).
        rewrite with_amount_twice. reflexivity.
      * intros j _ Ej _. unfold validates. rewrite Ej. exact C.
      * intros _. exact C.
Qed.

Lemma find_feerate_range_visits (lo hi : Z) :
  0 <= lo -> 0 <= hi < 2 ^ 32 ->
  match find_feerate (Z.to_nat (hi - lo + 1)) hi UINT64_MAX out skeleton
                     wscript (Some sig) ks with
  | Ok (Some m) =>
      lo <= found_feerate m <= hi
      /\ found_fee m = htlc_timeout_fee (found_feerate m)
      /\ found_fee m <= satoshi out
      /\ found_tx m = with_amount skeleton (satoshi out - found_fee m)
      /\ validates (found_feerate m) = true
      /\ (forall j, found_feerate m < j <= hi ->
                    htlc_timeout_fee j <= satoshi out -> validates j = false)
  | Ok None =>
      forall j, lo <= j <= hi ->
                htlc_timeout_fee j <= satoshi out -> validates j = false
  | StatusFailed _ => False
  | Undefined _ => False
  end.
Proof.
  intros Hlo Hhi.
  pose proof (find_feerate_visits (Z.to_nat (hi - lo + 1)) hi UINT64_MAX
                skeleton) as V.
  assert (Hprev : forall j, 0 <= j < 2 ^ 32 ->
            htlc_timeout_fee j = UINT64_MAX ->
            htlc_timeout_fee j <= satoshi out -> validates j = false).
  { intros j Hj E _. exfalso.
    pose proof (htlc_timeout_fee_bounds j Hj) as [B _].
    unfold UINT64_MAX in E.
    assert (2 ^ 32 < 2 ^ 64 - 1) by (vm_compute; reflexivity). lia. }
  specialize (V ltac:(lia) ltac:(lia)
                (fun a => set_output0_amount_with_amount skeleton a
                            skeleton_output) Hprev).
  destruct (find_feerate (Z.to_nat (hi - lo + 1)) hi UINT64_MAX out skeleton
                         wscript (Some sig) ks) as [[m|]| |]; try exact V.
  - destruct V as (R & Rest). split; [lia|exact Rest].
  - intros j Hj. apply V. lia.
Qed.

End FeerateSearchResult.

Lemma set_input0_witness_ok (tx : bitcoin_tx) (w : list bytes) :
  input tx <> [] ->
  exists tx', set_input0_witness tx w = Ok tx' /\ output tx' = output tx.
Proof.
  unfold set_input0_witness. destruct (input tx); [congruence|].
  intros _. eexists. split; reflexivity.
Qed.

(** X9: when [resolve_our_htlc_ourcommit] returns, the HTLC-timeout
    transaction it proposes carries the fee of a feerate [F] of the range
    at which the counterparty signature validates, [F] is the largest such
    feerate, and the range returned is the range narrowed by that fee. *)
Theorem resolve_our_htlc_ourcommit_validated {prim : Primitives}
    (out : tracked_output) (htlc : htlc_stub) (to_self_delay : Z)
    (fr : feerate_range) (local_payment_privkey remotesig : bytes)
    (ks : keyset) (out' : tracked_output) (fr' : feerate_range) :
  let skeleton :=
    htlc_timeout_tx (txid out) (outnum out) (u64 (satoshi out * 1000))
                    (cltv_expiry htlc) to_self_delay 0 ks in
  let wscript :=
    bitcoin_wscript_htlc_offer_ripemd160 (self_payment_key ks)
      (other_payment_key ks) (ripemd htlc) (self_revocation_key ks) in
  let validates := fun j =>
    check_tx_sig (with_amount skeleton (satoshi out - htlc_timeout_fee j))
                 0 wscript (other_payment_key ks) remotesig in
  output skeleton <> [] ->
  is_u64 (satoshi out) ->
  0 <= min fr ->
  0 <= max fr < 2 ^ 32 ->
  resolve_our_htlc_ourcommit out htlc to_self_delay fr local_payment_privkey
                             (Some remotesig) ks = Ok (out', fr') ->
  exists F p tx',
    min fr <= F <= max fr
    /\ htlc_timeout_fee F <= satoshi out
    /\ validates F = true
    /\ (forall j, F < j <= max fr -> htlc_timeout_fee j <= satoshi out ->
                  validates j = false)
    /\ proposal out' = Some p
    /\ prop_tx p = Some tx'
    /\ option_map amount (hd_error (output tx'))
       = Some (satoshi out - htlc_timeout_fee F)
    /\ narrow_feerate_range fr (htlc_timeout_fee F) 663 = Ok fr'.
Proof.
  intros skeleton wscript validates Hout Hsat Hlo Hhi H.
  pose proof (find_feerate_range_visits out ks skeleton wscript remotesig
                Hout Hsat (min fr) (max fr) Hlo Hhi) as V.
  unfold resolve_our_htlc_ourcommit in H. fold skeleton in H.
  fold wscript in H.
  destruct (find_feerate _ _ _ _ _ _ _ _) as [[m|]| |]; cbn [bind] in H;
    try discriminate.
  destruct V as (R & E1 & E2 & E3 & Vd & Mx).
  destruct (narrow_feerate_range fr (found_fee m) 663) as [fr1| |] eqn:N;
    cbn [bind] in H; try discriminate.
  destruct (set_input0_witness _ _) as [tx1| |] eqn:W; cbn [bind] in H;
    try discriminate.
  inversion H; subst out' fr'.
  exists (found_feerate m). do 2 eexists.
  split; [exact R|]. split; [rewrite <- E1; exact E2|].
  split; [exact Vd|]. split; [exact Mx|].
  split; [reflexivity|]. split; [reflexivity|].
  split; [|rewrite <- E1; exact N].
  unfold set_input0_witness in W. rewrite E3 in W.
  destruct (input (with_amount skeleton (satoshi out - found_fee m)));
    [discriminate|].
  inversion W; subst tx1. cbn [output]. unfold with_amount. cbn [output].
  destruct (output skeleton) as [|o0 rest]; [congruence|].
  rewrite E1. reflexivity.
Qed.

Lemma resolve_our_htlc_ourcommit_validated_witness :
  exists F, 0 <= F <= 5000 /\ htlc_timeout_fee F <= 100000.
Proof.
  assert (E : exists o f, OfferedHtlc.resolved = Ok (o, f))
    by (vm_compute; eauto).
  destruct E as (o & f & E).
  destruct (resolve_our_htlc_ourcommit_validated (prim := Sample.prim)
              OfferedHtlc.out OfferedHtlc.htlc 144 OfferedHtlc.fr [9]
              OfferedHtlc.remotesig OfferedHtlc.ks o f)
    as (F & p & tx' & R & B & _).
  - simpl. discriminate.
  - unfold is_u64. simpl. lia.
  - simpl. lia.
  - simpl. lia.
  - exact E.
  - exists F. split; [exact R|exact B].
Defined.

(** X10: with a well-formed HTLC-timeout skeleton, [resolve_our_htlc_ourcommit]
    fails, and then with an internal error, exactly when the signature
    validates at no feerate of the range whose fee the output can pay; an
    empty range is the case where there is no feerate at all. *)
Theorem resolve_our_htlc_ourcommit_fails_iff {prim : Primitives}
    (out : tracked_output) (htlc : htlc_stub) (to_self_delay : Z)
    (fr : feerate_range) (local_payment_privkey remotesig : bytes)
    (ks : keyset) :
  let skeleton :=
    htlc_timeout_tx (txid out) (outnum out) (u64 (satoshi out * 1000))
                    (cltv_expiry htlc) to_self_delay 0 ks in
  let wscript :=
    bitcoin_wscript_htlc_offer_ripemd160 (self_payment_key ks)
      (other_payment_key ks) (ripemd htlc) (self_revocation_key ks) in
  let validates := fun j =>
    check_tx_sig (with_amount skeleton (satoshi out - htlc_timeout_fee j))
                 0 wscript (other_payment_key ks) remotesig in
  let result :=
    resolve_our_htlc_ourcommit out htlc to_self_delay fr
      local_payment_privkey (Some remotesig) ks in
  output skeleton <> [] ->
  input skeleton <> [] ->
  is_u64 (satoshi out) ->
  0 <= min fr ->
  0 <= max fr < 2 ^ 32 ->
  ((forall j, min fr <= j <= max fr -> htlc_timeout_fee j <= satoshi out ->
              validates j = false)
   <-> result = StatusFailed WIRE_ONCHAIN_INTERNAL_ERROR)
  /\ ((exists j, min fr <= j <= max fr /\ htlc_timeout_fee j <= satoshi out
                 /\ validates j = true)
      <-> exists out' fr', result = Ok (out', fr')).
Proof.
  intros skeleton wscript validates result Hout Hin Hsat Hlo Hhi.
  pose proof (find_feerate_range_visits out ks skeleton wscript remotesig
                Hout Hsat (min fr) (max fr) Hlo Hhi) as V.
  unfold result, resolve_our_htlc_ourcommit. fold skeleton. fold wscript.
  destruct (find_feerate _ _ _ _ _ _ _ _) as [[m|]| |]; cbn [bind];
    try contradiction.
  - destruct V as (R & E1 & E2 & E3 & Vd & Mx).
    unfold narrow_feerate_range. cbn [Z.eqb bind].
    destruct (set_input0_witness_ok (found_tx m)
                (bitcoin_htlc_offer_spend_timeout
                   (sign_tx_input (found_tx m) 0 wscript
                      local_payment_privkey (self_payment_key ks))
                   remotesig wscript)) as (tx1 & W & _).
    { rewrite E3. exact Hin. }
    rewrite W. cbn [bind].
    split; split.
    + intros Hno.
      assert (Hf : htlc_timeout_fee (found_feerate m) <= satoshi out)
        by (rewrite <- E1; exact E2).
      specialize (Hno _ R Hf). unfold validates in Hno.
      rewrite Hno in Vd. discriminate.
    + discriminate.
    + intros _. do 2 eexists. reflexivity.
    + intros _. exists (found_feerate m).
      split; [exact R|]. split; [rewrite <- E1; exact E2|exact Vd].
  - split; split.
    + reflexivity.
    + intros _. exact V.
    + intros (j & Hj & Hf & Hv). unfold validates in Hv.
      rewrite (V j Hj Hf) in Hv. discriminate.
    + intros (o & f & E). discriminate.
Qed.

Lemma resolve_our_htlc_ourcommit_fails_iff_witness :
  resolve_our_htlc_ourcommit (prim := Sample.prim) OfferedHtlc.out
    OfferedHtlc.htlc 144 (mk_range 5000 4000) [9] (Some OfferedHtlc.remotesig)
    OfferedHtlc.ks
  = StatusFailed WIRE_ONCHAIN_INTERNAL_ERROR.
Proof.
  apply (resolve_our_htlc_ourcommit_fails_iff (prim := Sample.prim)
           OfferedHtlc.out OfferedHtlc.htlc 144 (mk_range 5000 4000) [9]
           OfferedHtlc.remotesig OfferedHtlc.ks).
  - simpl. discriminate.
  - simpl. discriminate.
  - unfold is_u64. simpl. lia.
  - simpl. lia.
  - simpl. lia.
  - simpl. intros j Hj. lia.
Defined.

(** ** Deriving and matching the HTLC scripts *)

(** X11: [derive_htlc_scripts] returns one script per HTLC stub, in the
    order of the stubs and none of them null: the offered script for an
    HTLC of side [s], the received script with the converted expiry for
    the others.  It fails, with an internal error, exactly when the expiry
    of an HTLC of the other side has no locktime. *)
Theorem derive_htlc_scripts_shape {prim : Primitives} (htlcs : list htlc_stub)
    (s : side) (ks : keyset) :
  match derive_htlc_scripts htlcs s ks with
  | Ok ws =>
      Forall2 (fun h w =>
                 if side_eqb (owner h) s
                 then w = Some (htlc_offered_wscript (ripemd h) ks)
                 else exists ltime,
                        blocks_to_abs_locktime (cltv_expiry h) = Some ltime
                        /\ w = Some (htlc_received_wscript (ripemd h) ltime ks))
              htlcs ws
  | StatusFailed f =>
      f = WIRE_ONCHAIN_INTERNAL_ERROR
      /\ Exists (fun h => side_eqb (owner h) s = false
                          /\ blocks_to_abs_locktime (cltv_expiry h) = None)
                htlcs
  | Undefined _ => False
  end.
Proof.
  induction htlcs as [|h htlcs IH]; cbn [derive_htlc_scripts].
  - constructor.
  - destruct (side_eqb (owner h) s) eqn:E; cbn [bind].
    + destruct (derive_htlc_scripts htlcs s ks) as [ws|f|u]; cbn [bind].
      * constructor; [rewrite E; reflexivity|exact IH].
      * destruct IH as [Ef Ex]. split; [exact Ef|]. right. exact Ex.
      * exact IH.
    + destruct (blocks_to_abs_locktime (cltv_expiry h)) as [ltime|] eqn:L;
        cbn [bind].
      * destruct (derive_htlc_scripts htlcs s ks) as [ws|f|u]; cbn [bind].
        -- constructor; [|exact IH]. rewrite E. exists ltime.
           split; [exact L|reflexivity].
        -- destruct IH as [Ef Ex]. split; [exact Ef|]. right. exact Ex.
        -- exact IH.
      * split; [reflexivity|]. left. split; assumption.
Qed.

Lemma match_htlc_from_first {prim : Primitives} (target : bytes)
    (hs : list (option bytes)) :
  forall i,
    match match_htlc_from target hs i with
    | Some j =>
        (i <= j)%nat
        /\ (exists w, nth_error hs (j - i) = Some (Some w)
                      /\ skipn 2 target = sha256 w)
        /\ forall k w, (k < j - i)%nat -> nth_error hs k = Some (Some w) ->
                       skipn 2 target <> sha256 w
    | None =>
        forall k w, nth_error hs k = Some (Some w) ->
                    skipn 2 target <> sha256 w
    end.
Proof.
  induction hs as [|[w|] hs IH]; intros i; cbn [match_htlc_from].
  - intros k w H. destruct k; discriminate.
  - destruct (memeq (skipn 2 target) (sha256 w)) eqn:M.
    + apply bytes_eqb_eq in M. split; [lia|]. rewrite Nat.sub_diag. split.
      * exists w. split; [reflexivity|exact M].
      * intros k w' Hk. lia.
    + assert (Hne : skipn 2 target <> sha256 w).
      { intros E. unfold memeq in M. rewrite E, bytes_eqb_refl in M.
        discriminate. }
      specialize (IH (S i)).
      destruct (match_htlc_from target hs (S i)) as [j|].
      * destruct IH as (L & (w' & E1 & E2) & F). split; [lia|].
        replace (j - i)%nat with (S (j - S i)) by lia. split.
        -- exists w'. split; assumption.
        -- intros k w0 Hk Hn. destruct k as [|k].
           ++ simpl in Hn. inversion Hn; subst. exact Hne.
           ++ apply (F k w0); [lia|exact Hn].
      * intros k w0 Hn. destruct k as [|k].
        -- simpl in Hn. inversion Hn; subst. exact Hne.
        -- apply (IH k w0). exact Hn.
  - specialize (IH (S i)).
    destruct (match_htlc_from target hs (S i)) as [j|].
    + destruct IH as (L & (w' & E1 & E2) & F). split; [lia|].
      replace (j - i)%nat with (S (j - S i)) by lia. split.
      * exists w'. split; assumption.
      * intros k w0 Hk Hn. destruct k as [|k]; [discriminate|].
        apply (F k w0); [lia|exact Hn].
    + intros k w0 Hn. destruct k as [|k]; [discriminate|].
      apply (IH k w0). exact Hn.
Qed.

(** X12: [match_htlc_output] returns the first index whose matcher is not
    null and whose script hashes to the program of the output, and only
    for a P2WSH output; it returns -1 when the output is not P2WSH or no
    live matcher fits. *)
Theorem match_htlc_output_first {prim : Primitives} (o : bitcoin_tx_output)
    (hs : list (option bytes)) :
  match match_htlc_output o hs with
  | Some j =>
      is_p2wsh (script o) = true
      /\ (exists w, nth_error hs j = Some (Some w)
                    /\ skipn 2 (script o) = sha256 w)
      /\ forall k w, (k < j)%nat -> nth_error hs k = Some (Some w) ->
                     skipn 2 (script o) <> sha256 w
  | None =>
      is_p2wsh (script o) = false
      \/ forall k w, nth_error hs k = Some (Some w) ->
                     skipn 2 (script o) <> sha256 w
  end.
Proof.
  unfold match_htlc_output.
  destruct (is_p2wsh (script o)); cbn [negb]; [|left; reflexivity].
  pose proof (match_htlc_from_first (script o) hs 0%nat) as F.
  destruct (match_htlc_from (script o) hs 0) as [j|].
  - rewrite Nat.sub_0_r in F. destruct F as (_ & W & M).
    split; [reflexivity|]. split; assumption.
  - right. exact F.
Qed.

(** X13: a matcher that has been nullified is never returned again: the
    HTLC matchers are single-shot. *)
Theorem match_htlc_output_not_nullified {prim : Primitives}
    (o : bitcoin_tx_output) (hs : list (option bytes)) (j : nat) :
  match_htlc_output o (nullify hs j) <> Some j.
Proof.
  intros H. apply match_htlc_output_script in H. destruct H as (w & E).
  assert (L : (j < length (nullify hs j))%nat)
    by (apply nth_error_Some; congruence).
  assert (Len : forall (l : list (option bytes)) k,
            length (nullify l k) = length l).
  { induction l as [|x l IH]; intros k; [destruct k; reflexivity|].
    destruct k; simpl; [reflexivity|]. f_equal. apply IH. }
  rewrite Len in L. rewrite (nullify_at hs j L) in E. discriminate.
Qed.

(** ** What the handler of our own commitment tracks *)

Lemma find_feerate_needs_sig {prim : Primitives} (n : nat) :
  forall i prev out tx wscript ks m,
    find_feerate n i prev out tx wscript None ks <> Ok (Some m).
Proof.
  induction n as [|n IH]; intros i prev out tx wscript ks m;
    cbn [find_feerate]; [discriminate|].
  destruct (_ >? _); [apply IH|].
  destruct (_ =? _); [apply IH|].
  destruct (set_output0_amount _ _); cbn [bind]; discriminate.
Qed.

Lemma narrow_feerate_range_within (fr fr' : feerate_range) (fee mult : Z) :
  narrow_feerate_range fr fee mult = Ok fr' ->
  min fr <= min fr' /\ max fr' <= max fr.
Proof.
  unfold narrow_feerate_range. destruct (mult =? 0); [discriminate|].
  intros H. inversion H; subst. clear H. cbn [min max]. split.
  - match goal with
    | |- _ <= (if ?a >? ?b then _ else _) => destruct (Z.gtb_spec a b); lia
    end.
  - match goal with
    | |- (if ?a <? ?b then _ else _) <= _ => destruct (Z.ltb_spec a b); lia
    end.
Qed.

(** What a successful call of the resolver leaves: the output with a
    proposal, one signature read, a range within the old one. *)
Lemma resolve_our_htlc_ourcommit_effect {prim : Primitives}
    out htlc to_self_delay fr privkey remotesig ks out' fr' :
  resolve_our_htlc_ourcommit out htlc to_self_delay fr privkey remotesig ks
  = Ok (out', fr') ->
  (exists p, out' = set_proposal out (Some p))
  /\ remotesig <> None
  /\ min fr <= min fr' /\ max fr' <= max fr.
Proof.
  unfold resolve_our_htlc_ourcommit. intros H.
  destruct (find_feerate _ _ _ _ _ _ _ _) as [[m|]| |] eqn:F;
    cbn [bind] in H; try discriminate.
  destruct (narrow_feerate_range _ _ _) as [fr1| |] eqn:N; cbn [bind] in H;
    try discriminate.
  destruct remotesig as [sig|]; cbn [bind] in H; try discriminate.
  destruct (set_input0_witness _ _); cbn [bind] in H; try discriminate.
  inversion H; subst. split; [eexists; reflexivity|].
  split; [discriminate|]. exact (narrow_feerate_range_within _ _ _ _ N).
Qed.

Lemma our_unilateral_output_step {prim : Primitives}
    tx_height txid_ wallet delay feerate dust htlcs ks wscript k1 k2 m i o m' :
  our_unilateral_output tx_height txid_ wallet delay feerate dust htlcs ks
                        wscript k1 k2 m i o = Ok m' ->
  exists t,
    outs m' = outs m ++ [t]
    /\ tracks_output OUR_UNILATERAL txid_ tx_height (i, o) t
    /\ htlc_sigs m' = skipn (our_htlcs [t]) (htlc_sigs m)
    /\ (our_htlcs [t] <= length (htlc_sigs m))%nat
    /\ min (range m) <= min (range m') /\ max (range m') <= max (range m).
Proof.
  unfold our_unilateral_output. intros H.
  destruct (matches (script_local m) (script o)).
  { inversion H; subst. eexists. split; [reflexivity|].
    repeat split; unfold our_htlcs; cbn; try reflexivity; lia. }
  destruct (matches (script_remote m) (script o)).
  { inversion H; subst. eexists. split; [reflexivity|].
    repeat split; unfold our_htlcs; cbn; try reflexivity; lia. }
  destruct (match_htlc_output o (htlc_scripts m)) as [j|]; [|discriminate].
  destruct (at_index htlcs j) as [h| |]; cbn [bind] in H; try discriminate.
  destruct (owner h).
  - destruct (resolve_our_htlc_ourcommit _ _ _ _ _ _ _) as [[out' fr']| |]
      eqn:R; cbn [bind] in H; try discriminate.
    apply resolve_our_htlc_ourcommit_effect in R.
    destruct R as ((p & ->) & Hsig & Hmin & Hmax).
    inversion H; subst. eexists. split; [reflexivity|].
    cbn [htlc_sigs range].
    destruct (htlc_sigs m) as [|s rest]; [contradiction Hsig; reflexivity|].
    repeat split; unfold our_htlcs; cbn; try reflexivity; lia.
  - inversion H; subst. eexists. split; [reflexivity|].
    repeat split; unfold our_htlcs; cbn; try reflexivity; lia.
Qed.

Lemma our_htlcs_app (a b : list tracked_output) :
  our_htlcs (a ++ b) = (our_htlcs a + our_htlcs b)%nat.
Proof. unfold our_htlcs. rewrite filter_app, length_app. reflexivity. Qed.

Lemma our_unilateral_outputs_steps {prim : Primitives}
    tx_height txid_ wallet delay feerate dust htlcs ks wscript k1 k2 os :
  forall i m m',
    our_unilateral_outputs tx_height txid_ wallet delay feerate dust htlcs ks
                           wscript k1 k2 os i m = Ok m' ->
    exists new,
      outs m' = outs m ++ new
      /\ Forall2 (tracks_output OUR_UNILATERAL txid_ tx_height)
                 (combine (seq i (length os)) os) new
      /\ htlc_sigs m' = skipn (our_htlcs new) (htlc_sigs m)
      /\ (our_htlcs new <= length (htlc_sigs m))%nat
      /\ min (range m) <= min (range m') /\ max (range m') <= max (range m).
Proof.
  induction os as [|o os IH]; intros i m m' H; cbn [our_unilateral_outputs] in H.
  - inversion H; subst. exists []. rewrite app_nil_r.
    split; [reflexivity|]. split; [constructor|].
    unfold our_htlcs. cbn. repeat split; try reflexivity; lia.
  - destruct (our_unilateral_output _ _ _ _ _ _ _ _ _ _ _ m i o) as [m1| |]
      eqn:E; cbn [bind] in H; try discriminate.
    apply our_unilateral_output_step in E.
    destruct E as (t & E1 & T & S1 & L1 & B1 & B2).
    apply IH in H. destruct H as (new & E2 & F & S2 & L2 & B3 & B4).
    exists (t :: new). split; [rewrite E2, E1, <- app_assoc; reflexivity|].
    split; [simpl; constructor; assumption|].
    change (t :: new) with ([t] ++ new). rewrite our_htlcs_app.
    rewrite S2, S1, skipn_skipn, Nat.add_comm.
    rewrite S1, length_skipn in L2.
    repeat split; try lia.
Qed.

(** X14: the handler of our own commitment tracks, after the funding
    output, exactly one output per output of the commitment transaction,
    in order: each with the commitment's txid and height, its index and
    its amount. *)
Theorem our_unilateral_tracks_every_output {prim : Primitives}
    tx tx_height txid_ sec shaseed b1 b2 b3 b4 wallet delay commit_num
    feerate dust htlcs sigs funding rest outs1 :
  our_unilateral_tracks tx tx_height txid_ sec shaseed b1 b2 b3 b4 wallet
    delay commit_num feerate dust htlcs sigs (funding :: rest) = Ok outs1 ->
  exists new,
    outs1 = resolved_by_other funding txid_ OUR_UNILATERAL :: rest ++ new
    /\ Forall2 (tracks_output OUR_UNILATERAL txid_ tx_height)
               (combine (seq 0 (length (output tx))) (output tx)) new.
Proof.
  unfold our_unilateral_tracks. intros H.
  repeat match type of H with
         | bind ?m _ = Ok _ =>
             destruct m eqn:?; cbn [bind] in H; try discriminate
         end.
  inversion H; subst.
  match goal with
  | E : our_unilateral_outputs _ _ _ _ _ _ _ _ _ _ _ _ _ _ = Ok _ |- _ =>
      apply our_unilateral_outputs_steps in E;
      destruct E as (new & E1 & F & _)
  end.
  exists new. split; [exact E1|exact F].
Qed.


(** X16: through the output loop of the handler of our own commitment
    the feerate range only shrinks. *)
Theorem our_unilateral_outputs_range_shrinks {prim : Primitives}
    tx_height txid_ wallet delay feerate dust htlcs ks wscript k1 k2 os i
    m m' :
  our_unilateral_outputs tx_height txid_ wallet delay feerate dust htlcs ks
                         wscript k1 k2 os i m = Ok m' ->
  min (range m) <= min (range m') /\ max (range m') <= max (range m).
Proof.
  intros H. apply our_unilateral_outputs_steps in H.
  destruct H as (new & _ & _ & _ & _ & B). exact B.
Qed.

(** On the commitment with one offered HTLC the loop tracks two outputs,
    reads the one signature and narrows the range 0..5000 to 0..2509. *)
Example our_htlc_commitment_finish :
  match OurHtlcCommitment.finish with
  | Ok m' =>
      map out_output_type (outs m')
      = [FUNDING_OUTPUT; DELAYED_OUTPUT_TO_US; OUR_HTLC]
      /\ htlc_sigs m' = []
      /\ range m' = mk_range 0 2509
  | _ => False
  end.
Proof. vm_compute. repeat split; reflexivity. Qed.

Lemma our_unilateral_tracks_every_output_witness :
  exists outs1, OurHtlcCommitment.tracks = Ok outs1 /\ length outs1 = 3%nat.
Proof.
  assert (E : exists outs1, OurHtlcCommitment.tracks = Ok outs1)
    by (vm_compute; eauto).
  destruct E as (outs1 & E). exists outs1. split; [exact E|].
  unfold OurHtlcCommitment.tracks in E.
  destruct (our_unilateral_tracks_every_output (prim := Sample.prim)
              _ _ _ _ _ _ _ _ _ _ _ _ _ _ _ _ _ _ _ E) as (new & -> & F).
  apply Forall2_length in F. simpl in F. simpl. rewrite <- F. reflexivity.
Defined.


Lemma our_unilateral_outputs_range_shrinks_witness :
  exists m',
    OurHtlcCommitment.finish = Ok m'
    /\ 0 <= min (range m') /\ max (range m') <= 5000.
Proof.
  assert (E : exists m', OurHtlcCommitment.finish = Ok m')
    by (vm_compute; eauto).
  destruct E as (m' & E). pose proof E as E'.
  unfold OurHtlcCommitment.finish in E'.
  pose proof (our_unilateral_outputs_range_shrinks (prim := Sample.prim)
                _ _ _ _ _ _ _ _ _ _ _ _ _ _ _ E') as B.
  exists m'. split; [exact E|exact B].
Defined.

(** ** What the handler of the counterparty's commitment tracks *)

Lemma their_unilateral_outputs_steps {prim : Primitives}
    tx_height txid_ wallet feerate dust htlcs ks k os :
  forall i m m',
    their_unilateral_outputs tx_height txid_ wallet feerate dust htlcs ks k
                             os i m = Ok m' ->
    exists new,
      outs m' = outs m ++ new
      /\ Forall2 (tracks_output THEIR_UNILATERAL txid_ tx_height)
                 (combine (seq i (length os)) os) new
      /\ htlc_sigs m' = htlc_sigs m
      /\ range m' = range m.
Proof.
  induction os as [|o os IH]; intros i m m' H;
    cbn [their_unilateral_outputs] in H.
  - inversion H; subst. exists []. rewrite app_nil_r.
    repeat split. constructor.
  - destruct (their_unilateral_output _ _ _ _ _ _ _ _ m i o) as [m1| |]
      eqn:E; cbn [bind] in H; try discriminate.
    apply IH in H. destruct H as (new & E2 & F & S2 & R2).
    assert (T : exists t,
               outs m1 = outs m ++ [t]
               /\ tracks_output THEIR_UNILATERAL txid_ tx_height (i, o) t
               /\ htlc_sigs m1 = htlc_sigs m /\ range m1 = range m).
    { unfold their_unilateral_output in E.
      destruct (matches (script_local m) (script o)).
      { inversion E; subst. eexists. repeat split. }
      destruct (matches (script_remote m) (script o)).
      { inversion E; subst. eexists. repeat split. }
      destruct (match_htlc_output o (htlc_scripts m)) as [j|];
        [|discriminate].
      destruct (at_index htlcs j) as [h| |]; cbn [bind] in E;
        try discriminate.
      destruct (owner h).
      - destruct (nth_error (htlc_scripts m) j) as [[w|]|]; cbn [bind] in E;
          try discriminate.
        destruct (at_index htlcs i) as [hi| |]; cbn [bind] in E;
          try discriminate.
        inversion E; subst. eexists. repeat split.
      - inversion E; subst. eexists. repeat split. }
    destruct T as (t & E1 & T & S1 & R1).
    exists (t :: new). split; [rewrite E2, E1, <- app_assoc; reflexivity|].
    split; [simpl; constructor; assumption|].
    split; congruence.
Qed.

(** X17: the handler of the counterparty's commitment tracks, after the
    funding output, exactly one output per output of the commitment
    transaction, in order: each with the commitment's txid and height,
    its index and its amount. *)
Theorem their_unilateral_tracks_every_output {prim : Primitives}
    tx tx_height txid_ sec shaseed point b1 b2 b3 b4 wallet delay commit_num
    feerate dust htlcs funding rest outs1 :
  their_unilateral_tracks tx tx_height txid_ sec shaseed point b1 b2 b3 b4
    wallet delay commit_num feerate dust htlcs (funding :: rest) = Ok outs1 ->
  exists new,
    outs1 = resolved_by_other funding txid_ THEIR_UNILATERAL :: rest ++ new
    /\ Forall2 (tracks_output THEIR_UNILATERAL txid_ tx_height)
               (combine (seq 0 (length (output tx))) (output tx)) new.
Proof.
  unfold their_unilateral_tracks. intros H.
  repeat match type of H with
         | bind ?m _ = Ok _ =>
             destruct m eqn:?; cbn [bind] in H; try discriminate
         end.
  inversion H; subst.
  match goal with
  | E : their_unilateral_outputs _ _ _ _ _ _ _ _ _ _ _ = Ok _ |- _ =>
      apply their_unilateral_outputs_steps in E;
      destruct E as (new & E1 & F & _)
  end.
  exists new. split; [exact E1|exact F].
Qed.

Lemma their_unilateral_tracks_every_output_witness :
  exists outs1,
    TheirCommitment.tracks TheirCommitment.htlc_outputs = Ok outs1
    /\ length outs1 = 3%nat.
Proof.
  assert (E : exists outs1,
             TheirCommitment.tracks TheirCommitment.htlc_outputs = Ok outs1)
    by (vm_compute; eauto).
  destruct E as (outs1 & E). exists outs1. split; [exact E|].
  unfold TheirCommitment.tracks in E.
  destruct (their_unilateral_tracks_every_output (prim := Sample.prim)
              _ _ _ _ _ _ _ _ _ _ _ _ _ _ _ _ _ _ _ E) as (new & -> & F).
  apply Forall2_length in F. simpl in F. simpl. rewrite <- F. reflexivity.
Defined.

(** ** Spend notifications *)

Lemma set_resolved_same (o : tracked_output) :
  set_resolved o (resolved o) = o.
Proof. destruct o; reflexivity. Qed.

Lemma output_spent_from_skip {prim : Primitives} (pre rest : list tracked_output)
    tx spender inp :
  Forall (passed_over inp) pre ->
  output_spent_from (pre ++ rest) tx spender inp
  = r <- output_spent_from rest tx spender inp ;;
    Ok (option_map (app pre) r).
Proof.
  induction 1 as [|o pre Ho _ IH]; cbn [app output_spent_from].
  - destruct (output_spent_from rest tx spender inp) as [[r|]| |];
      reflexivity.
  - assert (Skip :
      (r <- output_spent_from (pre ++ rest) tx spender inp ;;
       Ok (option_map (cons o) r))
      = r <- output_spent_from rest tx spender inp ;;
        Ok (option_map (app (o :: pre)) r)).
    { rewrite IH.
      destruct (output_spent_from rest tx spender inp) as [[r|]| |];
        reflexivity. }
    destruct (resolved o) eqn:E; [exact Skip|].
    destruct (Z.eqb_spec (index inp) (outnum o)) as [Ei|Ei];
      cbn [negb]; [|exact Skip].
    destruct (Z.eqb_spec (in_txid inp) (txid o)) as [Et|Et];
      unfold structeq.
    + destruct Ho as [C|[C|C]]; congruence.
    + destruct (Z.eqb_spec (in_txid inp) (txid o)); [congruence|].
      exact Skip.
Qed.

(** X18: a spend that concerns no unresolved tracked output (every
    output is resolved already, or is not the one spent) changes nothing
    and is answered by one [onchain_unwatch_tx] for the spending
    transaction. *)
Theorem output_spent_unrelated {prim : Primitives}
    (outs0 : list tracked_output) (tx : bitcoin_tx) (input_num height : Z)
    (inp : bitcoin_tx_input) :
  nth_error (input tx) (Z.to_nat input_num) = Some inp ->
  Forall (passed_over inp) outs0 ->
  output_spent outs0 tx input_num height
  = Ok (outs0, [onchain_unwatch_tx (bitcoin_txid tx)
                                   (Z.of_nat (length (output tx)))]).
Proof.
  intros Hin F. unfold output_spent, at_index. rewrite Hin. cbn [bind].
  rewrite <- (app_nil_r outs0) at 1.
  rewrite (output_spent_from_skip outs0 [] tx (bitcoin_txid tx) inp F).
  reflexivity.
Qed.

Lemma output_spent_unrelated_witness :
  output_spent (prim := Sample.prim) OurCommitment.entry
    (mk_tx 0 [mk_input 99 0 0 None None] [mk_output 1 [1]]) 0 650
  = Ok (OurCommitment.entry,
        [onchain_unwatch_tx
           (bitcoin_txid (Primitives := Sample.prim)
              (mk_tx 0 [mk_input 99 0 0 None None] [mk_output 1 [1]]))
           1]).
Proof.
  apply (output_spent_unrelated (prim := Sample.prim) OurCommitment.entry
           (mk_tx 0 [mk_input 99 0 0 None None] [mk_output 1 [1]]) 0 650
           (mk_input 99 0 0 None None)).
  - reflexivity.
  - apply Forall_forall. intros o Hin. right. right.
    vm_compute in Hin.
    destruct Hin as [<-|[<-|[<-|[]]]]; vm_compute; discriminate.
Defined.

(** X19: the sweep that [tx_to_us] builds for an output resolves that
    output when it is seen spending it: the first unresolved output it
    spends, proposed to be resolved by it, becomes resolved by the sweep's
    txid at depth 0 with the proposal's type, and nothing is written. *)
Theorem output_spent_by_own_sweep {prim : Primitives}
    (pre post : list tracked_output) (out : tracked_output)
    (to_self_delay locktime feerate dust_limit depth_req height : Z)
    (wscript wallet privkey pubkey : bytes) (ty : tx_type) :
  let sweep := tx_to_us out to_self_delay locktime feerate dust_limit wscript
                        wallet privkey pubkey in
  let pending := propose_resolution out (Some sweep) depth_req ty in
  resolved out = None ->
  Forall (fun o => resolved o <> None \/ outnum out <> outnum o
                   \/ txid out <> txid o) pre ->
  output_spent (pre ++ pending :: post) sweep 0 height
  = Ok (pre ++ set_resolved pending
                 (Some (mk_resolution (bitcoin_txid sweep) 0 ty)) :: post,
        []).
Proof.
  intros sweep pending Hres Hpre.
  unfold output_spent, at_index.
  change (nth_error (input sweep) (Z.to_nat 0))
    with (Some (mk_input (txid out) (outnum out) to_self_delay
                  (Some (satoshi out))
                  (Some (bitcoin_witness_secret
                           (sign_tx_input
                              (mk_tx locktime
                                 [mk_input (txid out) (outnum out)
                                    to_self_delay (Some (satoshi out)) None]
                                 (output sweep))
                              0 wscript privkey pubkey) wscript)))).
  cbn [bind].
  rewrite output_spent_from_skip by exact Hpre.
  cbn [output_spent_from]. unfold pending.
  cbn [propose_resolution set_proposal resolved index in_txid outnum txid].
  rewrite Hres. unfold structeq. rewrite !Z.eqb_refl. cbn [negb].
  unfold resolved_by_proposal.
  cbn [propose_resolution set_proposal proposal prop_tx prop_tx_type].
  unfold structeq. rewrite Z.eqb_refl. cbn [bind option_map]. reflexivity.
Qed.

Lemma output_spent_by_own_sweep_witness :
  let out := new_tracked_output 7 500 OUR_UNILATERAL 0 60000
                                DELAYED_OUTPUT_TO_US in
  let sweep := tx_to_us (prim := Sample.prim) out 144 0 1000 546 [99; 144]
                        [8] [9] [4] in
  exists outs1,
    output_spent (prim := Sample.prim)
      [propose_resolution out (Some sweep) 144
         OUR_UNILATERAL_TO_US_RETURN_TO_WALLET] sweep 0 650
    = Ok (outs1, [])
    /\ map (fun o => option_map res_tx_type (resolved o)) outs1
       = [Some OUR_UNILATERAL_TO_US_RETURN_TO_WALLET].
Proof.
  intros out sweep. eexists. split.
  - apply (output_spent_by_own_sweep (prim := Sample.prim) [] []
             (new_tracked_output 7 500 OUR_UNILATERAL 0 60000
                                 DELAYED_OUTPUT_TO_US)
             144 0 1000 546 144 650 [99; 144] [8] [9] [4]
             OUR_UNILATERAL_TO_US_RETURN_TO_WALLET).
    + reflexivity.
    + constructor.
  - reflexivity.
Defined.

(** X20: when the first unresolved output that a transaction spends is
    not spent by the transaction proposed for it, the outcome goes by the
    type of the output.  An output to us is resolved as UNKNOWN_TXTYPE by
    the spender; a spend of their HTLC is ignored, with no reply at all;
    for our HTLC, the funding output and the outputs to them the daemon
    fails with an internal error. *)
Theorem output_spent_by_other {prim : Primitives}
    (pre post : list tracked_output) (o : tracked_output)
    (p : proposed_resolution) (tx : bitcoin_tx) (input_num height : Z)
    (inp : bitcoin_tx_input) :
  nth_error (input tx) (Z.to_nat input_num) = Some inp ->
  Forall (passed_over inp) pre ->
  resolved o = None ->
  index inp = outnum o ->
  in_txid inp = txid o ->
  proposal o = Some p ->
  (forall ptx, prop_tx p = Some ptx -> bitcoin_txid ptx <> bitcoin_txid tx) ->
  output_spent (pre ++ o :: post) tx input_num height
  = match out_output_type o with
    | OUTPUT_TO_US | DELAYED_OUTPUT_TO_US =>
        Ok (pre ++ set_resolved o
                     (Some (mk_resolution (bitcoin_txid tx) 0 UNKNOWN_TXTYPE))
                :: post, [])
    | THEIR_HTLC => Ok (pre ++ o :: post, [])
    | OUR_HTLC | FUNDING_OUTPUT | OUTPUT_TO_THEM | DELAYED_OUTPUT_TO_THEM =>
        StatusFailed WIRE_ONCHAIN_INTERNAL_ERROR
    end.
Proof.
  intros Hin Hpre Hres Hi Ht Hp Hne.
  unfold output_spent, at_index. rewrite Hin. cbn [bind].
  rewrite output_spent_from_skip by exact Hpre.
  cbn [output_spent_from]. rewrite Hres, Hi, Ht.
  unfold structeq at 1. rewrite !Z.eqb_refl. cbn [negb].
  assert (R : resolved_by_proposal o (bitcoin_txid tx) = Ok (false, o)).
  { unfold resolved_by_proposal. rewrite Hp.
    destruct (prop_tx p) as [ptx|] eqn:E; [|reflexivity].
    unfold structeq.
    destruct (Z.eqb_spec (bitcoin_txid ptx) (bitcoin_txid tx)) as [C|_].
    - exfalso. exact (Hne ptx eq_refl C).
    - rewrite <- Hres, set_resolved_same. reflexivity. }
  rewrite R. cbn [bind].
  destruct (out_output_type o); reflexivity.
Qed.

Lemma output_spent_by_other_witness :
  let out := new_tracked_output 7 500 OUR_UNILATERAL 0 60000
                                DELAYED_OUTPUT_TO_US in
  let sweep := tx_to_us (prim := Sample.prim) out 144 0 1000 546 [99; 144]
                        [8] [9] [4] in
  let theft := mk_tx 0 [mk_input 7 0 144 None None] [mk_output 59000 [66]] in
  exists outs1,
    output_spent (prim := Sample.prim)
      [propose_resolution out (Some sweep) 144
         OUR_UNILATERAL_TO_US_RETURN_TO_WALLET] theft 0 650
    = Ok (outs1, [])
    /\ map (fun o => option_map res_tx_type (resolved o)) outs1
       = [Some UNKNOWN_TXTYPE].
Proof.
  intros out sweep theft. eexists. split.
  - apply (output_spent_by_other (prim := Sample.prim) [] []
             (propose_resolution out (Some sweep) 144
                OUR_UNILATERAL_TO_US_RETURN_TO_WALLET)
             (mk_proposal (Some sweep) 144
                OUR_UNILATERAL_TO_US_RETURN_TO_WALLET)
             theft 0 650 (mk_input 7 0 144 None None)).
    + reflexivity.
    + constructor.
    + reflexivity.
    + reflexivity.
    + reflexivity.
    + reflexivity.
    + intros ptx E. inversion E; subst. vm_compute. discriminate.
  - reflexivity.
Defined.

(** ** Depth updates, output by output *)

(** X21: a depth update treats the outputs one by one: on a store made
    of two parts it does what it does on each part, and writes the
    replies of the first part before those of the second. *)
Theorem tx_new_depth_app (a b : list tracked_output) (t : sha256_double)
    (d : Z) :
  tx_new_depth (a ++ b) t d
  = '(a', w1) <- tx_new_depth a t d ;;
    '(b', w2) <- tx_new_depth b t d ;;
    Ok (a' ++ b', w1 ++ w2).
Proof.
  induction a as [|o a IH]; cbn [app tx_new_depth bind].
  - destruct (tx_new_depth b t d) as [[b' w2]| |]; reflexivity.
  - destruct (tx_new_depth_one o t d) as [[o' w]| |]; cbn [bind];
      [|reflexivity|reflexivity].
    rewrite IH.
    destruct (tx_new_depth a t d) as [[a' w1]| |]; cbn [bind];
      [|reflexivity|reflexivity].
    destruct (tx_new_depth b t d) as [[b' w2]| |]; cbn [bind];
      [|reflexivity|reflexivity].
    rewrite app_assoc. reflexivity.
Qed.

(** X22: an HTLC they offered, given its proposal by
    [resolve_their_htlc], is resolved by ignoring exactly when the
    commitment is as deep as the expiry is above the commitment's height
    (at once when the expiry is in the past); until then a depth update
    leaves it as it is.  No reply is written either way. *)
Theorem their_htlc_ignored_at_expiry (out : tracked_output) (htlc : htlc_stub)
    (d : Z) :
  let pending := resolve_their_htlc out htlc in
  resolved out = None ->
  is_u32 (tx_blockheight out) ->
  is_u32 (cltv_expiry htlc) ->
  tx_new_depth [pending] (txid out) d
  = Ok ([if Z.max 0 (cltv_expiry htlc - tx_blockheight out) <=? d
         then set_resolved pending (Some (mk_resolution (txid out) 0 SELF))
         else pending], []).
Proof.
  intros pending Hres Hh Hc. unfold is_u32 in Hh, Hc.
  cbn [tx_new_depth]. unfold tx_new_depth_one, pending.
  cbn [resolve_their_htlc propose_resolution_at_block propose_resolution
       set_proposal resolved proposal depth_required txid].
  rewrite Hres. unfold structeq. rewrite Z.eqb_refl. cbn [andb].
  assert (E : (if cltv_expiry htlc <? tx_blockheight out then 0
               else u32 (cltv_expiry htlc - tx_blockheight out))
              = Z.max 0 (cltv_expiry htlc - tx_blockheight out)).
  { destruct (Z.ltb_spec (cltv_expiry htlc) (tx_blockheight out)); [lia|].
    rewrite u32_small by lia. lia. }
  rewrite E.
  destruct (Z.geb_spec d (Z.max 0 (cltv_expiry htlc - tx_blockheight out)));
    destruct (Z.leb_spec (Z.max 0 (cltv_expiry htlc - tx_blockheight out)) d);
    try lia; reflexivity.
Qed.

Lemma their_htlc_ignored_at_expiry_witness :
  let out := new_tracked_output 7 500 OUR_UNILATERAL 1 20000 THEIR_HTLC in
  tx_new_depth [resolve_their_htlc out (mk_htlc REMOTE 600 [21])] 7 100
  = Ok ([set_resolved (resolve_their_htlc out (mk_htlc REMOTE 600 [21]))
           (Some (mk_resolution 7 0 SELF))], []).
Proof.
  apply (their_htlc_ignored_at_expiry
           (new_tracked_output 7 500 OUR_UNILATERAL 1 20000 THEIR_HTLC)
           (mk_htlc REMOTE 600 [21]) 100).
  - reflexivity.
  - unfold is_u32. simpl. lia.
  - unfold is_u32. simpl. lia.
Defined.

(** ** What the loop keeps *)

Lemma only_resolution_differs_refl o : only_resolution_differs o o.
Proof. exists (resolved o). symmetry. apply set_resolved_same. Qed.

Lemma only_resolution_differs_set o r :
  only_resolution_differs o (set_resolved o r).
Proof. exists r. reflexivity. Qed.

Lemma only_resolution_differs_trans o1 o2 o3 :
  only_resolution_differs o1 o2 -> only_resolution_differs o2 o3 ->
  only_resolution_differs o1 o3.
Proof. intros [r ->] [r' ->]. exists r'. reflexivity. Qed.

Lemma keeps_resolution_refl o : keeps_resolution o o.
Proof. intros r E. exists r. repeat split; assumption. Qed.

Lemma keeps_resolution_unresolved o o' :
  resolved o = None -> keeps_resolution o o'.
Proof. intros E r E'. congruence. Qed.

Lemma keeps_resolution_trans o1 o2 o3 :
  keeps_resolution o1 o2 -> keeps_resolution o2 o3 -> keeps_resolution o1 o3.
Proof.
  intros H12 H23 r E. destruct (H12 r E) as (r2 & E2 & T2 & Y2).
  destruct (H23 r2 E2) as (r3 & E3 & T3 & Y3).
  exists r3. repeat split; congruence.
Qed.

Lemma evolves_refl o : evolves o o.
Proof.
  split; [apply only_resolution_differs_refl|apply keeps_resolution_refl].
Qed.

Lemma Forall2_evolves_refl outs0 : Forall2 evolves outs0 outs0.
Proof. induction outs0; constructor; auto using evolves_refl. Qed.

Lemma Forall2_evolves_trans l1 :
  forall l2 l3,
    Forall2 evolves l1 l2 -> Forall2 evolves l2 l3 -> Forall2 evolves l1 l3.
Proof.
  induction l1 as [|o l1 IH]; intros l2 l3 H12 H23.
  - inversion H12; subst. inversion H23; subst. constructor.
  - inversion H12 as [|? o2 ? l2' [A1 A2] F12]; subst.
    inversion H23 as [|? o3 ? l3' [B1 B2] F23]; subst.
    constructor; [|exact (IH _ _ F12 F23)]. split.
    + exact (only_resolution_differs_trans _ _ _ A1 B1).
    + exact (keeps_resolution_trans _ _ _ A2 B2).
Qed.

Lemma tx_new_depth_one_evolves o t d o' w :
  tx_new_depth_one o t d = Ok (o', w) ->
  evolves o o' /\ Forall is_loop_reply w.
Proof.
  unfold tx_new_depth_one. intros H.
  destruct (resolved o) as [r|] eqn:E.
  - destruct (structeq (res_txid r) t); inversion H; subst.
    + split; [|constructor]. split; [apply only_resolution_differs_set|].
      intros r' E'. rewrite E in E'. inversion E'; subst.
      eexists. split; [reflexivity|]. split; reflexivity.
    + split; [apply evolves_refl|constructor].
  - destruct (proposal o) as [p|] eqn:P.
    + destruct (structeq (txid o) t && (d >=? depth_required p)).
      * unfold proposal_meets_depth in H. rewrite P in H.
        destruct (prop_tx p); inversion H; subst.
        -- split; [apply evolves_refl|]. constructor; [exact I|constructor].
        -- split; [|constructor].
           split; [apply only_resolution_differs_set|].
           apply keeps_resolution_unresolved. exact E.
      * inversion H; subst. split; [apply evolves_refl|constructor].
    + inversion H; subst. split; [apply evolves_refl|constructor].
Qed.

Lemma tx_new_depth_evolves outs0 t d :
  forall outs' w,
    tx_new_depth outs0 t d = Ok (outs', w) ->
    Forall2 evolves outs0 outs' /\ Forall is_loop_reply w.
Proof.
  induction outs0 as [|o outs0 IH]; intros outs' w H; cbn [tx_new_depth] in H.
  - inversion H; subst. split; constructor.
  - destruct (tx_new_depth_one o t d) as [[o' w1]| |] eqn:E1;
      cbn [bind] in H; try discriminate.
    destruct (tx_new_depth outs0 t d) as [[rest' w2]| |] eqn:E2;
      cbn [bind] in H; try discriminate.
    inversion H; subst.
    destruct (tx_new_depth_one_evolves _ _ _ _ _ E1) as [A1 A2].
    destruct (IH _ _ eq_refl) as [B1 B2].
    split; [constructor; assumption|]. apply Forall_app. split; assumption.
Qed.

Lemma output_spent_from_evolves {prim : Primitives} outs0 tx spender inp :
  forall outs',
    output_spent_from outs0 tx spender inp = Ok (Some outs') ->
    Forall2 evolves outs0 outs'.
Proof.
  induction outs0 as [|o outs0 IH]; intros outs' H;
    cbn [output_spent_from] in H; [discriminate|].
  assert (Skip :
    (r <- output_spent_from outs0 tx spender inp ;;
     Ok (option_map (cons o) r)) = Ok (Some outs') ->
    Forall2 evolves (o :: outs0) outs').
  { intros S.
    destruct (output_spent_from outs0 tx spender inp) as [[r|]| |];
      cbn [bind option_map] in S; try discriminate.
    inversion S; subst. constructor; [apply evolves_refl|].
    apply IH. reflexivity. }
  destruct (resolved o) eqn:E; [exact (Skip H)|].
  destruct (negb (index inp =? outnum o)); [exact (Skip H)|].
  destruct (negb (structeq (in_txid inp) (txid o))); [exact (Skip H)|].
  assert (Ev : forall r, evolves o (set_resolved o r)).
  { intros r. split; [apply only_resolution_differs_set|].
    apply keeps_resolution_unresolved. exact E. }
  assert (Ev2 : forall r r', evolves o (set_resolved (set_resolved o r) r')).
  { intros r r'. exact (Ev r'). }
  unfold resolved_by_proposal in H.
  destruct (proposal o) as [p|]; cbn [bind] in H; [|discriminate].
  destruct (prop_tx p) as [ptx|]; cbn [bind] in H.
  - destruct (structeq (bitcoin_txid ptx) spender); cbn [bind] in H.
    + inversion H; subst. constructor; [apply Ev|apply Forall2_evolves_refl].
    + cbn [set_resolved out_output_type] in H.
      destruct (out_output_type o); cbn [handle_their_htlc_fulfill bind] in H;
        try discriminate; inversion H; subst;
        (constructor; [|apply Forall2_evolves_refl]);
        try apply Ev; apply Ev2.
  - destruct (out_output_type o); cbn [handle_their_htlc_fulfill bind] in H;
      try discriminate; inversion H; subst;
      (constructor; [|apply Forall2_evolves_refl]);
      try apply evolves_refl; apply Ev.
Qed.

Lemma dispatch_evolves {prim : Primitives} outs0 m outs' w :
  dispatch outs0 m = Ok (outs', w) ->
  Forall2 evolves outs0 outs' /\ Forall is_loop_reply w.
Proof.
  destruct m as [t d|tx n h|p|raw]; cbn [dispatch]; intros H.
  - exact (tx_new_depth_evolves _ _ _ _ _ H).
  - unfold output_spent in H.
    destruct (at_index (input tx) (Z.to_nat n)) as [inp| |]; cbn [bind] in H;
      try discriminate.
    destruct (output_spent_from outs0 tx (bitcoin_txid tx) inp)
      as [[outs1|]| |] eqn:E; cbn [bind] in H; try discriminate.
    + inversion H; subst.
      split; [exact (output_spent_from_evolves _ _ _ _ _ E)|constructor].
    + inversion H; subst. split; [apply Forall2_evolves_refl|].
      unfold unwatch_tx. constructor; [exact I|constructor].
  - discriminate.
  - discriminate.
Qed.

Lemma wait_for_resolved_evolves {prim : Primitives} msgs :
  forall outs0 sent r,
    wait_for_resolved msgs outs0 sent = Ok r ->
    Forall2 evolves outs0 (final_outs r)
    /\ exists w, written r = sent ++ w /\ Forall is_loop_reply w.
Proof.
  induction msgs as [|m later IH]; intros outs0 sent r H;
    cbn [wait_for_resolved] in H.
  - destruct (all_irrevocably_resolved outs0); inversion H; subst;
      (split; [apply Forall2_evolves_refl|]); exists [];
      (split; [symmetry; apply app_nil_r|constructor]).
  - destruct (all_irrevocably_resolved outs0).
    { inversion H; subst. split; [apply Forall2_evolves_refl|]. exists [].
      split; [symmetry; apply app_nil_r|constructor]. }
    destruct (dispatch outs0 m) as [[outs1 w1]| |] eqn:D; cbn [bind] in H;
      try discriminate.
    destruct (dispatch_evolves _ _ _ _ D) as [A1 A2].
    destruct (IH _ _ _ H) as (B1 & w2 & B2 & B3).
    split; [exact (Forall2_evolves_trans _ _ _ A1 B1)|].
    exists (w1 ++ w2). split; [rewrite B2, app_assoc; reflexivity|].
    apply Forall_app. split; assumption.
Qed.

(** X23: whatever the parent sends, the loop neither adds nor removes nor
    reorders tracked outputs, and it changes nothing of an output but its
    resolution: the provenance, index, amount, type and proposal of every
    output are at the end what they were when the loop was entered. *)
Theorem wait_for_resolved_changes_resolutions_only {prim : Primitives}
    (msgs : list request) (outs0 : list tracked_output) (sent : list reply)
    (r : run) :
  wait_for_resolved msgs outs0 sent = Ok r ->
  Forall2 only_resolution_differs outs0 (final_outs r).
Proof.
  intros H. destruct (wait_for_resolved_evolves _ _ _ _ H) as [F _].
  revert F. apply Forall2_impl. intros o o' [A _]. exact A.
Qed.

Lemma wait_for_resolved_changes_resolutions_only_witness :
  exists r,
    wait_for_resolved (prim := Sample.prim) [onchain_depth 7 100]
                      pending_sweep_store [] = Ok r
    /\ Forall2 only_resolution_differs pending_sweep_store (final_outs r).
Proof.
  assert (E : exists r,
             wait_for_resolved (prim := Sample.prim) [onchain_depth 7 100]
                               pending_sweep_store [] = Ok r)
    by (vm_compute; eauto).
  destruct E as (r & E). exists r. split; [exact E|].
  exact (wait_for_resolved_changes_resolutions_only (prim := Sample.prim)
           _ _ _ _ E).
Defined.

(** X24: through the whole loop, spend notifications included, an output
    that is resolved stays resolved, by the same transaction and with the
    same type; only its depth can change. *)
Theorem wait_for_resolved_keeps_resolutions {prim : Primitives}
    (msgs : list request) (outs0 : list tracked_output) (sent : list reply)
    (r : run) :
  wait_for_resolved msgs outs0 sent = Ok r ->
  Forall2 keeps_resolution outs0 (final_outs r).
Proof.
  intros H. destruct (wait_for_resolved_evolves _ _ _ _ H) as [F _].
  revert F. apply Forall2_impl. intros o o' [_ A]. exact A.
Qed.

Lemma wait_for_resolved_keeps_resolutions_witness :
  exists r,
    wait_for_resolved (prim := Sample.prim)
      [onchain_spent OurCommitment.spend 0 650] OurCommitment.entry [] = Ok r
    /\ Forall2 keeps_resolution OurCommitment.entry (final_outs r).
Proof.
  assert (E : exists r,
             wait_for_resolved (prim := Sample.prim)
               [onchain_spent OurCommitment.spend 0 650]
               OurCommitment.entry [] = Ok r)
    by (vm_compute; eauto).
  destruct E as (r & E). exists r. split; [exact E|].
  exact (wait_for_resolved_keeps_resolutions (prim := Sample.prim)
           _ _ _ _ E).
Defined.

(** ** How the loop runs *)

(** X25: the loop can be followed message by message: a run on the
    messages [first ++ more] is the run on [first], continued on [more]
    with the store and the replies it had reached if it was still waiting
    for a message, and left as it is if it had exited. *)
Theorem wait_for_resolved_app {prim : Primitives} (first more : list request)
    (outs0 : list tracked_output) (sent : list reply) :
  wait_for_resolved (first ++ more) outs0 sent
  = r <- wait_for_resolved first outs0 sent ;;
    match ending r with
    | LoopExit => Ok r
    | AwaitingMessage => wait_for_resolved more (final_outs r) (written r)
    end.
Proof.
  revert outs0 sent.
  induction first as [|m first IH]; intros outs0 sent;
    cbn [app wait_for_resolved].
  - destruct more as [|m more]; cbn [wait_for_resolved];
      destruct (all_irrevocably_resolved outs0) eqn:A; cbn [bind ending];
      cbn [final_outs written wait_for_resolved]; rewrite ?A; reflexivity.
  - destruct (all_irrevocably_resolved outs0); [reflexivity|].
    destruct (dispatch outs0 m) as [[outs1 w]| |]; cbn [bind];
      [|reflexivity|reflexivity].
    apply IH.
Qed.

(** X26: the loop ends in one of two ways.  It exits exactly when the
    exit condition holds of the store it has reached; otherwise it has
    read every message and waits for the next. *)
Theorem wait_for_resolved_ending {prim : Primitives} (msgs : list request)
    (outs0 : list tracked_output) (sent : list reply) (r : run) :
  wait_for_resolved msgs outs0 sent = Ok r ->
  match ending r with
  | LoopExit => all_irrevocably_resolved (final_outs r) = true
  | AwaitingMessage => all_irrevocably_resolved (final_outs r) = false
  end.
Proof.
  revert outs0 sent. induction msgs as [|m later IH]; intros outs0 sent H;
    cbn [wait_for_resolved] in H.
  - destruct (all_irrevocably_resolved outs0) eqn:A; inversion H; subst;
      exact A.
  - destruct (all_irrevocably_resolved outs0) eqn:A.
    { inversion H; subst. exact A. }
    destruct (dispatch outs0 m) as [[outs1 w]| |]; cbn [bind] in H;
      try discriminate.
    exact (IH _ _ H).
Qed.

Lemma wait_for_resolved_ending_witness :
  exists r,
    wait_for_resolved (prim := Sample.prim) [onchain_depth 7 50]
                      pending_sweep_store [] = Ok r
    /\ match ending r with
       | LoopExit => all_irrevocably_resolved (final_outs r) = true
       | AwaitingMessage => all_irrevocably_resolved (final_outs r) = false
       end.
Proof.
  assert (E : exists r,
             wait_for_resolved (prim := Sample.prim) [onchain_depth 7 50]
                               pending_sweep_store [] = Ok r)
    by (vm_compute; eauto).
  destruct E as (r & E). exists r. split; [exact E|].
  exact (wait_for_resolved_ending (prim := Sample.prim) _ _ _ _ E).
Defined.

Lemma main_tracks_sent {prim : Primitives} init htlcs entry sent :
  main_tracks init htlcs = Ok (entry, sent) ->
  exists s, sent = [onchain_init_reply s].
Proof.
  unfold main_tracks.
  destruct (derive_basepoints (init_seed init)) as [[bp sec] shaseed].
  intros H.
  repeat match type of H with
         | bind ?m _ = Ok _ =>
             destruct m eqn:?; cbn [bind] in H; try discriminate
         | (if ?c then _ else _) = Ok _ => destruct c
         | match ?c with Some _ => _ | None => _ end = Ok _ => destruct c
         end;
    try discriminate; inversion H; subst; eexists; reflexivity.
Qed.

(** X27: a run of [main] that does not fail announces the close exactly
    once, before anything else: the first reply is the
    [onchain_init_reply], and every later reply is a broadcast request or
    an unwatch. *)
Theorem main_replies {prim : Primitives} (init : onchain_init)
    (htlcs : list htlc_stub) (msgs : list request) (r : run) :
  main init htlcs msgs = Ok r ->
  exists s w,
    written r = onchain_init_reply s :: w /\ Forall is_loop_reply w.
Proof.
  rewrite main_enters_loop. intros H.
  destruct (main_tracks init htlcs) as [[entry sent]| |] eqn:E;
    cbn [bind] in H; try discriminate.
  destruct (main_tracks_sent _ _ _ _ E) as (s & ->).
  destruct (wait_for_resolved_evolves _ _ _ _ H) as (_ & w & W & F).
  exists s, w. split; [exact W|exact F].
Qed.

Lemma main_replies_witness :
  exists r s w,
    main (prim := Sample.prim) OurCommitment.init []
         [onchain_depth (bitcoin_txid (Primitives := Sample.prim)
                           OurCommitment.commit_tx) 144] = Ok r
    /\ written r = onchain_init_reply s :: w /\ Forall is_loop_reply w.
Proof.
  assert (E : exists r,
             main (prim := Sample.prim) OurCommitment.init []
               [onchain_depth (bitcoin_txid (Primitives := Sample.prim)
                                 OurCommitment.commit_tx) 144] = Ok r)
    by (vm_compute; eauto).
  destruct E as (r & E).
  destruct (main_replies (prim := Sample.prim) _ _ _ _ E) as (s & w & W & F).
  exists r, s, w. split; [exact E|]. split; assumption.
Defined.

Lemma wait_for_resolved_exit {prim : Primitives} msgs outs0 sent :
  all_irrevocably_resolved outs0 = true ->
  wait_for_resolved msgs outs0 sent = Ok (mk_run LoopExit outs0 sent).
Proof. intros A. destruct msgs; cbn [wait_for_resolved]; rewrite A; reflexivity. Qed.

Lemma single_resolution_depths {prim : Primitives} (f : tracked_output)
    (t : sha256_double) (ty : tx_type) (sent : list reply) (ds : list Z) :
  forall d0,
    d0 < 100 ->
    exists r,
      wait_for_resolved (map (onchain_depth t) ds)
        [set_resolved f (Some (mk_resolution t d0 ty))] sent = Ok r
      /\ written r = sent
      /\ (ending r = LoopExit <-> Exists (fun d => 100 <= d) ds).
Proof.
  induction ds as [|d ds IH]; intros d0 Hd0; cbn [map wait_for_resolved].
  - cbn [all_irrevocably_resolved resolved set_resolved depth].
    destruct (Z.ltb_spec d0 100); [|lia].
    eexists. split; [reflexivity|]. split; [reflexivity|].
    cbn [ending]. split; [discriminate|]. intros E. inversion E.
  - cbn [all_irrevocably_resolved resolved set_resolved depth].
    destruct (Z.ltb_spec d0 100); [|lia].
    cbn [dispatch tx_new_depth]. unfold tx_new_depth_one.
    cbn [resolved set_resolved res_txid res_tx_type]. unfold structeq.
    rewrite Z.eqb_refl. cbn [bind app]. rewrite app_nil_r.
    change (set_resolved (set_resolved f (Some (mk_resolution t d0 ty)))
              (Some (mk_resolution t d ty)))
      with (set_resolved f (Some (mk_resolution t d ty))).
    destruct (Z.lt_ge_cases d 100) as [L|G].
    + destruct (IH d L) as (r & E & W & X).
      exists r. split; [exact E|]. split; [exact W|].
      rewrite X. split.
      * intros Ex. right. exact Ex.
      * intros Ex. inversion Ex; subst; [lia|assumption].
    + rewrite wait_for_resolved_exit.
      * eexists. split; [reflexivity|]. split; [reflexivity|].
        cbn [ending]. split; [|reflexivity]. intros _. left. exact G.
      * cbn [all_irrevocably_resolved resolved set_resolved depth].
        destruct (Z.ltb_spec d 100); [lia|reflexivity].
Qed.

(** X28: after a mutual close the daemon announces ONCHAIND_MUTUAL and,
    fed the depths of the closing transaction, leaves the loop at the
    first depth that is at least 100, and not before; it writes nothing
    else. *)
Theorem mutual_close_exits_at_depth_100 {prim : Primitives} (ds : list Z)
    (tx : bitcoin_tx) (txid_ : sha256_double) (funding : tracked_output) :
  exists r,
    handle_mutual_close (map (onchain_depth txid_) ds) tx txid_ [funding]
    = Ok r
    /\ written r = [onchain_init_reply ONCHAIND_MUTUAL]
    /\ (ending r = LoopExit <-> Exists (fun d => 100 <= d) ds).
Proof.
  unfold handle_mutual_close, mutual_close_tracks, resolved_by_other.
  cbn [bind].
  exact (single_resolution_depths funding txid_ MUTUAL_CLOSE
           (set_state ONCHAIND_MUTUAL) ds 0 ltac:(lia)).
Qed.

Lemma wait_for_resolved_step {prim : Primitives} m later outs0 sent outs' w :
  all_irrevocably_resolved outs0 = false ->
  dispatch outs0 m = Ok (outs', w) ->
  wait_for_resolved (m :: later) outs0 sent
  = wait_for_resolved later outs' (sent ++ w).
Proof.
  intros A D. cbn [wait_for_resolved]. rewrite A.
  rewrite D. reflexivity.
Qed.

(** X29: an output with a proposed transaction, followed through the
    loop.  When the commitment is deep enough for the proposal (and not
    yet 100 deep) the transaction is handed to the parent for broadcast;
    when it is seen spending the output, the output is resolved by it; the
    loop goes on until the commitment, which resolved the funding output,
    and the proposed transaction are both 100 deep, and then exits. *)
Theorem proposal_followed_to_exit {prim : Primitives}
    (funding out : tracked_output) (ptx : bitcoin_tx) (inp : bitcoin_tx_input)
    (close_type ty : tx_type) (depth_req d1 d2 d3 height : Z)
    (sent : list reply) :
  let pending := propose_resolution out (Some ptx) depth_req ty in
  resolved out = None ->
  nth_error (input ptx) 0 = Some inp ->
  index inp = outnum out ->
  in_txid inp = txid out ->
  bitcoin_txid ptx <> txid out ->
  depth_req <= d1 < 100 ->
  100 <= d2 ->
  100 <= d3 ->
  wait_for_resolved
    [onchain_depth (txid out) d1; onchain_spent ptx 0 height;
     onchain_depth (txid out) d2; onchain_depth (bitcoin_txid ptx) d3]
    [resolved_by_other funding (txid out) close_type; pending] sent
  = Ok (mk_run LoopExit
          [set_resolved funding
             (Some (mk_resolution (txid out) d2 close_type));
           set_resolved pending
             (Some (mk_resolution (bitcoin_txid ptx) d3 ty))]
          (sent ++ [onchain_broadcast_tx ptx])).
Proof.
  intros pending Hres Hin Hidx Htx Hne Hd1 Hd2 Hd3. subst pending.
  assert (B0 : (0 <? 100) = true) by reflexivity.
  assert (B1 : (d1 <? 100) = true) by (apply Z.ltb_lt; lia).
  assert (B2 : (d2 <? 100) = false) by (apply Z.ltb_ge; lia).
  assert (B3 : (d3 <? 100) = false) by (apply Z.ltb_ge; lia).
  assert (B4 : (d1 >=? depth_req) = true) by (apply Z.geb_le; lia).
  assert (B5 : (bitcoin_txid ptx =? txid out) = false)
    by (apply Z.eqb_neq; exact Hne).
  assert (B6 : (txid out =? bitcoin_txid ptx) = false)
    by (apply Z.eqb_neq; congruence).
  set (pending := propose_resolution out (Some ptx) depth_req ty).
  set (funded := fun d =>
         set_resolved funding (Some (mk_resolution (txid out) d close_type))).
  set (spent := fun d =>
         set_resolved pending (Some (mk_resolution (bitcoin_txid ptx) d ty))).
  assert (P1 : resolved pending = None) by exact Hres.
  (* the commitment reaches the depth of the proposal *)
  assert (S1 : tx_new_depth [funded 0; pending] (txid out) d1
               = Ok ([funded d1; pending], [onchain_broadcast_tx ptx])).
  { cbn [tx_new_depth]. unfold tx_new_depth_one at 1.
    cbn [funded resolved set_resolved res_txid res_tx_type].
    unfold structeq. rewrite Z.eqb_refl. cbn [bind].
    unfold tx_new_depth_one. rewrite P1.
    cbn [pending proposal propose_resolution set_proposal txid
         depth_required].
    unfold structeq. rewrite Z.eqb_refl, B4. cbn [andb].
    unfold proposal_meets_depth.
    cbn [proposal set_proposal prop_tx bind app]. reflexivity. }
  (* the proposed transaction is seen spending the output *)
  assert (S2 : output_spent [funded d1; pending] ptx 0 height
               = Ok ([funded d1; spent 0], [])).
  { unfold output_spent, at_index. change (Z.to_nat 0) with 0%nat.
    rewrite Hin. cbn [bind output_spent_from].
    cbn [funded resolved set_resolved]. rewrite P1.
    cbn [pending propose_resolution set_proposal outnum txid].
    rewrite Hidx, Htx. unfold structeq. rewrite !Z.eqb_refl. cbn [negb].
    unfold resolved_by_proposal.
    cbn [pending proposal propose_resolution set_proposal prop_tx
         prop_tx_type].
    unfold structeq. rewrite Z.eqb_refl. cbn [bind option_map].
    reflexivity. }
  (* the commitment gets 100 deep *)
  assert (S3 : tx_new_depth [funded d1; spent 0] (txid out) d2
               = Ok ([funded d2; spent 0], [])).
  { cbn [tx_new_depth]. unfold tx_new_depth_one.
    cbn [funded spent resolved set_resolved res_txid res_tx_type].
    unfold structeq. rewrite Z.eqb_refl, B5. cbn [bind app]. reflexivity. }
  (* the proposed transaction gets 100 deep *)
  assert (S4 : tx_new_depth [funded d2; spent 0] (bitcoin_txid ptx) d3
               = Ok ([funded d2; spent d3], [])).
  { cbn [tx_new_depth]. unfold tx_new_depth_one.
    cbn [funded spent resolved set_resolved res_txid res_tx_type].
    unfold structeq. rewrite Z.eqb_refl, B6. cbn [bind app]. reflexivity. }
  assert (A0 : all_irrevocably_resolved [funded 0; pending] = false).
  { cbn [all_irrevocably_resolved funded resolved set_resolved depth].
    rewrite B0. reflexivity. }
  assert (A1 : all_irrevocably_resolved [funded d1; pending] = false).
  { cbn [all_irrevocably_resolved funded resolved set_resolved depth].
    rewrite B1. reflexivity. }
  assert (A2 : all_irrevocably_resolved [funded d1; spent 0] = false).
  { cbn [all_irrevocably_resolved funded resolved set_resolved depth].
    rewrite B1. reflexivity. }
  assert (A3 : all_irrevocably_resolved [funded d2; spent 0] = false).
  { cbn [all_irrevocably_resolved funded spent resolved set_resolved depth].
    rewrite B2, B0. reflexivity. }
  assert (A4 : all_irrevocably_resolved [funded d2; spent d3] = true).
  { cbn [all_irrevocably_resolved funded spent resolved set_resolved depth].
    rewrite B2, B3. reflexivity. }
  change (resolved_by_other funding (txid out) close_type) with (funded 0).
  rewrite (wait_for_resolved_step (onchain_depth (txid out) d1)
             _ _ _ _ _ A0 S1).
  rewrite (wait_for_resolved_step (onchain_spent ptx 0 height)
             _ _ _ _ _ A1 S2).
  rewrite (wait_for_resolved_step (onchain_depth (txid out) d2)
             _ _ _ _ _ A2 S3).
  rewrite (wait_for_resolved_step (onchain_depth (bitcoin_txid ptx) d3)
             _ _ _ _ _ A3 S4).
  rewrite (wait_for_resolved_exit _ _ _ A4). rewrite !app_nil_r.
  reflexivity.
Qed.

Lemma proposal_followed_to_exit_witness :
  let funding :=
    new_tracked_output 1 0 FUNDING_TRANSACTION 0 100000 FUNDING_OUTPUT in
  let out :=
    new_tracked_output 7 500 OUR_UNILATERAL 0 60000 DELAYED_OUTPUT_TO_US in
  let sweep := tx_to_us (prim := Sample.prim) out 50 0 1000 546 [99; 50]
                        [8] [9] [4] in
  exists r,
    wait_for_resolved (prim := Sample.prim)
      [onchain_depth 7 60; onchain_spent sweep 0 650; onchain_depth 7 100;
       onchain_depth (bitcoin_txid (Primitives := Sample.prim) sweep) 100]
      [resolved_by_other funding 7 OUR_UNILATERAL;
       propose_resolution out (Some sweep) 50
         OUR_UNILATERAL_TO_US_RETURN_TO_WALLET] []
    = Ok r
    /\ ending r = LoopExit
    /\ written r = [onchain_broadcast_tx sweep].
Proof.
  intros funding out sweep. eexists. split.
  - apply (proposal_followed_to_exit (prim := Sample.prim) funding out sweep
             (mk_input 7 0 50 (Some 60000)
                (Some (bitcoin_witness_secret (Primitives := Sample.prim)
                         (sign_tx_input (Primitives := Sample.prim) sweep 0
                            [99; 50] [9] [4]) [99; 50])))
             OUR_UNILATERAL OUR_UNILATERAL_TO_US_RETURN_TO_WALLET
             50 60 100 100 650 []).
    + reflexivity.
    + reflexivity.
    + reflexivity.
    + reflexivity.
    + vm_compute. discriminate.
    + lia.
    + lia.
    + lia.
  - split; reflexivity.
Defined.
